(** * SILBasicBlock: basic blocks of the Swift intermediate language

    A shallow embedding of [include/swift/SIL/SILBasicBlock.h].  Objects that
    the C++ code reaches through pointers (functions, blocks, instructions,
    successor edges) live in a store indexed by their address; a method of
    [SILBasicBlock] is a function of the store and of the block it is called
    on.  A call either returns, trips an [assert] (only when assertions are
    compiled in) or has undefined behaviour. *)

From stdpp Require Import gmap list.

(** ** Addresses *)

Abbreviation FunId := nat (only parsing).
Abbreviation BlockId := nat (only parsing).
Abbreviation InstId := nat (only parsing).
Abbreviation SuccId := nat (only parsing).
Abbreviation ArgId := nat (only parsing).

(** ** Outcome of a call *)

Inductive BuildConfig :=
| Debug      (* assertions compiled in *)
| Release.   (* NDEBUG: [assert] expands to nothing *)

Inductive Outcome (A : Type) :=
| Ok (a : A)
| AssertionFailure
| Undefined.
Arguments Ok {A} a.
Arguments AssertionFailure {A}.
Arguments Undefined {A}.

(** A computation reads the build configuration and yields an outcome. *)
Definition M (A : Type) : Type := BuildConfig → Outcome A.

Definition ret {A} (a : A) : M A := λ _, Ok a.
Definition undefined {A} : M A := λ _, Undefined.
Definition bind {A B} (k : A → M B) (m : M A) : M B :=
  λ cfg, match m cfg with
         | Ok a => k a cfg
         | AssertionFailure => AssertionFailure
         | Undefined => Undefined
         end.

Global Instance M_ret : MRet M := @ret.
Global Instance M_bind : MBind M := @bind.

(** [assert(c)]: aborts in a debug build when [c] is false, does nothing in a
    release build. *)
Definition assert (c : bool) : M unit :=
  λ cfg, if c then Ok ()
         else match cfg with Debug => AssertionFailure | Release => Ok () end.

(** Dereferencing a pointer: undefined when nothing lives at the address. *)
Definition deref {A} (o : option A) : M A :=
  match o with Some a => ret a | None => undefined end.

Definition succeeds {A} (o : Outcome A) : Prop := ∃ a, o = Ok a.
Definition fails {A} (o : Outcome A) : Prop := ∀ a, o ≠ Ok a.

(** ** Data model *)

(** A [SILSuccessor **]: the address of the pointer that refers to an edge,
    either the [PredList] field of a block or the [Next] field of an edge. *)
Inductive SuccSlot :=
| PredListOf (b : BlockId)
| NextOf (e : SuccId).

Global Instance SuccSlot_eq_dec : EqDecision SuccSlot.
Proof. solve_decision. Defined.

(** Modelled from the spec: [SILSuccessor] is declared in SILSuccessor.h,
    which is not part of the sources at hand.  A successor edge is stored in
    the terminator that owns it and threads itself into the predecessor list
    of its target. *)
Record SILSuccessor := mkSucc {
  ContainingInst : option InstId;
  SuccessorBlock : option BlockId;
  Prev : option SuccSlot;
  Next : option SuccId
}.

(** Instructions are opaque list elements, except that a terminator carries
    its array of successor edges. *)
Inductive InstKind :=
| Plain
| TermInst (Succs : list SuccId).

Record SILInstruction := mkInst {
  ParentBB : option BlockId;
  Kind : InstKind
}.

Record SILBasicBlock := mkBB {
  Parent : option FunId;
  PredList : option SuccId;
  BBArgList : list ArgId;
  InstList : list InstId
}.

Record Store := mkStore {
  Functions : gmap FunId (list BlockId);
  Blocks : gmap BlockId SILBasicBlock;
  Insts : gmap InstId SILInstruction;
  Edges : gmap SuccId SILSuccessor
}.

Definition isa_TermInst (I : SILInstruction) : bool :=
  match Kind I with TermInst _ => true | Plain => false end.

Definition getSuccessors (I : SILInstruction) : list SuccId :=
  match Kind I with TermInst ss => ss | Plain => [] end.

(** ** SILInstruction list inspection *)

Definition getParent (B : SILBasicBlock) : option FunId := Parent B.
Definition getInstList (B : SILBasicBlock) : list InstId := InstList B.

Definition empty (B : SILBasicBlock) : bool :=
  match InstList B with [] => true | _ => false end.

(** [InstList.back()]: undefined on an empty list. *)
Definition back (l : list InstId) : M InstId := deref (last l).

(** Modelled from the spec: [cast<TermInst>] comes from LLVM's Casting.h,
    which is not part of the sources at hand.  It asserts that the object is
    of the requested class; without assertions a wrong downcast is
    undefined. *)
Definition cast_TermInst (σ : Store) (i : InstId) : M InstId :=
  I ← deref (Insts σ !! i);
  assert (isa_TermInst I);;
  if isa_TermInst I then ret i else undefined.

Definition getTerminator (σ : Store) (B : SILBasicBlock) : M InstId :=
  assert (negb (empty B));;
  i ← back (InstList B);
  cast_TermInst σ i.

(** ** Argument list inspection and manipulation *)

Definition bbarg_empty (B : SILBasicBlock) : bool :=
  match BBArgList B with [] => true | _ => false end.
Definition bbarg_size (B : SILBasicBlock) : nat := length (BBArgList B).
Definition getBBArgs (B : SILBasicBlock) : list ArgId := BBArgList B.

(** [unsigned getNumBBArg()]: the size converted to a 32-bit unsigned. *)
Definition getNumBBArg (B : SILBasicBlock) : N :=
  (N.of_nat (length (BBArgList B)) mod 2 ^ 32)%N.

(** [BBArgList[i]]: no bounds check. *)
Definition getBBArg (B : SILBasicBlock) (i : N) : M ArgId :=
  match BBArgList B !! N.to_nat i with
  | Some a => ret a
  | None => undefined
  end.

Definition set_BBArgList (l : list ArgId) (B : SILBasicBlock)
    : SILBasicBlock :=
  {| Parent := Parent B; PredList := PredList B;
     BBArgList := l; InstList := InstList B |}.

Definition dropAllArgs (B : SILBasicBlock) : M SILBasicBlock :=
  ret (set_BBArgList [] B).

(** [BBArgList.erase(BBArgList.begin() + idx)] with [idx] an [int]: the
    iterator must refer to an element. *)
Definition eraseArgument (B : SILBasicBlock) (idx : Z) : M SILBasicBlock :=
  if bool_decide (0 ≤ idx < Z.of_nat (length (BBArgList B)))%Z
  then ret (set_BBArgList (delete (Z.to_nat idx) (BBArgList B)) B)
  else undefined.

Definition addArgument (B : SILBasicBlock) (Arg : ArgId) : M SILBasicBlock :=
  ret (set_BBArgList (BBArgList B ++ [Arg]) B).

(** ** Successors *)

Definition getSuccs (σ : Store) (B : SILBasicBlock) : M (list SuccId) :=
  t ← getTerminator σ B;
  I ← deref (Insts σ !! t);
  ret (getSuccessors I).

Definition succ_empty (σ : Store) (B : SILBasicBlock) : M bool :=
  ss ← getSuccs σ B;
  ret (match ss with [] => true | _ => false end).

(** An iterator into the successor array: the array and a position. *)
Definition succ_begin (σ : Store) (B : SILBasicBlock)
    : M (list SuccId * nat) :=
  ss ← getSuccs σ B; ret (ss, 0).
Definition succ_end (σ : Store) (B : SILBasicBlock)
    : M (list SuccId * nat) :=
  ss ← getSuccs σ B; ret (ss, length ss).

Definition succ_next (it : list SuccId * nat) : list SuccId * nat :=
  (it.1, S it.2).

(** Dereferencing a successor iterator yields a [SILSuccessor], which
    converts to the block it points to. *)
Definition succ_deref (σ : Store) (it : list SuccId * nat)
    : M (option BlockId) :=
  e ← deref (it.1 !! it.2);
  s ← deref (Edges σ !! e);
  ret (SuccessorBlock s).

Definition getSingleSuccessor (σ : Store) (B : SILBasicBlock)
    : M (option BlockId) :=
  emp ← succ_empty σ B;
  if emp : bool then ret None else
  b ← succ_begin σ B;
  e ← succ_end σ B;
  if bool_decide (succ_next b ≠ e) then ret None else
  b' ← succ_begin σ B;
  succ_deref σ b'.

(** ** Predecessors *)

(** A [pred_iterator] holds the current edge, null at the end. *)
Definition pred_empty (B : SILBasicBlock) : bool :=
  bool_decide (PredList B = None).
Definition pred_begin (B : SILBasicBlock) : option SuccId := PredList B.
Definition pred_end (B : SILBasicBlock) : option SuccId := None.
Definition getPreds (B : SILBasicBlock) : option SuccId * option SuccId :=
  (pred_begin B, pred_end B).

(** Modelled from the spec: [SILSuccessorIterator::operator++], declared in
    SILSuccessor.h, which is not part of the sources at hand.  Advancing
    follows the [Next] link of the current edge. *)
Definition pred_next (σ : Store) (it : option SuccId) : M (option SuccId) :=
  assert (bool_decide (is_Some it));;
  e ← deref it;
  s ← deref (Edges σ !! e);
  ret (Next s).

(** Modelled from the spec: [SILSuccessorIterator::operator*], declared in
    SILSuccessor.h.  Dereferencing gives the block that holds the terminator
    owning the current edge. *)
Definition pred_deref (σ : Store) (it : option SuccId)
    : M (option BlockId) :=
  assert (bool_decide (is_Some it));;
  e ← deref it;
  s ← deref (Edges σ !! e);
  t ← deref (ContainingInst s);
  I ← deref (Insts σ !! t);
  ret (ParentBB I).

Definition getSinglePredecessor (σ : Store) (B : SILBasicBlock)
    : M (option BlockId) :=
  if pred_empty B then ret None else
  n ← pred_next σ (pred_begin B);
  if bool_decide (n ≠ pred_end B) then ret None else
  pred_deref σ (pred_begin B).

(** The whole predecessor traversal, from [pred_begin] to [pred_end]: the
    edges visited, or [None] when the fuel runs out or a link dangles. *)
Fixpoint pred_walk (fuel : nat) (E : gmap SuccId SILSuccessor)
    (it : option SuccId) : option (list SuccId) :=
  match it with
  | None => Some []
  | Some e =>
      match fuel with
      | 0 => None
      | S n => s ← E !! e; l ← pred_walk n E (Next s); Some (e :: l)
      end
  end.

Definition pred_edges (σ : Store) (B : SILBasicBlock)
    : option (list SuccId) :=
  pred_walk (size (Edges σ)) (Edges σ) (pred_begin B).

(** ** Field updates *)

Definition set_PredList (v : option SuccId) (B : SILBasicBlock)
    : SILBasicBlock :=
  {| Parent := Parent B; PredList := v;
     BBArgList := BBArgList B; InstList := InstList B |}.
Definition set_InstList (l : list InstId) (B : SILBasicBlock)
    : SILBasicBlock :=
  {| Parent := Parent B; PredList := PredList B;
     BBArgList := BBArgList B; InstList := l |}.
Definition set_Next (v : option SuccId) (s : SILSuccessor) : SILSuccessor :=
  {| ContainingInst := ContainingInst s; SuccessorBlock := SuccessorBlock s;
     Prev := Prev s; Next := v |}.
Definition set_Prev (v : option SuccSlot) (s : SILSuccessor) : SILSuccessor :=
  {| ContainingInst := ContainingInst s; SuccessorBlock := SuccessorBlock s;
     Prev := v; Next := Next s |}.
Definition set_SuccessorBlock (v : option BlockId) (s : SILSuccessor)
    : SILSuccessor :=
  {| ContainingInst := ContainingInst s; SuccessorBlock := v;
     Prev := Prev s; Next := Next s |}.
Definition set_ParentBB (v : option BlockId) (I : SILInstruction)
    : SILInstruction :=
  {| ParentBB := v; Kind := Kind I |}.

Definition set_Functions (m : gmap FunId (list BlockId)) (σ : Store) : Store :=
  {| Functions := m; Blocks := Blocks σ; Insts := Insts σ; Edges := Edges σ |}.
Definition set_Blocks (m : gmap BlockId SILBasicBlock) (σ : Store) : Store :=
  {| Functions := Functions σ; Blocks := m;
     Insts := Insts σ; Edges := Edges σ |}.
Definition set_Insts (m : gmap InstId SILInstruction) (σ : Store) : Store :=
  {| Functions := Functions σ; Blocks := Blocks σ;
     Insts := m; Edges := Edges σ |}.
Definition set_Edges (m : gmap SuccId SILSuccessor) (σ : Store) : Store :=
  {| Functions := Functions σ; Blocks := Blocks σ;
     Insts := Insts σ; Edges := m |}.

(** ** The edge registry *)

(** The members of [SILSuccessor] are defined in SILSuccessor.h and
    SILSuccessor.cpp, which are not part of the sources at hand.  By the
    spec, an edge links itself at the front of its target's predecessor
    list, and unlinks from the list of its current target before it is
    retargeted or destroyed. *)

(** Modelled from the spec: a store through a [SILSuccessor **],
    [*sl = v]. *)
Definition store_slot (sl : SuccSlot) (v : option SuccId) (σ : Store)
    : M Store :=
  match sl with
  | PredListOf b =>
      B ← deref (Blocks σ !! b);
      ret (set_Blocks (<[b := set_PredList v B]> (Blocks σ)) σ)
  | NextOf p =>
      s ← deref (Edges σ !! p);
      ret (set_Edges (<[p := set_Next v s]> (Edges σ)) σ)
  end.

(** Modelled from the spec: the edge leaves the list it is in,
    [*Prev = Next; if (Next) Next->Prev = Prev;]. *)
Definition unlink (e : SuccId) (σ : Store) : M Store :=
  s ← deref (Edges σ !! e);
  sl ← deref (Prev s);
  σ1 ← store_slot sl (Next s) σ;
  match Next s with
  | Some n =>
      sn ← deref (Edges σ1 !! n);
      ret (set_Edges (<[n := set_Prev (Prev s) sn]> (Edges σ1)) σ1)
  | None => ret σ1
  end.

(** Modelled from the spec: the edge enters the list of block [BB] at the
    front, [Prev = &BB->PredList; Next = BB->PredList;
    if (Next) Next->Prev = &Next; BB->PredList = this;]. *)
Definition link (e : SuccId) (b : BlockId) (σ : Store) : M Store :=
  B ← deref (Blocks σ !! b);
  s ← deref (Edges σ !! e);
  let s' := set_Next (PredList B) (set_Prev (Some (PredListOf b)) s) in
  let σ1 := set_Edges (<[e := s']> (Edges σ)) σ in
  σ2 ← match PredList B with
       | Some n =>
           sn ← deref (Edges σ1 !! n);
           ret (set_Edges
                  (<[n := set_Prev (Some (NextOf e)) sn]> (Edges σ1)) σ1)
       | None => ret σ1
       end;
  ret (set_Blocks (<[b := set_PredList (Some e) B]> (Blocks σ2)) σ2).

(** Modelled from the spec: [SILSuccessor::operator=(SILBasicBlock *BB)],
    which retargets the edge.  Nothing happens when the target is [BB]
    already; otherwise the edge unlinks from the list of its target, if it
    has one, links into the list of [BB], if it is a block, and records
    [BB]. *)
Definition setSuccessor (e : SuccId) (BB : option BlockId) (σ : Store)
    : M Store :=
  s ← deref (Edges σ !! e);
  if bool_decide (SuccessorBlock s = BB) then ret σ else
  assert (bool_decide (is_Some (ContainingInst s)));;
  σ1 ← match SuccessorBlock s with
       | Some _ => unlink e σ
       | None => ret σ
       end;
  σ2 ← match BB with
       | Some b => link e b σ1
       | None => ret σ1
       end;
  s2 ← deref (Edges σ2 !! e);
  ret (set_Edges (<[e := set_SuccessorBlock BB s2]> (Edges σ2)) σ2).

(** ** Construction *)

(** The constructors of functions, blocks and instructions are defined in
    files that are not part of the sources at hand.  The address of a new
    object is chosen by the allocator: it is a parameter, and must be
    unused. *)

(** Modelled from the spec: a new function, which owns an ordered sequence
    of blocks, empty at first. *)
Definition newFunction (F : FunId) (σ : Store) : M Store :=
  ret (set_Functions (<[F := []]> (Functions σ)) σ).

(** Modelled from the spec: [SILBasicBlock(SILFunction *F)], declared in
    the header and defined in SILBasicBlock.cpp.  A block is created
    attached to its function, without predecessors, arguments or
    instructions. *)
Definition newBlock (F : FunId) (b : BlockId) (σ : Store) : M Store :=
  bl ← deref (Functions σ !! F);
  ret (set_Functions (<[F := bl ++ [b]]> (Functions σ))
        (set_Blocks (<[b := mkBB (Some F) None [] []]> (Blocks σ)) σ)).

(** Modelled from the spec: a new instruction of kind [k], not yet in a
    block. *)
Definition newInst (i : InstId) (k : InstKind) (σ : Store) : Store :=
  set_Insts (<[i := mkInst None k]> (Insts σ)) σ.

(** Modelled from the spec: [getInstList().insert(end(), I)] of the
    intrusive list.  The list takes the instruction and records the block as
    its parent. *)
Definition push_back_inst (b : BlockId) (i : InstId) (σ : Store) : M Store :=
  B ← deref (Blocks σ !! b);
  I ← deref (Insts σ !! i);
  ret (set_Insts (<[i := set_ParentBB (Some b) I]> (Insts σ))
        (set_Blocks
           (<[b := set_InstList (InstList B ++ [i]) B]> (Blocks σ)) σ)).

(** Modelled from the spec: [SILSuccessor(TermInst *CI, SILBasicBlock
    *Succ)].  The edge records its owner and is then assigned its target. *)
Definition newSuccessor (t : InstId) (e : SuccId) (BB : option BlockId)
    (σ : Store) : M Store :=
  setSuccessor e BB
    (set_Edges (<[e := mkSucc (Some t) None None None]> (Edges σ)) σ).

(** Modelled from the spec: the successor array of a terminator, built
    edge by edge. *)
Fixpoint newSuccessors (t : InstId) (ets : list (SuccId * option BlockId))
    (σ : Store) : M Store :=
  match ets with
  | [] => ret σ
  | (e, BB) :: ets' => σ1 ← newSuccessor t e BB σ; newSuccessors t ets' σ1
  end.

(** Modelled from the spec: a terminator with one successor edge per
    control-transfer target. *)
Definition TermInst_create (t : InstId) (ets : list (SuccId * option BlockId))
    (σ : Store) : M Store :=
  newSuccessors t ets (newInst t (TermInst ets.*1) σ).

(** Modelled from the spec: [BranchInst::create], an unconditional branch
    to [Dest]. *)
Definition BranchInst_create (t : InstId) (e : SuccId) (Dest : BlockId)
    (σ : Store) : M Store :=
  TermInst_create t [(e, Some Dest)] σ.

(** ** Destruction *)

(** Modelled from the spec: [~SILSuccessor()].  The edge clears its target,
    which unlinks it from the predecessor list it is in; its storage goes
    away with its terminator. *)
Definition deleteSuccessor (e : SuccId) (σ : Store) : M Store :=
  σ1 ← setSuccessor e None σ;
  ret (set_Edges (delete e (Edges σ1)) σ1).

(** Modelled from the spec: the destruction of a successor array. *)
Fixpoint deleteSuccessors (es : list SuccId) (σ : Store) : M Store :=
  match es with
  | [] => ret σ
  | e :: es' => σ1 ← deleteSuccessor e σ; deleteSuccessors es' σ1
  end.

(** Modelled from the spec: erasing an instruction.  It leaves the
    instruction list of its block and is destroyed, with the edges it
    owns. *)
Definition eraseInst (i : InstId) (σ : Store) : M Store :=
  I ← deref (Insts σ !! i);
  p ← deref (ParentBB I);
  B ← deref (Blocks σ !! p);
  σ2 ← deleteSuccessors (getSuccessors I)
         (set_Blocks
            (<[p := set_InstList (filter (λ x, x ≠ i) (InstList B)) B]>
               (Blocks σ)) σ);
  ret (set_Insts (delete i (Insts σ2)) σ2).

(** ** Splitting *)

(** Modelled from the spec: insertion of the block [new] right after the
    block [b] in a block sequence. *)
Definition insert_after (b new : BlockId) (l : list BlockId)
    : M (list BlockId) :=
  match list_find (λ x, x = b) l with
  | Some (k, _) => ret (take (S k) l ++ new :: drop (S k) l)
  | None => undefined
  end.

(** Modelled from the spec: the splice of instructions into the list of
    block [b] makes [b] their parent. *)
Definition set_parents (b : BlockId) (moved : list InstId)
    (m : gmap InstId SILInstruction) : gmap InstId SILInstruction :=
  foldr (λ i m, alter (set_ParentBB (Some b)) i m) m moved.

(** Modelled from the spec: [splitBasicBlock] is declared in the header and
    defined in SILBasicBlock.cpp, which is not part of the sources at hand.
    A new block is inserted right after this one in the function's block
    sequence and the instructions from position [pos] to the end are spliced
    into it.  A position is an offset into the instruction list; the length
    of the list is [end()]. *)
Definition splitBasicBlock (b : BlockId) (pos : nat) (new : BlockId)
    (σ : Store) : M (BlockId * Store) :=
  B ← deref (Blocks σ !! b);
  F ← deref (Parent B);
  bl ← deref (Functions σ !! F);
  bl' ← insert_after b new bl;
  if bool_decide (pos ≤ length (InstList B)) then
    let moved := drop pos (InstList B) in
    ret (new,
         set_Functions (<[F := bl']> (Functions σ))
           (set_Insts (set_parents new moved (Insts σ))
              (set_Blocks (<[new := mkBB (Some F) None [] moved]>
                             (<[b := set_InstList (take pos (InstList B)) B]>
                                (Blocks σ))) σ)))
  else undefined.

(** Modelled from the spec: [splitBasicBlockAndBranch] is declared in the
    header and defined in SILBasicBlock.cpp.  It splits, then appends an
    unconditional branch from this block to the new one.  The source
    location of the branch is not modelled. *)
Definition splitBasicBlockAndBranch (b : BlockId) (pos : nat)
    (new : BlockId) (t : InstId) (e : SuccId) (σ : Store)
    : M (BlockId * Store) :=
  r ← splitBasicBlock b pos new σ;
  σ2 ← BranchInst_create t e r.1 r.2;
  σ3 ← push_back_inst b t σ2;
  ret (r.1, σ3).

(** ** Mutations of a store *)

(** A method that updates the block it is called on. *)
Definition on_block (b : BlockId) (f : SILBasicBlock → M SILBasicBlock)
    (σ : Store) : M Store :=
  B ← deref (Blocks σ !! b);
  B' ← f B;
  ret (set_Blocks (<[b := B']> (Blocks σ)) σ).

Inductive Op :=
| OpNewFunction (F : FunId)
| OpNewBlock (F : FunId) (b : BlockId)
| OpNewInst (b : BlockId) (i : InstId)
| OpNewTerm (b : BlockId) (t : InstId) (ets : list (SuccId * option BlockId))
| OpSetSuccessor (e : SuccId) (BB : option BlockId)
| OpEraseInst (i : InstId)
| OpSplit (b : BlockId) (pos : nat) (new : BlockId)
| OpSplitAndBranch (b : BlockId) (pos : nat) (new : BlockId) (t : InstId) (e : SuccId)
| OpAddArgument (b : BlockId) (a : ArgId)
| OpEraseArgument (b : BlockId) (idx : Z)
| OpDropAllArgs (b : BlockId).

Definition run (op : Op) (σ : Store) : M Store :=
  match op with
  | OpNewFunction F => newFunction F σ
  | OpNewBlock F b => newBlock F b σ
  | OpNewInst b i => push_back_inst b i (newInst i Plain σ)
  | OpNewTerm b t ets => σ1 ← TermInst_create t ets σ; push_back_inst b t σ1
  | OpSetSuccessor e BB => setSuccessor e BB σ
  | OpEraseInst i => eraseInst i σ
  | OpSplit b pos new => r ← splitBasicBlock b pos new σ; ret r.2
  | OpSplitAndBranch b pos new t e =>
      r ← splitBasicBlockAndBranch b pos new t e σ; ret r.2
  | OpAddArgument b a => on_block b (λ B, addArgument B a) σ
  | OpEraseArgument b idx => on_block b (λ B, eraseArgument B idx) σ
  | OpDropAllArgs b => on_block b dropAllArgs σ
  end.

(** The addresses an operation allocates are unused, and distinct. *)
Definition fresh (op : Op) (σ : Store) : Prop :=
  match op with
  | OpNewFunction F => Functions σ !! F = None
  | OpNewBlock _ b => Blocks σ !! b = None
  | OpNewInst _ i => Insts σ !! i = None
  | OpNewTerm _ t ets =>
      Insts σ !! t = None ∧ NoDup ets.*1 ∧
      Forall (λ e, Edges σ !! e = None) ets.*1
  | OpSplit _ _ new => Blocks σ !! new = None
  | OpSplitAndBranch _ _ new t e =>
      Blocks σ !! new = None ∧ Insts σ !! t = None ∧ Edges σ !! e = None
  | _ => True
  end.

Global Instance fresh_dec op σ : Decision (fresh op σ).
Proof. destruct op; simpl; apply _. Defined.

Definition step (σ σ' : Store) : Prop :=
  ∃ op cfg, fresh op σ ∧ run op σ cfg = Ok σ'.

Definition empty_store : Store := mkStore ∅ ∅ ∅ ∅.

Inductive reachable : Store → Prop :=
| reachable_empty : reachable empty_store
| reachable_step σ σ' : reachable σ → step σ σ' → reachable σ'.

(** Running a sequence of operations of a debug build from a store: the
    final store, if every operation had unused addresses to allocate and
    returned. *)
Fixpoint exec (ops : list Op) (σ : Store) : option Store :=
  match ops with
  | [] => Some σ
  | op :: ops' =>
      if decide (fresh op σ) then
        match run op σ Debug with
        | Ok σ' => exec ops' σ'
        | _ => None
        end
      else None
  end.

(** ** Well-formed blocks *)

Definition is_terminator (σ : Store) (i : InstId) : Prop :=
  ∃ I, Insts σ !! i = Some I ∧ isa_TermInst I = true.

(** What [getTerminator] requires: the list is not empty and its last
    instruction is a terminator. *)
Definition has_terminator (σ : Store) (B : SILBasicBlock) : Prop :=
  ∃ t, last (InstList B) = Some t ∧ is_terminator σ t.

(** A well-formed block ends in exactly one terminator: the last instruction
    is a terminator and no other one is. *)
Definition well_formed (σ : Store) (B : SILBasicBlock) : Prop :=
  ∃ body t, InstList B = body ++ [t] ∧ is_terminator σ t ∧
    ∀ i, i ∈ body → ∃ I, Insts σ !! i = Some I ∧ isa_TermInst I = false.

(** The block has no terminator: the list is empty, or its last instruction
    is not a terminator. *)
Definition no_terminator (σ : Store) (B : SILBasicBlock) : Prop :=
  InstList B = [] ∨
  ∃ i I, last (InstList B) = Some i ∧ Insts σ !! i = Some I ∧
         isa_TermInst I = false.


(** ** Invariants of a store *)

(** The edges [l], in order, form the doubly-linked predecessor list of
    block [b] that starts in the pointer [cur], which is stored in [prev]. *)
Fixpoint is_chain (E : gmap SuccId SILSuccessor) (b : BlockId)
    (prev : SuccSlot) (cur : option SuccId) (l : list SuccId) : Prop :=
  match l with
  | [] => cur = None
  | e :: l' =>
      cur = Some e ∧
      ∃ s, E !! e = Some s ∧ SuccessorBlock s = Some b ∧
           Prev s = Some prev ∧ is_chain E b (NextOf e) (Next s) l'
  end.

(** The predecessor lists agree with the targets of the edges, except
    possibly for the edge [x], which is in no list: for every block, the list
    that starts in its head holds exactly the edges (other than [x]) whose
    target is the block.  [H] maps a block to its [PredList]. *)
Definition preds_ok_but (x : option SuccId) (E : gmap SuccId SILSuccessor)
    (H : gmap BlockId (option SuccId)) : Prop :=
  (∀ b hd, H !! b = Some hd →
     ∃ l, NoDup l ∧ is_chain E b (PredListOf b) hd l ∧
          (∀ e s, E !! e = Some s → SuccessorBlock s = Some b →
                  x ≠ Some e → e ∈ l) ∧
          (∀ e, x = Some e → e ∉ l)) ∧
  (∀ e s b, E !! e = Some s → SuccessorBlock s = Some b → is_Some (H !! b)).

Definition preds_ok (σ : Store) : Prop :=
  preds_ok_but None (Edges σ) (PredList <$> Blocks σ).

(** Ownership: an edge lives in the successor array of the terminator it
    names, an instruction lives in the instruction list of the block it
    names, a block lives in the block sequence of the function it names. *)
Definition owner_ok (σ : Store) : Prop :=
  (∀ e s, Edges σ !! e = Some s →
     ∃ t I, ContainingInst s = Some t ∧ Insts σ !! t = Some I ∧
            e ∈ getSuccessors I) ∧
  (∀ t I e, Insts σ !! t = Some I → e ∈ getSuccessors I →
     ∃ s, Edges σ !! e = Some s ∧ ContainingInst s = Some t) ∧
  (∀ i I, Insts σ !! i = Some I →
     ∃ p B, ParentBB I = Some p ∧ Blocks σ !! p = Some B ∧ i ∈ InstList B) ∧
  (∀ b B, Blocks σ !! b = Some B →
     ∃ F bl, Parent B = Some F ∧ Functions σ !! F = Some bl ∧ b ∈ bl).

Definition store_ok (σ : Store) : Prop := preds_ok σ ∧ owner_ok σ.

(** The part of a block that the edge registry never touches. *)
Definition block_frame (B : SILBasicBlock)
    : option FunId * list ArgId * list InstId :=
  (Parent B, BBArgList B, InstList B).

(** The effect of [unlink] on the edges and on the list heads, for the
    unlinked edge [s]. *)
Definition unlink_edges (s : SILSuccessor) (E : gmap SuccId SILSuccessor)
    : gmap SuccId SILSuccessor :=
  let E1 := match Prev s with
            | Some (NextOf p) => alter (set_Next (Next s)) p E
            | _ => E
            end in
  match Next s with
  | Some n => alter (set_Prev (Prev s)) n E1
  | None => E1
  end.

Definition unlink_heads (s : SILSuccessor) (H : gmap BlockId (option SuccId))
    : gmap BlockId (option SuccId) :=
  match Prev s with
  | Some (PredListOf b) => <[b := Next s]> H
  | _ => H
  end.

(** The effect of [link] on the edges, for the edge [e] with fields [s]
    linked in front of the list that starts in [hd]. *)
Definition link_edges (e : SuccId) (s : SILSuccessor) (b : BlockId)
    (hd : option SuccId) (E : gmap SuccId SILSuccessor)
    : gmap SuccId SILSuccessor :=
  let E1 := <[e := set_Next hd (set_Prev (Some (PredListOf b)) s)]> E in
  match hd with
  | Some n => alter (set_Prev (Some (NextOf e))) n E1
  | None => E1
  end.

(** The predecessor list [l] of block [b] after the edges [ets] of a new
    terminator were created, in order: each edge that targets [b] was put in
    front. *)
Definition new_preds (b : BlockId) (ets : list (SuccId * option BlockId))
    (l : list SuccId) : list SuccId :=
  foldl (λ acc eb, (if decide (eb.2 = Some b) then [eb.1] else []) ++ acc)
    l ets.

Global Arguments unlink_edges : simpl never.
Global Arguments unlink_heads : simpl never.
Global Arguments link_edges : simpl never.

(** Two stores that differ only in the links of the predecessor lists and
    in the targets of the edges. *)
Definition same_frame (σ σ' : Store) : Prop :=
  Functions σ' = Functions σ ∧ Insts σ' = Insts σ ∧
  block_frame <$> Blocks σ' = block_frame <$> Blocks σ ∧
  ContainingInst <$> Edges σ' = ContainingInst <$> Edges σ.

(** The predecessor edges of the block at address [b]. *)
Definition preds_of (σ : Store) (b : BlockId) (l : list SuccId) : Prop :=
  ∃ B, Blocks σ !! b = Some B ∧ pred_edges σ B = Some l.

(** The operations that manage the arguments of a block, and the block
    they are called on. *)
Definition arg_op_block (op : Op) : option BlockId :=
  match op with
  | OpAddArgument b _ | OpEraseArgument b _ | OpDropAllArgs b => Some b
  | _ => None
  end.

(** ** A sample store *)

(** One function with two blocks: block 0 holds two plain instructions and
    a branch to block 1; block 1 has two arguments and holds a terminator
    without successor. *)
Definition sample_ops : list Op :=
  [ OpNewFunction 0; OpNewBlock 0 0; OpNewBlock 0 1;
    OpNewInst 0 0; OpNewInst 0 1; OpNewTerm 0 2 [(0, Some 1)];
    OpAddArgument 1 7; OpAddArgument 1 8; OpNewTerm 1 3 [] ].

Definition sample_store : Store :=
  default empty_store (exec sample_ops empty_store).

Definition sample_B0 : SILBasicBlock := mkBB (Some 0) None [] [0; 1; 2].
Definition sample_B1 : SILBasicBlock := mkBB (Some 0) (Some 0) [7; 8] [3].

(** The same store after one more argument was added to block 1. *)
Definition sample_store_arg : Store :=
  default empty_store (exec (sample_ops ++ [OpAddArgument 1 9]) empty_store).

(** ** More invariants of a store *)

(** The instruction lists agree with the parents of the instructions: an
    instruction in the list of a block is live and names the block as its
    parent, and no instruction is in a list twice. *)
Definition lists_ok (σ : Store) : Prop :=
  ∀ b B, Blocks σ !! b = Some B →
    NoDup (InstList B) ∧
    ∀ i, i ∈ InstList B → ∃ I, Insts σ !! i = Some I ∧ ParentBB I = Some b.

(** A block is in the sequence of one function only, the one it names, and
    once. *)
Definition funs_ok (σ : Store) : Prop :=
  ∀ F bl, Functions σ !! F = Some bl →
    NoDup bl ∧ ∀ b, b ∈ bl → ∃ B, Blocks σ !! b = Some B ∧ Parent B = Some F.

(** ** Build configurations *)

(** The assertions of a computation guard exactly its undefined behaviour:
    the release build returns what the debug build returns, never stops on an
    assertion, and is undefined where the debug build stops on one. *)
Definition guarded {A} (m : M A) : Prop :=
  (∀ a, m Debug = Ok a ↔ m Release = Ok a) ∧
  (m Debug = AssertionFailure → m Release = Undefined) ∧
  m Release ≠ AssertionFailure.

(** ** A second sample store *)

(** One function with two blocks: block 0 ends in a terminator whose two
    successor edges both target block 1. *)
Definition twin_ops : list Op :=
  [ OpNewFunction 0; OpNewBlock 0 0; OpNewBlock 0 1;
    OpNewTerm 0 0 [(0, Some 1); (1, Some 1)]; OpNewTerm 1 1 [] ].

Definition twin_store : Store :=
  default empty_store (exec twin_ops empty_store).

Definition twin_B1 : SILBasicBlock := mkBB (Some 0) (Some 1) [] [1].
(** * Reasoning about outcomes *)

Lemma bind_eq {A B} (m : M A) (k : A → M B) cfg :
  (m ≫= k) cfg =
  match m cfg with
  | Ok a => k a cfg
  | AssertionFailure => AssertionFailure
  | Undefined => Undefined
  end.
Proof. reflexivity. Qed.

Lemma bind_Ok {A B} (m : M A) (k : A → M B) cfg a :
  m cfg = Ok a → (m ≫= k) cfg = k a cfg.
Proof. intros H. by rewrite bind_eq, H. Qed.

Lemma bind_Ok_inv {A B} (m : M A) (k : A → M B) cfg b :
  (m ≫= k) cfg = Ok b → ∃ a, m cfg = Ok a ∧ k a cfg = Ok b.
Proof. rewrite bind_eq. destruct (m cfg); naive_solver. Qed.

Lemma deref_Some {A} (o : option A) a cfg : o = Some a → deref o cfg = Ok a.
Proof. by intros ->. Qed.

Lemma deref_Ok_inv {A} (o : option A) a cfg : deref o cfg = Ok a → o = Some a.
Proof. destruct o; unfold deref, ret, undefined; naive_solver. Qed.

Lemma ret_Ok_inv {A} (a a' : A) cfg : ret a cfg = Ok a' → a = a'.
Proof. unfold ret. congruence. Qed.

Lemma assert_true cfg : assert true cfg = Ok ().
Proof. reflexivity. Qed.

(** Break a successful run into the successful runs of its parts. *)
Ltac inv_Ok :=
  repeat match goal with
  | H : (_ ≫= _) _ = Ok _ |- _ =>
      apply bind_Ok_inv in H; destruct H as (? & ? & H)
  | H : deref _ _ = Ok _ |- _ => apply deref_Ok_inv in H
  | H : ret _ _ = Ok _ |- _ => apply ret_Ok_inv in H
  | H : mret _ _ = Ok _ |- _ => apply ret_Ok_inv in H
  | H : undefined _ = Ok _ |- _ => discriminate H
  | H : Undefined = Ok _ |- _ => discriminate H
  | H : AssertionFailure = Ok _ |- _ => discriminate H
  | H : Ok _ = Ok _ |- _ => simplify_eq
  end.

(** * The terminator *)

Lemma empty_false_last B i : last (InstList B) = Some i → empty B = false.
Proof. unfold empty. by destruct (InstList B). Qed.

Lemma getTerminator_Ok σ B cfg t :
  last (InstList B) = Some t → is_terminator σ t →
  getTerminator σ B cfg = Ok t.
Proof.
  intros Hl (I & HI & Hk). unfold getTerminator.
  rewrite (empty_false_last _ _ Hl). simpl negb.
  rewrite (bind_Ok _ _ _ _ (assert_true cfg)).
  unfold back. rewrite (bind_Ok _ _ _ _ (deref_Some _ _ cfg Hl)).
  unfold cast_TermInst.
  rewrite (bind_Ok _ _ _ _ (deref_Some _ _ cfg HI)), Hk.
  by rewrite (bind_Ok _ _ _ _ (assert_true cfg)).
Qed.

Lemma getTerminator_Ok_inv σ B cfg t :
  getTerminator σ B cfg = Ok t →
  last (InstList B) = Some t ∧ is_terminator σ t.
Proof.
  unfold getTerminator, back, cast_TermInst. intros H. inv_Ok.
  destruct (isa_TermInst x1) eqn:Hk; inv_Ok. subst.
  split; [done|]. by exists x1.
Qed.

Lemma has_terminator_not_no σ B : has_terminator σ B → ¬ no_terminator σ B.
Proof.
  intros (t & Hl & I & HI & Hk) [Hnil | (i & I' & Hl' & HI' & Hk')].
  - by rewrite Hnil in Hl.
  - congruence.
Qed.

Lemma well_formed_has_terminator σ B : well_formed σ B → has_terminator σ B.
Proof.
  intros (body & t & Hl & Ht & _). exists t. split; [|done].
  rewrite Hl. apply last_snoc.
Qed.

Lemma getTerminator_no_terminator σ B cfg :
  no_terminator σ B →
  getTerminator σ B Debug = AssertionFailure ∧ fails (getTerminator σ B cfg).
Proof.
  intros Hno. split.
  - destruct Hno as [Hnil | (i & I & Hl & HI & Hk)].
    + unfold getTerminator, empty. by rewrite Hnil.
    + unfold getTerminator. rewrite (empty_false_last _ _ Hl). simpl negb.
      rewrite (bind_Ok _ _ _ _ (assert_true Debug)). unfold back.
      rewrite (bind_Ok _ _ _ _ (deref_Some _ _ Debug Hl)).
      unfold cast_TermInst.
      rewrite (bind_Ok _ _ _ _ (deref_Some _ _ Debug HI)), Hk.
      reflexivity.
  - intros t Ht. apply getTerminator_Ok_inv in Ht as [Hl Ht].
    apply (has_terminator_not_no σ B); [by exists t | done].
Qed.

(** C5. On a block whose instruction list is not empty and ends in a
    terminator, [getTerminator] returns exactly the last instruction, in
    every build configuration.  On an empty block, or one whose last
    instruction is not a terminator, it stops on an assertion in a debug
    build and returns no value in any build. *)
Theorem getTerminator_contract σ B cfg :
  (∀ t, last (InstList B) = Some t → is_terminator σ t →
        getTerminator σ B cfg = Ok t) ∧
  (no_terminator σ B →
     getTerminator σ B Debug = AssertionFailure ∧
     fails (getTerminator σ B cfg)).
Proof.
  split.
  - intros t. apply getTerminator_Ok.
  - apply getTerminator_no_terminator.
Qed.

(** * Successors *)

Lemma getSuccs_Ok σ B cfg t I :
  last (InstList B) = Some t → Insts σ !! t = Some I → isa_TermInst I = true →
  getSuccs σ B cfg = Ok (getSuccessors I).
Proof.
  intros Hl HI Hk. unfold getSuccs.
  rewrite (bind_Ok _ _ _ t); [|apply getTerminator_Ok; [done | by exists I]].
  by rewrite (bind_Ok _ _ _ _ (deref_Some _ _ cfg HI)).
Qed.

Lemma getSuccs_Ok_inv σ B cfg ss :
  getSuccs σ B cfg = Ok ss →
  ∃ t I, last (InstList B) = Some t ∧ Insts σ !! t = Some I ∧
         isa_TermInst I = true ∧ ss = getSuccessors I.
Proof.
  unfold getSuccs. intros H. inv_Ok.
  match goal with H : getTerminator _ _ _ = Ok ?t |- _ =>
    apply getTerminator_Ok_inv in H as [Hl (I & HI & Hk)]; exists t, I end.
  naive_solver.
Qed.

(** C7. On a block that ends in a terminator (every well-formed block
    does), [getSuccs] returns exactly the successor edges of the last
    instruction, and [succ_empty] answers true exactly when that terminator
    has no control-transfer target. *)
Theorem getSuccs_terminator_edges σ B cfg t I :
  last (InstList B) = Some t → Insts σ !! t = Some I → isa_TermInst I = true →
  getSuccs σ B cfg = Ok (getSuccessors I) ∧
  ∃ r, succ_empty σ B cfg = Ok r ∧ (r = true ↔ getSuccessors I = []).
Proof.
  intros Hl HI Hk.
  pose proof (getSuccs_Ok σ B cfg t I Hl HI Hk) as HS.
  split; [done|]. unfold succ_empty. rewrite (bind_Ok _ _ _ _ HS).
  eexists. split; [reflexivity|]. by destruct (getSuccessors I).
Qed.

(** * Block arguments *)

Lemma eraseArgument_Ok B idx cfg :
  (0 ≤ idx < Z.of_nat (length (BBArgList B)))%Z →
  eraseArgument B idx cfg =
    Ok (set_BBArgList (delete (Z.to_nat idx) (BBArgList B)) B).
Proof. intros H. unfold eraseArgument. by rewrite bool_decide_eq_true_2. Qed.

Lemma eraseArgument_Undefined B idx cfg :
  ¬ (0 ≤ idx < Z.of_nat (length (BBArgList B)))%Z →
  eraseArgument B idx cfg = Undefined.
Proof. intros H. unfold eraseArgument. by rewrite bool_decide_eq_false_2. Qed.

(** C6. Erasing the argument at an index [i] within the argument list
    leaves the arguments before [i] followed by the arguments after [i]:
    an argument before [i] keeps its index, an argument after [i] moves to
    its old index minus one, and there is one argument less. *)
Theorem eraseArgument_shifts B (i : nat) cfg :
  i < length (BBArgList B) →
  ∃ B', eraseArgument B (Z.of_nat i) cfg = Ok B' ∧
        BBArgList B' = take i (BBArgList B) ++ drop (S i) (BBArgList B) ∧
        S (length (BBArgList B')) = length (BBArgList B) ∧
        (∀ j, j < i → BBArgList B' !! j = BBArgList B !! j) ∧
        (∀ j, i < j → BBArgList B' !! (j - 1) = BBArgList B !! j).
Proof.
  intros Hi. eexists. split; [apply eraseArgument_Ok; lia|].
  rewrite Nat2Z.id. simpl. split_and!.
  - apply delete_take_drop.
  - rewrite length_delete; [lia|]. by apply lookup_lt_is_Some_2.
  - intros j Hj. by apply list_lookup_delete_lt.
  - intros j Hj. rewrite list_lookup_delete_ge by lia. f_equal. lia.
Qed.

(** C8, as the code has it.  Neither [getBBArg] nor [eraseArgument] checks
    its index.  With an index below [getNumBBArg] both return normally;
    with an index that is not a position of the argument list the behaviour
    is undefined in every build configuration. *)
Theorem bbarg_index_contract B cfg :
  (∀ i : N, (i < getNumBBArg B)%N →
     ∃ a, getBBArg B i cfg = Ok a ∧ BBArgList B !! N.to_nat i = Some a) ∧
  (∀ idx : Z, (0 ≤ idx < Z.of_N (getNumBBArg B))%Z →
     succeeds (eraseArgument B idx cfg)) ∧
  (∀ i : N, (N.of_nat (bbarg_size B) ≤ i)%N → getBBArg B i cfg = Undefined) ∧
  (∀ idx : Z, ¬ (0 ≤ idx < Z.of_nat (bbarg_size B))%Z →
     eraseArgument B idx cfg = Undefined).
Proof.
  assert (getNumBBArg B ≤ N.of_nat (length (BBArgList B)))%N as Hle.
  { unfold getNumBBArg. apply N.Div0.mod_le. }
  split_and!.
  - intros i Hi. unfold getBBArg.
    destruct (lookup_lt_is_Some_2 (BBArgList B) (N.to_nat i)) as [a Ha]; [lia|].
    exists a. by rewrite Ha.
  - intros idx Hidx. eexists. apply eraseArgument_Ok. lia.
  - intros i Hi. unfold getBBArg, bbarg_size in *.
    rewrite lookup_ge_None_2; [done | lia].
  - intros idx Hidx. by apply eraseArgument_Undefined.
Qed.

(** C8, counterexample.  On a block without arguments, index 0 is out of
    range, yet in a debug build neither call stops on an assertion: both are
    undefined. *)
Lemma bbarg_index_unchecked :
  let B := mkBB None None [] [] in
  (getNumBBArg B ≤ 0)%N ∧
  getBBArg B 0 Debug = Undefined ∧ getBBArg B 0 Debug ≠ AssertionFailure ∧
  eraseArgument B 0 Debug = Undefined ∧
  eraseArgument B 0 Debug ≠ AssertionFailure.
Proof. by split_and!. Qed.

(** * The predecessor lists *)

Section chains.
Implicit Types (E : gmap SuccId SILSuccessor) (l : list SuccId).

Lemma is_chain_frame E E' b prev cur l :
  (∀ x, x ∈ l → E' !! x = E !! x) →
  is_chain E b prev cur l → is_chain E' b prev cur l.
Proof.
  revert prev cur. induction l as [|e l IH]; intros prev cur Hfr; [done|].
  simpl. intros (-> & s & Hs & Hb & Hp & Hc). split; [done|].
  exists s. rewrite Hfr by apply list_elem_of_here. split_and!; try done.
  apply IH; [|done]. intros x Hx. apply Hfr. by apply list_elem_of_further.
Qed.

Lemma is_chain_live E b prev cur l x :
  is_chain E b prev cur l → x ∈ l →
  ∃ s, E !! x = Some s ∧ SuccessorBlock s = Some b.
Proof.
  revert prev cur. induction l as [|e l IH]; intros prev cur.
  - by intros _ ?%elem_of_nil.
  - simpl. intros (-> & s & Hs & Hb & Hp & Hc) [->|Hx]%elem_of_cons.
    + by exists s.
    + by eapply IH.
Qed.

Lemma is_chain_head E b prev cur l :
  is_chain E b prev cur l → cur = head l.
Proof. destruct l; simpl; [done | by intros [-> _]]. Qed.

(** Two lists that start in the same pointer are the same list. *)
Lemma is_chain_inj E b prev cur l l' :
  is_chain E b prev cur l → is_chain E b prev cur l' → l = l'.
Proof.
  revert prev cur l'. induction l as [|e l IH]; intros prev cur [|e' l']; simpl.
  - done.
  - by intros -> [? _].
  - by intros [-> _] ?.
  - intros (-> & s & Hs & _ & _ & Hc) (? & s' & Hs' & _ & _ & Hc').
    simplify_eq. f_equal. by eapply IH.
Qed.

(** The traversal visits the list, given at least as much fuel as there
    are edges in it. *)
Lemma pred_walk_chain E b prev cur l fuel :
  is_chain E b prev cur l → length l ≤ fuel →
  pred_walk fuel E cur = Some l.
Proof.
  revert prev cur fuel. induction l as [|e l IH]; intros prev cur fuel; simpl.
  - intros -> _. by destruct fuel.
  - intros (-> & s & Hs & _ & _ & Hc) Hlen.
    destruct fuel as [|fuel]; [lia|]. simpl. rewrite Hs. simpl.
    rewrite (IH _ _ fuel Hc) by lia. done.
Qed.

Lemma NoDup_live_length E l :
  NoDup l → (∀ x, x ∈ l → is_Some (E !! x)) → length l ≤ size E.
Proof.
  intros Hnd Hl. rewrite <- size_dom.
  rewrite <- (size_list_to_set (C:=gset nat) l Hnd).
  apply subseteq_size. intros x Hx. apply elem_of_dom, Hl.
  by apply elem_of_list_to_set in Hx.
Qed.

Lemma pred_walk_chain_size E b prev cur l :
  NoDup l → is_chain E b prev cur l →
  pred_walk (size E) E cur = Some l.
Proof.
  intros Hnd Hc. eapply pred_walk_chain; [done|].
  apply NoDup_live_length; [done|]. intros x Hx.
  destruct (is_chain_live _ _ _ _ _ _ Hc Hx) as (s & Hs & _). by exists s.
Qed.

(** The fields of an edge in the middle of a list. *)
Lemma is_chain_mid E b prev cur l1 e l2 :
  is_chain E b prev cur (l1 ++ e :: l2) →
  ∃ s, E !! e = Some s ∧ SuccessorBlock s = Some b ∧
       Prev s = Some (from_option NextOf prev (last l1)) ∧
       Next s = head l2 ∧ is_chain E b (NextOf e) (Next s) l2.
Proof.
  revert prev cur. induction l1 as [|a l1 IH]; intros prev cur; simpl.
  - intros (-> & s & Hs & Hb & Hp & Hc). exists s. split_and!; try done.
    by eapply is_chain_head.
  - intros (-> & sa & Hsa & Hba & Hpa & Hc).
    destruct (IH _ _ Hc) as (s & Hs & Hb & Hp & Hn & Hc').
    exists s. split_and!; try done. rewrite Hp.
    destruct l1 as [|a2 l1]; [done|]. rewrite last_cons_cons.
    destruct (last (a2 :: l1)) eqn:Hl; [done|]. by apply last_None in Hl.
Qed.

(** *** Unlinking *)

Lemma unlink_edges_lookup s E x :
  unlink_edges s E !! x =
    (if decide (Next s = Some x) then set_Prev (Prev s) else id) <$>
    ((if decide (Prev s = Some (NextOf x)) then set_Next (Next s) else id)
       <$> E !! x).
Proof.
  unfold unlink_edges.
  assert (∀ E1, (match Next s with
                 | Some n => alter (set_Prev (Prev s)) n E1
                 | None => E1 end) !! x =
                (if decide (Next s = Some x) then set_Prev (Prev s) else id)
                  <$> E1 !! x) as ->.
  { intros E1. destruct (Next s) as [n|].
    - rewrite lookup_alter. repeat case_decide; simplify_eq; try done.
      by rewrite option_fmap_id.
    - case_decide; [done|]. by rewrite option_fmap_id. }
  f_equal. destruct (Prev s) as [[b0|p]|].
  - case_decide; [done|]. by rewrite option_fmap_id.
  - rewrite lookup_alter. repeat case_decide; simplify_eq; try done.
    by rewrite option_fmap_id.
  - case_decide; [done|]. by rewrite option_fmap_id.
Qed.

Lemma unlink_edges_other s E x :
  Prev s ≠ Some (NextOf x) → Next s ≠ Some x →
  unlink_edges s E !! x = E !! x.
Proof.
  intros. rewrite unlink_edges_lookup. repeat case_decide; try done.
  by rewrite !option_fmap_id.
Qed.

Lemma unlink_edges_target s E x sx :
  unlink_edges s E !! x = Some sx →
  ∃ sx', E !! x = Some sx' ∧ SuccessorBlock sx' = SuccessorBlock sx ∧
         ContainingInst sx' = ContainingInst sx.
Proof.
  rewrite unlink_edges_lookup. destruct (E !! x) as [sx'|]; [|done].
  simpl. intros [= <-]. exists sx'. by repeat case_decide.
Qed.

(** Unlinking [e] from the list [l1 ++ e :: l2] leaves the list
    [l1 ++ l2]. *)
Lemma is_chain_unlink E b s e l2 l1 prev cur :
  E !! e = Some s →
  is_chain E b prev cur (l1 ++ e :: l2) →
  NoDup (l1 ++ e :: l2) →
  (∀ p, prev = NextOf p → p ∉ l1 ++ e :: l2) →
  is_chain (unlink_edges s E) b prev
    (match l1 with [] => Next s | _ => cur end) (l1 ++ l2).
Proof.
  intros Hs. revert prev cur.
  induction l1 as [|a l1 IH]; intros prev cur Hc Hnd Hprev.
  - simpl in *. destruct Hc as (-> & s' & Hs' & Hb & Hp & Hc).
    simplify_eq. apply NoDup_cons in Hnd as [He Hnd].
    destruct l2 as [|n l2]; [done|].
    simpl in Hc. destruct Hc as (Hn & sn & Hsn & Hbn & Hpn & Hc).
    apply NoDup_cons in Hnd as [Hn2 Hnd].
    simpl. split; [done|]. exists (set_Prev (Some prev) sn).
    split_and!; try done.
    + rewrite unlink_edges_lookup, Hsn. simpl.
      rewrite decide_True by done.
      rewrite decide_False; [by rewrite Hp|].
      rewrite Hp. intros [= ->]. eapply Hprev; [done|]. set_solver.
    + simpl. eapply is_chain_frame; [|done]. intros x Hx.
      apply unlink_edges_other.
      * rewrite Hp. intros [= ->]. eapply Hprev; [done|]. set_solver.
      * rewrite Hn. intros [= ->]. done.
  - simpl in Hc. destruct Hc as (-> & sa & Hsa & Hba & Hpa & Hc).
    simpl in Hnd. apply NoDup_cons in Hnd as [Ha Hnd].
    destruct (is_chain_mid _ _ _ _ _ _ _ Hc) as (s' & Hs' & Hb & Hp & Hn & _).
    simplify_eq.
    assert (Next s ≠ Some a) as Hna.
    { rewrite Hn. intros Hh. apply Ha. apply head_Some_elem_of in Hh.
      set_solver. }
    specialize (IH (NextOf a) (Next sa) Hc Hnd).
    simpl. split; [done|].
    destruct l1 as [|a2 l1].
    + simpl in *. exists (set_Next (Next s) sa). split_and!; try done.
      * rewrite unlink_edges_lookup, Hsa. simpl.
        by rewrite decide_False, decide_True by done.
      * simpl. apply IH. intros p [= ->]. done.
    + exists sa. split_and!; try done.
      * rewrite unlink_edges_other; try done.
        rewrite Hp.
        destruct (last (a2 :: l1)) as [p|] eqn:Hl;
          [|by apply last_None in Hl].
        simpl. intros [= ->]. apply Ha. apply last_Some_elem_of in Hl.
        apply elem_of_app. by left.
      * apply IH. intros p [= ->]. done.
Qed.

Lemma filter_ne_absent (l : list nat) e :
  e ∉ l → filter (λ x, x ≠ e) l = l.
Proof.
  induction l as [|a l IH]; [done|].
  intros [Hne Hl]%not_elem_of_cons.
  rewrite filter_cons_True by done. f_equal. by apply IH.
Qed.

Lemma filter_ne_middle (l1 l2 : list nat) e :
  NoDup (l1 ++ e :: l2) → filter (λ x, x ≠ e) (l1 ++ e :: l2) = l1 ++ l2.
Proof.
  intros Hnd. apply NoDup_app in Hnd as (_ & H1 & [H2 _]%NoDup_cons).
  rewrite filter_app, filter_cons_False by (intros Hne; by apply Hne).
  rewrite !filter_ne_absent; [done..|].
  intros He. apply (H1 e He), list_elem_of_here.
Qed.

(** *** Linking *)

Lemma link_edges_lookup e s b hd E x :
  link_edges e s b hd E !! x =
    (if decide (hd = Some x) then set_Prev (Some (NextOf e)) else id) <$>
    (<[e := set_Next hd (set_Prev (Some (PredListOf b)) s)]> E !! x).
Proof.
  unfold link_edges. destruct hd as [n|].
  - rewrite lookup_alter. repeat case_decide; simplify_eq; try done.
    by rewrite option_fmap_id.
  - case_decide; [done|]. by rewrite option_fmap_id.
Qed.

Lemma link_edges_other e s b hd E x :
  x ≠ e → hd ≠ Some x → link_edges e s b hd E !! x = E !! x.
Proof.
  intros. rewrite link_edges_lookup, lookup_insert_ne by done.
  case_decide; [done|]. by rewrite option_fmap_id.
Qed.

Lemma link_edges_self e s b hd E :
  hd ≠ Some e →
  link_edges e s b hd E !! e =
    Some (set_Next hd (set_Prev (Some (PredListOf b)) s)).
Proof.
  intros. rewrite link_edges_lookup, lookup_insert_eq.
  by rewrite decide_False.
Qed.

(** Linking [e] in front of the list [l] gives the list [e :: l], once
    the target of [e] is set. *)
Lemma is_chain_link E b s e hd l s' :
  is_chain E b (PredListOf b) hd l → NoDup l → e ∉ l →
  Prev s' = Some (PredListOf b) → Next s' = hd →
  SuccessorBlock s' = Some b →
  is_chain (<[e := s']> (link_edges e s b hd E)) b (PredListOf b)
    (Some e) (e :: l).
Proof.
  intros Hc Hnd He Hp Hn Hb. simpl. split; [done|]. exists s'.
  rewrite lookup_insert_eq. split_and!; try done. rewrite Hn.
  destruct l as [|n l]; [done|].
  simpl in Hc. destruct Hc as (-> & sn & Hsn & Hbn & Hpn & Hc).
  apply not_elem_of_cons in He as [Hne He].
  apply NoDup_cons in Hnd as [Hnl Hnd].
  simpl. split; [done|]. exists (set_Prev (Some (NextOf e)) sn).
  split_and!; try done.
  - rewrite lookup_insert_ne by done.
    rewrite link_edges_lookup, lookup_insert_ne, Hsn by done.
    simpl. by rewrite decide_True.
  - simpl. eapply is_chain_frame; [|done]. intros x Hx.
    rewrite lookup_insert_ne by (intros ->; done).
    apply link_edges_other; [by intros ->|]. intros [= ->]. done.
Qed.
End chains.

(** ** Preservation of the list invariant *)

Section preds.
Implicit Types (E : gmap SuccId SILSuccessor)
  (H : gmap BlockId (option SuccId)) (l : list SuccId).

Lemma preds_ok_chain x E H b hd l :
  preds_ok_but x E H → H !! b = Some hd →
  is_chain E b (PredListOf b) hd l →
  NoDup l ∧
  (∀ e s, E !! e = Some s → SuccessorBlock s = Some b → x ≠ Some e → e ∈ l) ∧
  (∀ e, x = Some e → e ∉ l).
Proof.
  intros [Hok _] Hb Hc. destruct (Hok b hd Hb) as (l0 & Hnd & Hc0 & Hco & Hx).
  by rewrite (is_chain_inj _ _ _ _ _ _ Hc Hc0).
Qed.

(** Where an edge with a target sits in the list of its target. *)
Lemma preds_ok_position E H e s b :
  preds_ok_but None E H → E !! e = Some s → SuccessorBlock s = Some b →
  ∃ hd l1 l2,
    H !! b = Some hd ∧ NoDup (l1 ++ e :: l2) ∧
    is_chain E b (PredListOf b) hd (l1 ++ e :: l2) ∧
    Prev s = Some (from_option NextOf (PredListOf b) (last l1)) ∧
    Next s = head l2.
Proof.
  intros Hok Hs Hb. destruct (proj2 Hok e s b Hs Hb) as [hd Hhd].
  destruct (proj1 Hok b hd Hhd) as (l & Hnd & Hc & Hco & _).
  destruct (list_elem_of_split l e) as (l1 & l2 & ->); [by eapply Hco|].
  exists hd, l1, l2. split_and!; try done.
  - destruct (is_chain_mid _ _ _ _ _ _ _ Hc) as (s' & ? & _ & ? & _).
    by simplify_eq.
  - destruct (is_chain_mid _ _ _ _ _ _ _ Hc) as (s' & ? & _ & _ & ? & _).
    by simplify_eq.
Qed.

Lemma unlink_heads_dom s H :
  (∀ b, Prev s = Some (PredListOf b) → is_Some (H !! b)) →
  ∀ b', is_Some (unlink_heads s H !! b') ↔ is_Some (H !! b').
Proof.
  intros Hlive b'. unfold unlink_heads.
  destruct (Prev s) as [[b0|p]|]; try done.
  destruct (decide (b0 = b')) as [->|].
  - rewrite lookup_insert_eq. split; [intros _; by apply Hlive | by eauto].
  - by rewrite lookup_insert_ne.
Qed.

(** After [unlink], every list is the list it was without [e]. *)
Lemma unlink_chains E H e s b b' hd l :
  preds_ok_but None E H → E !! e = Some s → SuccessorBlock s = Some b →
  H !! b' = Some hd → is_chain E b' (PredListOf b') hd l →
  ∃ hd', unlink_heads s H !! b' = Some hd' ∧
         is_chain (unlink_edges s E) b' (PredListOf b') hd'
           (filter (λ x, x ≠ e) l).
Proof.
  intros Hok Hs Hb Hhd Hc.
  destruct (preds_ok_position _ _ _ _ _ Hok Hs Hb)
    as (hdb & l1 & l2 & Hhdb & Hnd & Hcb & Hp & Hn).
  destruct (decide (b' = b)) as [->|Hne].
  - simplify_eq. rewrite (is_chain_inj _ _ _ _ _ _ Hc Hcb).
    rewrite filter_ne_middle by done.
    exists (match l1 with [] => Next s | _ => hd end). split.
    + unfold unlink_heads. rewrite Hp. destruct l1 as [|a l1]; simpl.
      * by rewrite lookup_insert_eq.
      * destruct (last (a :: l1)) eqn:Hl; [done|]. by apply last_None in Hl.
    + by apply (is_chain_unlink _ _ _ e).
  - assert (∀ x, x ∈ l → x ∉ l1 ++ e :: l2) as Hdisj.
    { intros x Hx Hx'.
      destruct (is_chain_live _ _ _ _ _ _ Hc Hx) as (sx & Hsx & Hbx).
      destruct (is_chain_live _ _ _ _ _ _ Hcb Hx') as (sx' & Hsx' & Hbx').
      congruence. }
    exists hd. split.
    + unfold unlink_heads. rewrite Hp.
      destruct (last l1); simpl; [done|]. by rewrite lookup_insert_ne.
    + rewrite filter_ne_absent.
      2:{ intros He. apply (Hdisj e He). set_solver. }
      eapply is_chain_frame; [|done]. intros x Hx.
      apply unlink_edges_other.
      * rewrite Hp. destruct (last l1) as [p|] eqn:Hl; simpl; [|done].
        intros [= ->]. apply (Hdisj x Hx). apply last_Some_elem_of in Hl.
        set_solver.
      * rewrite Hn. intros Hh%head_Some_elem_of. apply (Hdisj x Hx).
        set_solver.
Qed.

Lemma unlink_preds_ok E H e s b :
  preds_ok_but None E H → E !! e = Some s → SuccessorBlock s = Some b →
  preds_ok_but (Some e) (unlink_edges s E) (unlink_heads s H).
Proof.
  intros Hok Hs Hb.
  destruct (preds_ok_position _ _ _ _ _ Hok Hs Hb)
    as (hdb & l1 & l2 & Hhdb & _ & _ & Hp & _).
  assert (∀ b', is_Some (unlink_heads s H !! b') ↔ is_Some (H !! b')) as Hdom.
  { apply unlink_heads_dom. intros b0. rewrite Hp.
    destruct (last l1); simpl; [done|]. intros [= <-]. by eauto. }
  split.
  - intros b' hd' Hhd'.
    destruct (proj1 (Hdom b')) as [hd Hhd]; [by eauto|].
    destruct (proj1 Hok b' hd Hhd) as (l & Hnd & Hc & Hco & _).
    destruct (unlink_chains _ _ _ _ _ _ _ _ Hok Hs Hb Hhd Hc)
      as (hd'' & Hhd'' & Hc'). simplify_eq.
    exists (filter (λ x, x ≠ e) l). split_and!; try done.
    + by apply NoDup_filter.
    + intros x sx Hsx Hbx Hx. apply list_elem_of_filter.
      split; [congruence|].
      destruct (unlink_edges_target _ _ _ _ Hsx) as (sx' & Hsx' & Hbx' & _).
      eapply Hco; [done | congruence | done].
    + intros x [= <-] [Hx _]%list_elem_of_filter. done.
  - intros x sx b' Hsx Hbx.
    destruct (unlink_edges_target _ _ _ _ Hsx) as (sx' & Hsx' & Hbx' & _).
    apply Hdom. eapply (proj2 Hok); [done | congruence].
Qed.

(** An edge without target is in no list. *)
Lemma untargeted_preds_ok E H e s :
  preds_ok_but None E H → E !! e = Some s → SuccessorBlock s = None →
  preds_ok_but (Some e) E H.
Proof.
  intros [Hok Hlive] Hs Hb. split; [|done].
  intros b hd Hhd. destruct (Hok b hd Hhd) as (l & Hnd & Hc & Hco & _).
  exists l. split_and!; try done.
  - intros x sx Hsx Hbx _. by eapply Hco.
  - intros x [= <-] Hx.
    destruct (is_chain_live _ _ _ _ _ _ Hc Hx) as (s' & ? & ?). congruence.
Qed.

(** After [link] and the update of the target, the list of the new target
    has [e] in front, the other lists are as they were. *)
Lemma link_chains E H e s b hd s' b' hd' l :
  preds_ok_but (Some e) E H → H !! b = Some hd →
  Prev s' = Some (PredListOf b) → Next s' = hd →
  SuccessorBlock s' = Some b →
  H !! b' = Some hd' → is_chain E b' (PredListOf b') hd' l →
  is_chain (<[e := s']> (link_edges e s b hd E)) b' (PredListOf b')
    (if decide (b' = b) then Some e else hd')
    (if decide (b' = b) then e :: l else l).
Proof.
  intros Hok Hhd Hp Hn Hb Hhd' Hc.
  destruct (preds_ok_chain _ _ _ _ _ _ Hok Hhd' Hc) as (Hnd & _ & He).
  specialize (He e eq_refl).
  case_decide as Hbb.
  - subst b'. simplify_eq. by apply is_chain_link.
  - eapply is_chain_frame; [|done]. intros x Hx.
    rewrite lookup_insert_ne by (intros ->; done).
    apply link_edges_other; [by intros -> |].
    intros ->. destruct (proj1 Hok b _ Hhd) as (lb & _ & Hcb & _).
    destruct lb as [|n lb]; [done|]. destruct Hcb as ([= <-] & sx & Hsx & Hbx & _).
    destruct (is_chain_live _ _ _ _ _ _ Hc Hx) as (sx' & ? & ?). congruence.
Qed.

Lemma link_preds_ok E H e s b hd s' :
  preds_ok_but (Some e) E H → E !! e = Some s → H !! b = Some hd →
  Prev s' = Some (PredListOf b) → Next s' = hd →
  SuccessorBlock s' = Some b →
  preds_ok_but None (<[e := s']> (link_edges e s b hd E)) (<[b := Some e]> H).
Proof.
  intros Hok Hs Hhd Hp Hn Hb.
  assert (∀ x sx, x ≠ e →
            (<[e := s']> (link_edges e s b hd E)) !! x = Some sx →
            ∃ sx', E !! x = Some sx' ∧ SuccessorBlock sx' = SuccessorBlock sx)
    as Hold.
  { intros x sx Hx. rewrite lookup_insert_ne by done.
    rewrite link_edges_lookup, lookup_insert_ne by done.
    destruct (E !! x) as [sx'|]; [|done]. simpl. intros [= <-].
    exists sx'. by case_decide. }
  split.
  - intros b' hd'' Hhd''.
    assert (∃ hd', H !! b' = Some hd' ∧
              hd'' = if decide (b' = b) then Some e else hd')
      as (hd' & Hhd' & ->).
    { destruct (decide (b' = b)) as [->|].
      - rewrite lookup_insert_eq in Hhd''. naive_solver.
      - rewrite lookup_insert_ne in Hhd'' by done. naive_solver. }
    destruct (proj1 Hok b' hd' Hhd') as (l & Hnd & Hc & Hco & He).
    exists (if decide (b' = b) then e :: l else l). split_and!.
    + case_decide; [|done]. apply NoDup_cons. split; [|done]. by apply He.
    + by eapply link_chains.
    + intros x sx Hsx Hbx _. destruct (decide (x = e)) as [->|Hx].
      * rewrite lookup_insert_eq in Hsx. simplify_eq.
        rewrite decide_True by congruence. apply list_elem_of_here.
      * destruct (Hold x sx Hx Hsx) as (sx' & Hsx' & Hbx').
        assert (x ∈ l) by (eapply Hco; [done|congruence|congruence]).
        case_decide; [by apply list_elem_of_further | done].
    + done.
  - intros x sx b' Hsx Hbx. destruct (decide (x = e)) as [->|Hx].
    + rewrite lookup_insert_eq in Hsx. simplify_eq.
      rewrite lookup_insert_eq. by eauto.
    + destruct (Hold x sx Hx Hsx) as (sx' & Hsx' & Hbx').
      apply lookup_insert_is_Some'. right.
      eapply (proj2 Hok); [done|congruence].
Qed.

(** Clearing the target of an edge that is in no list. *)
Lemma clear_preds_ok E H e s' :
  preds_ok_but (Some e) E H → SuccessorBlock s' = None →
  preds_ok_but None (<[e := s']> E) H.
Proof.
  intros [Hok Hlive] Hb. split.
  - intros b hd Hhd. destruct (Hok b hd Hhd) as (l & Hnd & Hc & Hco & He).
    exists l. split_and!; try done.
    + eapply is_chain_frame; [|done]. intros x Hx.
      rewrite lookup_insert_ne; [done|]. intros ->. by apply (He x).
    + intros x sx Hsx Hbx _. destruct (decide (x = e)) as [->|Hx].
      * rewrite lookup_insert_eq in Hsx. congruence.
      * rewrite lookup_insert_ne in Hsx by done.
        eapply Hco; [done..|congruence].
  - intros x sx b Hsx Hbx. destruct (decide (x = e)) as [->|Hx].
    + rewrite lookup_insert_eq in Hsx. congruence.
    + rewrite lookup_insert_ne in Hsx by done. by eapply Hlive.
Qed.

Lemma clear_chains E H e s' b hd l :
  preds_ok_but (Some e) E H → H !! b = Some hd →
  is_chain E b (PredListOf b) hd l →
  is_chain (<[e := s']> E) b (PredListOf b) hd l.
Proof.
  intros Hok Hhd Hc.
  destruct (preds_ok_chain _ _ _ _ _ _ Hok Hhd Hc) as (_ & _ & He).
  eapply is_chain_frame; [|done]. intros x Hx.
  rewrite lookup_insert_ne; [done|]. intros ->. by apply (He x).
Qed.
End preds.

(** ** The edge registry on stores *)

Lemma insert_as_alter {A} (f : A → A) (m : gmap nat A) i x :
  m !! i = Some x → <[i := f x]> m = alter f i m.
Proof.
  intros Hx. apply map_eq. intros j. rewrite lookup_alter, lookup_insert.
  case_decide; subst; by rewrite ?Hx, ?option_fmap_id.
Qed.

Lemma fmap_alter_same {A B} (g : A → B) (f : A → A) (m : gmap nat A) i :
  (∀ x, g (f x) = g x) → g <$> alter f i m = g <$> m.
Proof.
  intros Hg. apply map_eq. intros j. rewrite !lookup_fmap, lookup_alter.
  case_decide; [subst|done].
  destruct (m !! j); simpl; by rewrite ?Hg.
Qed.

Lemma fmap_insert_same {A B} (g : A → B) (m : gmap nat A) i x y :
  m !! i = Some x → g y = g x → g <$> <[i := y]> m = g <$> m.
Proof.
  intros Hx Hg. rewrite fmap_insert. apply insert_id.
  by rewrite lookup_fmap, Hx, Hg.
Qed.

Lemma same_frame_trans σ1 σ2 σ3 :
  same_frame σ1 σ2 → same_frame σ2 σ3 → same_frame σ1 σ3.
Proof. intros (?&?&?&?) (?&?&?&?). unfold same_frame. by split_and!; etrans. Qed.

Lemma unlink_edges_frame s E :
  ContainingInst <$> unlink_edges s E = ContainingInst <$> E.
Proof.
  unfold unlink_edges.
  destruct (Next s); [rewrite fmap_alter_same by done|];
    destruct (Prev s) as [[?|?]|]; by rewrite ?fmap_alter_same.
Qed.

Lemma link_edges_frame e s b hd E s0 :
  E !! e = Some s0 → ContainingInst s = ContainingInst s0 →
  ContainingInst <$> link_edges e s b hd E = ContainingInst <$> E.
Proof.
  intros Hs Hci. unfold link_edges.
  destruct hd; [rewrite fmap_alter_same by done|];
    by rewrite (fmap_insert_same _ _ _ s0).
Qed.

Lemma unlink_inv σ e cfg σ1 :
  unlink e σ cfg = Ok σ1 →
  ∃ s, Edges σ !! e = Some s ∧
       Edges σ1 = unlink_edges s (Edges σ) ∧
       PredList <$> Blocks σ1 = unlink_heads s (PredList <$> Blocks σ) ∧
       same_frame σ σ1.
Proof.
  unfold unlink. intros Hu.
  apply bind_Ok_inv in Hu as (s & Hs%deref_Ok_inv & Hu).
  apply bind_Ok_inv in Hu as (sl & Hsl%deref_Ok_inv & Hu).
  apply bind_Ok_inv in Hu as (σ0 & Hst & Hu).
  exists s. split; [done|].
  assert (Edges σ0 = match sl with
                     | NextOf p => alter (set_Next (Next s)) p (Edges σ)
                     | _ => Edges σ end ∧
          PredList <$> Blocks σ0 = unlink_heads s (PredList <$> Blocks σ) ∧
          same_frame σ σ0) as (HE0 & HH0 & Hfr0).
  { unfold unlink_heads. rewrite Hsl. destruct sl as [b0|p]; simpl in Hst.
    - apply bind_Ok_inv in Hst as (B & HB%deref_Ok_inv & Hst).
      apply ret_Ok_inv in Hst as <-. simpl. split_and!; try done.
      + by rewrite fmap_insert.
      + unfold same_frame. simpl. split_and!; try done.
        by apply (fmap_insert_same _ _ _ B).
    - apply bind_Ok_inv in Hst as (sp & Hsp%deref_Ok_inv & Hst).
      apply ret_Ok_inv in Hst as <-. simpl. split_and!; try done.
      + by apply insert_as_alter.
      + unfold same_frame. simpl. split_and!; try done.
        by apply (fmap_insert_same _ _ _ sp). }
  assert (Edges σ1 = unlink_edges s (Edges σ) ∧ Blocks σ1 = Blocks σ0 ∧
          Functions σ1 = Functions σ0 ∧ Insts σ1 = Insts σ0)
    as (HE1 & HB1 & HF1 & HI1).
  { unfold unlink_edges. rewrite Hsl. destruct (Next s) as [n|].
    - apply bind_Ok_inv in Hu as (sn & Hsn%deref_Ok_inv & Hu).
      apply ret_Ok_inv in Hu as <-. simpl. split_and!; try done.
      rewrite Hsl, (insert_as_alter (set_Prev (Some sl))) by done.
      rewrite HE0. by destruct sl.
    - apply ret_Ok_inv in Hu as <-. rewrite HE0. by destruct sl. }
  split_and!; try done.
  - by rewrite HB1.
  - destruct Hfr0 as (?&?&?&?). unfold same_frame.
    rewrite HB1, HF1, HI1, HE1. split_and!; try done.
    apply unlink_edges_frame.
Qed.

Lemma link_inv σ e b cfg σ2 :
  link e b σ cfg = Ok σ2 →
  ∃ B s, Blocks σ !! b = Some B ∧ Edges σ !! e = Some s ∧
         Edges σ2 = link_edges e s b (PredList B) (Edges σ) ∧
         PredList <$> Blocks σ2 = <[b := Some e]> (PredList <$> Blocks σ) ∧
         same_frame σ σ2.
Proof.
  unfold link. intros Hl.
  apply bind_Ok_inv in Hl as (B & HB%deref_Ok_inv & Hl).
  apply bind_Ok_inv in Hl as (s & Hs%deref_Ok_inv & Hl).
  apply bind_Ok_inv in Hl as (σ0 & Hst & Hl).
  apply ret_Ok_inv in Hl as <-.
  exists B, s. split; [done|]. split; [done|].
  assert (Edges σ0 = link_edges e s b (PredList B) (Edges σ) ∧
          Blocks σ0 = Blocks σ ∧ Functions σ0 = Functions σ ∧
          Insts σ0 = Insts σ) as (HE0 & HB0 & HF0 & HI0).
  { unfold link_edges. destruct (PredList B) as [n|].
    - apply bind_Ok_inv in Hst as (sn & Hsn%deref_Ok_inv & Hst).
      apply ret_Ok_inv in Hst as <-. simpl in *. split_and!; try done.
      by rewrite (insert_as_alter (set_Prev (Some (NextOf e)))).
    - by apply ret_Ok_inv in Hst as <-. }
  simpl. split_and!; try done.
  - by rewrite HB0, fmap_insert.
  - unfold same_frame. simpl. rewrite HB0, HF0, HI0, HE0. split_and!; try done.
    + by apply (fmap_insert_same _ _ _ B).
    + by apply (link_edges_frame _ _ _ _ _ s).
Qed.

Lemma store_slot_Ok sl v σ cfg :
  match sl with
  | PredListOf b => is_Some (Blocks σ !! b)
  | NextOf p => is_Some (Edges σ !! p)
  end →
  ∃ σ0, store_slot sl v σ cfg = Ok σ0 ∧
        ∀ n, is_Some (Edges σ !! n) → is_Some (Edges σ0 !! n).
Proof.
  destruct sl as [b|p]; intros [y Hy]; simpl.
  - rewrite (bind_Ok _ _ _ _ (deref_Some _ _ cfg Hy)). by eexists.
  - rewrite (bind_Ok _ _ _ _ (deref_Some _ _ cfg Hy)). eexists.
    split; [done|]. intros n Hn. simpl. apply lookup_insert_is_Some'. by right.
Qed.

Lemma unlink_Ok σ e s b cfg :
  preds_ok σ → Edges σ !! e = Some s → SuccessorBlock s = Some b →
  ∃ σ1, unlink e σ cfg = Ok σ1.
Proof.
  intros Hok Hs Hb.
  destruct (preds_ok_position _ _ _ _ _ Hok Hs Hb)
    as (hd & l1 & l2 & Hhd & Hnd & Hc & Hp & Hn).
  assert (∀ x, x ∈ l1 ++ e :: l2 → is_Some (Edges σ !! x)) as Hlive.
  { intros x Hx. destruct (is_chain_live _ _ _ _ _ _ Hc Hx) as (sx & ? & _).
    by eauto. }
  unfold unlink.
  rewrite (bind_Ok _ _ _ _ (deref_Some _ _ cfg Hs)).
  rewrite (bind_Ok _ _ _ _ (deref_Some _ _ cfg Hp)).
  destruct (store_slot_Ok (from_option NextOf (PredListOf b) (last l1))
              (Next s) σ cfg) as (σ0 & Hst & Hpres).
  { destruct (last l1) as [p|] eqn:Hl; simpl.
    - apply Hlive. apply last_Some_elem_of in Hl. set_solver.
    - rewrite lookup_fmap in Hhd. destruct (Blocks σ !! b); by eauto. }
  rewrite (bind_Ok _ _ _ _ Hst). rewrite Hn.
  destruct (head l2) as [n|] eqn:Hh; [|by eexists].
  destruct (Hpres n) as [sn Hsn].
  { apply Hlive. apply head_Some_elem_of in Hh. set_solver. }
  rewrite (bind_Ok _ _ _ _ (deref_Some _ _ cfg Hsn)). by eexists.
Qed.

Lemma link_Ok σ e b B s cfg :
  Blocks σ !! b = Some B → Edges σ !! e = Some s →
  (∀ n, PredList B = Some n → is_Some (Edges σ !! n)) →
  ∃ σ2, link e b σ cfg = Ok σ2.
Proof.
  intros HB Hs Hhd. unfold link.
  rewrite (bind_Ok _ _ _ _ (deref_Some _ _ cfg HB)).
  rewrite (bind_Ok _ _ _ _ (deref_Some _ _ cfg Hs)).
  destruct (PredList B) as [n|].
  - destruct (Hhd n eq_refl) as [sn Hsn].
    assert (is_Some (<[e := set_Next (Some n)
                       (set_Prev (Some (PredListOf b)) s)]> (Edges σ) !! n))
      as [sn' Hsn'] by (apply lookup_insert_is_Some'; by eauto).
    cbn [Edges set_Edges]. rewrite bind_eq.
    rewrite (bind_Ok _ _ _ _ (deref_Some _ _ cfg Hsn')). by eexists.
  - by eexists.
Qed.

Lemma same_frame_blocks_live σ σ' b :
  same_frame σ σ' → is_Some (Blocks σ' !! b) ↔ is_Some (Blocks σ !! b).
Proof.
  intros (_ & _ & HB & _).
  by rewrite <- (fmap_is_Some block_frame (Blocks σ' !! b)),
    <- (fmap_is_Some block_frame (Blocks σ !! b)), <- !lookup_fmap, HB.
Qed.

Lemma same_frame_edges_live σ σ' e :
  same_frame σ σ' → is_Some (Edges σ' !! e) ↔ is_Some (Edges σ !! e).
Proof.
  intros (_ & _ & _ & HE).
  by rewrite <- (fmap_is_Some ContainingInst (Edges σ' !! e)),
    <- (fmap_is_Some ContainingInst (Edges σ !! e)), <- !lookup_fmap, HE.
Qed.

(** First half of a retargeting: the edge leaves the list of its target. *)
Lemma detach_step σ e s cfg :
  preds_ok σ → Edges σ !! e = Some s →
  ∃ σ1,
    match SuccessorBlock s with
    | Some _ => unlink e σ
    | None => ret σ
    end cfg = Ok σ1 ∧
    preds_ok_but (Some e) (Edges σ1) (PredList <$> Blocks σ1) ∧
    same_frame σ σ1 ∧
    (∀ x, SuccessorBlock <$> Edges σ1 !! x = SuccessorBlock <$> Edges σ !! x) ∧
    (∀ b hd l,
       (PredList <$> Blocks σ) !! b = Some hd →
       is_chain (Edges σ) b (PredListOf b) hd l →
       ∃ hd', (PredList <$> Blocks σ1) !! b = Some hd' ∧
              is_chain (Edges σ1) b (PredListOf b) hd'
                (filter (λ x, x ≠ e) l)).
Proof.
  intros Hok Hs. destruct (SuccessorBlock s) as [b|] eqn:Hb.
  - destruct (unlink_Ok σ e s b cfg Hok Hs Hb) as [σ1 Hu].
    exists σ1. split; [done|].
    destruct (unlink_inv _ _ _ _ Hu) as (s' & Hs' & HE & HH & Hfr).
    simplify_eq. rewrite HE, HH. split_and!; try done.
    + by eapply unlink_preds_ok.
    + intros x. rewrite unlink_edges_lookup.
      destruct (Edges σ !! x); simpl; [|done]. by repeat case_decide.
    + intros b' hd l Hhd Hc. by eapply unlink_chains.
  - exists σ. split_and!; try done.
    + by eapply untargeted_preds_ok.
    + intros b' hd l Hhd Hc. exists hd. split; [done|].
      rewrite filter_ne_absent; [done|]. intros He.
      destruct (is_chain_live _ _ _ _ _ _ Hc He) as (s' & ? & ?). congruence.
Qed.

(** Second half: the edge enters the list of its new target, if any, and
    records the target. *)
Lemma attach_step σ1 e BB cfg :
  preds_ok_but (Some e) (Edges σ1) (PredList <$> Blocks σ1) →
  is_Some (Edges σ1 !! e) →
  (∀ b, BB = Some b → is_Some (Blocks σ1 !! b)) →
  ∃ σ',
    (σ2 ← match BB with
          | Some b => link e b σ1
          | None => ret σ1
          end;
     s2 ← deref (Edges σ2 !! e);
     ret (set_Edges (<[e := set_SuccessorBlock BB s2]> (Edges σ2)) σ2)) cfg
      = Ok σ' ∧
    preds_ok σ' ∧ same_frame σ1 σ' ∧
    (∃ s', Edges σ' !! e = Some s' ∧ SuccessorBlock s' = BB) ∧
    (∀ x, x ≠ e →
       SuccessorBlock <$> Edges σ' !! x = SuccessorBlock <$> Edges σ1 !! x) ∧
    (∀ b hd l,
       (PredList <$> Blocks σ1) !! b = Some hd →
       is_chain (Edges σ1) b (PredListOf b) hd l →
       ∃ hd', (PredList <$> Blocks σ') !! b = Some hd' ∧
              is_chain (Edges σ') b (PredListOf b) hd'
                ((if decide (BB = Some b) then [e] else []) ++ l)).
Proof.
  intros Hok [s1 Hs1] Hlive. destruct BB as [b2|].
  - destruct (Hlive b2 eq_refl) as [B2 HB2].
    assert ((PredList <$> Blocks σ1) !! b2 = Some (PredList B2)) as Hhd2
      by (by rewrite lookup_fmap, HB2).
    destruct (proj1 Hok b2 _ Hhd2) as (l2 & Hnd2 & Hc2 & _ & He2).
    specialize (He2 e eq_refl).
    assert (PredList B2 ≠ Some e) as Hne.
    { intros Hh. rewrite (is_chain_head _ _ _ _ _ Hc2) in Hh.
      by apply head_Some_elem_of in Hh. }
    destruct (link_Ok σ1 e b2 B2 s1 cfg HB2 Hs1) as [σ2 Hl].
    { intros n Hn. rewrite (is_chain_head _ _ _ _ _ Hc2) in Hn.
      apply head_Some_elem_of in Hn.
      destruct (is_chain_live _ _ _ _ _ _ Hc2 Hn) as (sn & ? & _). by eauto. }
    destruct (link_inv _ _ _ _ _ Hl) as (B & s & HB & Hs & HE & HH & Hfr).
    simplify_eq.
    rewrite (bind_Ok _ _ _ _ Hl).
    pose proof (link_edges_self e s1 b2 (PredList B2) (Edges σ1) Hne) as Hself.
    rewrite <- HE in Hself.
    rewrite (bind_Ok _ _ _ _ (deref_Some _ _ cfg Hself)).
    eexists. split; [done|].
    unfold preds_ok. simpl. rewrite HE, HH. split_and!.
    + by eapply link_preds_ok.
    + destruct Hfr as (?&?&?&HCI). unfold same_frame. simpl.
      split_and!; try done. rewrite HE in Hself, HCI.
      by rewrite (fmap_insert_same _ _ _ _ _ Hself).
    + eexists. by rewrite lookup_insert_eq.
    + intros x Hx. rewrite lookup_insert_ne by done.
      rewrite link_edges_lookup, lookup_insert_ne by done.
      destruct (Edges σ1 !! x); simpl; [|done]. by case_decide.
    + intros b hd l Hhd Hc.
      exists (if decide (b = b2) then Some e else hd). split.
      * case_decide as Hb; [subst; by rewrite lookup_insert_eq|].
        by rewrite lookup_insert_ne.
      * pose proof (link_chains _ _ e s1 b2 (PredList B2)
                      (set_SuccessorBlock (Some b2)
                         (set_Next (PredList B2)
                            (set_Prev (Some (PredListOf b2)) s1))) b hd l
                      Hok Hhd2 eq_refl eq_refl eq_refl Hhd Hc) as Hc'.
        simpl in Hc'. destruct (decide (b = b2)) as [->|Hb].
        -- by rewrite decide_True by done.
        -- rewrite decide_False by congruence. done.
  - rewrite (bind_Ok _ _ _ σ1) by done.
    rewrite (bind_Ok _ _ _ _ (deref_Some _ _ cfg Hs1)).
    eexists. split; [done|]. unfold preds_ok. simpl. split_and!.
    + by eapply clear_preds_ok.
    + unfold same_frame. simpl. split_and!; try done.
      by apply (fmap_insert_same _ _ _ s1).
    + eexists. by rewrite lookup_insert_eq.
    + intros x Hx. by rewrite lookup_insert_ne.
    + intros b hd l Hhd Hc. exists hd. split; [done|].
      simpl. by eapply clear_chains.
Qed.

Lemma preds_of_chain σ b l :
  preds_ok σ →
  preds_of σ b l ↔
  ∃ hd, (PredList <$> Blocks σ) !! b = Some hd ∧
        is_chain (Edges σ) b (PredListOf b) hd l.
Proof.
  intros Hok. split.
  - intros (B & HB & Hw).
    assert ((PredList <$> Blocks σ) !! b = Some (PredList B)) as Hhd
      by (by rewrite lookup_fmap, HB).
    exists (PredList B). split; [done|].
    destruct (proj1 Hok b _ Hhd) as (l0 & Hnd & Hc & _).
    unfold pred_edges, pred_begin in Hw.
    rewrite (pred_walk_chain_size _ _ _ _ _ Hnd Hc) in Hw. by simplify_eq.
  - intros (hd & Hhd & Hc). rewrite lookup_fmap in Hhd.
    destruct (Blocks σ !! b) as [B|] eqn:HB; [|done]. simpl in Hhd.
    simplify_eq. exists B. split; [done|].
    destruct (preds_ok_chain None _ _ b (PredList B) l Hok) as (Hnd & _);
      [by rewrite lookup_fmap, HB | done |].
    by eapply pred_walk_chain_size.
Qed.

(** Every block of a store with consistent lists has a predecessor
    traversal, and it ends. *)
Lemma preds_of_total σ b B :
  preds_ok σ → Blocks σ !! b = Some B →
  ∃ l, pred_edges σ B = Some l ∧ NoDup l ∧
       ∀ e, e ∈ l ↔ ∃ s, Edges σ !! e = Some s ∧ SuccessorBlock s = Some b.
Proof.
  intros Hok HB.
  assert ((PredList <$> Blocks σ) !! b = Some (PredList B)) as Hhd
    by (by rewrite lookup_fmap, HB).
  destruct (proj1 Hok b _ Hhd) as (l & Hnd & Hc & Hco & _).
  exists l. split_and!; try done.
  - by eapply pred_walk_chain_size.
  - intros e. split.
    + intros He. by eapply is_chain_live.
    + intros (s & Hs & Hb). by eapply Hco.
Qed.

(** Retargeting an edge to another block, under the list invariant. *)
Lemma setSuccessor_retarget σ e s BB cfg :
  preds_ok σ → Edges σ !! e = Some s → SuccessorBlock s ≠ BB →
  (cfg = Debug → is_Some (ContainingInst s)) →
  (∀ b, BB = Some b → is_Some (Blocks σ !! b)) →
  ∃ σ', setSuccessor e BB σ cfg = Ok σ' ∧ preds_ok σ' ∧ same_frame σ σ' ∧
        (∃ s', Edges σ' !! e = Some s' ∧ SuccessorBlock s' = BB) ∧
        (∀ x, x ≠ e →
           SuccessorBlock <$> Edges σ' !! x = SuccessorBlock <$> Edges σ !! x) ∧
        (∀ b l, preds_of σ b l →
           preds_of σ' b ((if decide (BB = Some b) then [e] else []) ++
                          filter (λ x, x ≠ e) l)).
Proof.
  intros Hok Hs Hne Hci Hlive.
  destruct (detach_step σ e s cfg Hok Hs) as (σ1 & Hd & Hok1 & Hfr1 & Ht1 & Hch1).
  destruct (attach_step σ1 e BB cfg Hok1) as (σ' & Ha & Hok' & Hfr' & Hs' & Ht' & Hch').
  { apply (same_frame_edges_live _ _ _ Hfr1). by eauto. }
  { intros b Hb. apply (same_frame_blocks_live _ _ _ Hfr1). by apply Hlive. }
  exists σ'. split_and!; try done.
  - unfold setSuccessor.
    rewrite (bind_Ok _ _ _ _ (deref_Some _ _ cfg Hs)).
    rewrite bool_decide_eq_false_2 by done.
    rewrite (bind_Ok _ _ _ ()).
    2:{ destruct cfg; [|by destruct (bool_decide _)].
        by rewrite bool_decide_eq_true_2 by auto. }
    by rewrite (bind_Ok _ _ _ _ Hd).
  - by eapply same_frame_trans.
  - intros x Hx. by rewrite Ht', Ht1.
  - intros b l (hd & Hhd & Hc)%preds_of_chain; [|done].
    apply preds_of_chain; [done|].
    destruct (Hch1 b hd l Hhd Hc) as (hd1 & Hhd1 & Hc1).
    by destruct (Hch' b hd1 _ Hhd1 Hc1) as (hd' & Hhd' & Hc'); eauto.
Qed.

(** Assigning the target an edge already has changes nothing. *)
Lemma setSuccessor_same σ e s cfg :
  Edges σ !! e = Some s → setSuccessor e (SuccessorBlock s) σ cfg = Ok σ.
Proof.
  intros Hs. unfold setSuccessor.
  rewrite (bind_Ok _ _ _ _ (deref_Some _ _ cfg Hs)).
  by rewrite bool_decide_eq_true_2.
Qed.

(** What a successful assignment tells about the store it ran in. *)
Lemma setSuccessor_Ok_pre σ e BB cfg σ' :
  setSuccessor e BB σ cfg = Ok σ' →
  ∃ s, Edges σ !! e = Some s ∧
       (SuccessorBlock s = BB ∧ σ' = σ ∨
        SuccessorBlock s ≠ BB ∧
        (cfg = Debug → is_Some (ContainingInst s)) ∧
        ((∃ b, SuccessorBlock s = Some b) → ∃ σ1, unlink e σ cfg = Ok σ1) ∧
        ∀ b, BB = Some b → ∃ σ1 σ2,
          match SuccessorBlock s with
          | Some _ => unlink e σ
          | None => ret σ
          end cfg = Ok σ1 ∧ link e b σ1 cfg = Ok σ2).
Proof.
  unfold setSuccessor. intros (s & Hs%deref_Ok_inv & Hr)%bind_Ok_inv.
  exists s. split; [done|]. case_bool_decide as Hbb.
  - left. apply ret_Ok_inv in Hr. done.
  - right. split; [done|].
    apply bind_Ok_inv in Hr as ([] & Has & Hr).
    apply bind_Ok_inv in Hr as (σ1 & H1 & Hr).
    apply bind_Ok_inv in Hr as (σ2 & H2 & Hr).
    split_and!.
    + intros ->. unfold assert in Has. case_bool_decide; done.
    + intros [b Hb]. rewrite Hb in H1. by eauto.
    + intros b ->. by eauto.
Qed.

Lemma setSuccessor_Ok_inv σ e BB cfg σ' :
  preds_ok σ → setSuccessor e BB σ cfg = Ok σ' →
  preds_ok σ' ∧ same_frame σ σ' ∧
  (∃ s', Edges σ' !! e = Some s' ∧ SuccessorBlock s' = BB) ∧
  (∀ x, x ≠ e →
     SuccessorBlock <$> Edges σ' !! x = SuccessorBlock <$> Edges σ !! x) ∧
  (∀ s, Edges σ !! e = Some s → SuccessorBlock s ≠ BB →
     ∀ b l, preds_of σ b l →
       preds_of σ' b ((if decide (BB = Some b) then [e] else []) ++
                      filter (λ x, x ≠ e) l)).
Proof.
  intros Hok Hr.
  destruct (setSuccessor_Ok_pre _ _ _ _ _ Hr)
    as (s & Hs & [[Hb ->] | (Hne & Hci & _ & Hlink)]).
  - split_and!; try done; [by eauto|]. intros s0 Hs0 Hne. congruence.
  - destruct (setSuccessor_retarget σ e s BB cfg Hok Hs Hne Hci)
      as (σ'' & Hr' & Hok' & Hfr & Hs' & Ht & Hch).
    { intros b Hb. destruct (Hlink b Hb) as (σ1 & σ2 & H1 & H2).
      destruct (link_inv _ _ _ _ _ H2) as (B & _ & HB & _).
      assert (same_frame σ σ1) as Hfr1.
      { destruct (SuccessorBlock s).
        - by destruct (unlink_inv _ _ _ _ H1) as (_ & _ & _ & _ & ?).
        - by apply ret_Ok_inv in H1 as <-. }
      apply (same_frame_blocks_live _ _ _ Hfr1). by eauto. }
    assert (σ'' = σ') as -> by congruence. done.
Qed.

Lemma preds_of_live σ b l e :
  preds_ok σ → preds_of σ b l → e ∈ l →
  ∃ s, Edges σ !! e = Some s ∧ SuccessorBlock s = Some b.
Proof.
  intros Hok (hd & _ & Hc)%preds_of_chain He; [|done].
  by eapply is_chain_live.
Qed.

(** A new block, without predecessors. *)
Lemma preds_ok_new_block E H b :
  preds_ok_but None E H → H !! b = None →
  preds_ok_but None E (<[b := None]> H).
Proof.
  intros [Hok Hlive] Hb. split.
  - intros b' hd. destruct (decide (b' = b)) as [->|Hne].
    + rewrite lookup_insert_eq. intros [= <-]. exists []. split_and!; try done.
      * constructor.
      * intros e s Hs Ht _. destruct (Hlive e s b Hs Ht) as [? ?]. congruence.
    + rewrite lookup_insert_ne by done. by apply Hok.
  - intros e s b' Hs Ht. apply lookup_insert_is_Some'. right. by eapply Hlive.
Qed.

(** A new edge, without target. *)
Lemma preds_ok_new_edge E H e s :
  preds_ok_but None E H → E !! e = None → SuccessorBlock s = None →
  preds_ok_but None (<[e := s]> E) H.
Proof.
  intros [Hok Hlive] He Hs. split.
  - intros b hd Hhd. destruct (Hok b hd Hhd) as (l & Hnd & Hc & Hco & Hx).
    exists l. split_and!; try done.
    + eapply is_chain_frame; [|done]. intros x Hx'.
      rewrite lookup_insert_ne; [done|]. intros ->.
      destruct (is_chain_live _ _ _ _ _ _ Hc Hx') as (? & ? & _). congruence.
    + intros x sx. destruct (decide (x = e)) as [->|Hne].
      * rewrite lookup_insert_eq. intros [= <-]. congruence.
      * rewrite lookup_insert_ne by done. by apply Hco.
  - intros x sx b. destruct (decide (x = e)) as [->|Hne].
    + rewrite lookup_insert_eq. intros [= <-]. congruence.
    + rewrite lookup_insert_ne by done. by apply Hlive.
Qed.

Lemma preds_ok_update_block σ b B B' :
  Blocks σ !! b = Some B → PredList B' = PredList B →
  preds_ok σ → preds_ok (set_Blocks (<[b := B']> (Blocks σ)) σ).
Proof.
  intros HB Hp Hok. unfold preds_ok. simpl.
  by rewrite (fmap_insert_same _ _ _ B).
Qed.

(** ** Ownership *)

Lemma block_frame_eq B B' :
  block_frame B = block_frame B' →
  Parent B = Parent B' ∧ BBArgList B = BBArgList B' ∧ InstList B = InstList B'.
Proof. unfold block_frame. by intros [= -> -> ->]. Qed.

Lemma same_frame_owner_ok σ σ' : same_frame σ σ' → owner_ok σ → owner_ok σ'.
Proof.
  intros (HF & HI & HB & HE) (Ho1 & Ho2 & Ho3 & Ho4).
  assert (∀ e s', Edges σ' !! e = Some s' →
            ∃ s, Edges σ !! e = Some s ∧ ContainingInst s = ContainingInst s')
    as HE1.
  { intros e s' Hs'. pose proof (f_equal (.!! e) HE) as Hl. simpl in Hl.
    rewrite !lookup_fmap, Hs' in Hl. destruct (Edges σ !! e) as [s|]; [|done].
    exists s. simpl in Hl. split; [done|congruence]. }
  assert (∀ e s, Edges σ !! e = Some s →
            ∃ s', Edges σ' !! e = Some s' ∧ ContainingInst s' = ContainingInst s)
    as HE2.
  { intros e s Hs. pose proof (f_equal (.!! e) HE) as Hl. simpl in Hl.
    rewrite !lookup_fmap, Hs in Hl. destruct (Edges σ' !! e) as [s'|]; [|done].
    exists s'. simpl in Hl. split; [done|congruence]. }
  assert (∀ b B', Blocks σ' !! b = Some B' →
            ∃ B, Blocks σ !! b = Some B ∧ block_frame B = block_frame B')
    as HB1.
  { intros b B' HB'. pose proof (f_equal (.!! b) HB) as Hl. simpl in Hl.
    rewrite !lookup_fmap, HB' in Hl. destruct (Blocks σ !! b) as [B|]; [|done].
    exists B. simpl in Hl. split; [done|congruence]. }
  assert (∀ b B, Blocks σ !! b = Some B →
            ∃ B', Blocks σ' !! b = Some B' ∧ block_frame B' = block_frame B)
    as HB2.
  { intros b B HB'. pose proof (f_equal (.!! b) HB) as Hl. simpl in Hl.
    rewrite !lookup_fmap, HB' in Hl. destruct (Blocks σ' !! b) as [B'|]; [|done].
    exists B'. simpl in Hl. split; [done|congruence]. }
  unfold owner_ok. rewrite HF, HI. split_and!.
  - intros e s' Hs'. destruct (HE1 e s' Hs') as (s & Hs & <-). by apply Ho1.
  - intros t I e Ht He. destruct (Ho2 t I e Ht He) as (s & Hs & Hci).
    destruct (HE2 e s Hs) as (s' & Hs' & Hci'). exists s'. split; congruence.
  - intros i I Hi. destruct (Ho3 i I Hi) as (p & B & Hp & HBp & Hin).
    destruct (HB2 p B HBp) as (B' & HB' & Hfr).
    exists p, B'. split_and!; try done.
    apply block_frame_eq in Hfr as (_ & _ & ->). done.
  - intros b B' HB'. destruct (HB1 b B' HB') as (B & HBb & Hfr).
    destruct (Ho4 b B HBb) as (F & bl & HP & HFl & Hin).
    exists F, bl. split_and!; try done.
    apply block_frame_eq in Hfr as (<- & _ & _). done.
Qed.

Lemma owner_ok_update_block σ b B B' :
  Blocks σ !! b = Some B → Parent B' = Parent B → InstList B' = InstList B →
  owner_ok σ → owner_ok (set_Blocks (<[b := B']> (Blocks σ)) σ).
Proof.
  intros HB HP HI (Ho1 & Ho2 & Ho3 & Ho4). unfold owner_ok. simpl.
  split_and!; try done.
  - intros i I Hi. destruct (Ho3 i I Hi) as (p & Bp & Hp & HBp & Hin).
    destruct (decide (p = b)) as [->|Hne].
    + exists b, B'. rewrite lookup_insert_eq. simplify_eq. by rewrite HI.
    + exists p, Bp. by rewrite lookup_insert_ne.
  - intros b' B''. destruct (decide (b' = b)) as [->|Hne].
    + rewrite lookup_insert_eq. intros [= <-]. rewrite HP. by eapply Ho4.
    + rewrite lookup_insert_ne by done. by apply Ho4.
Qed.

(** ** Every operation preserves the invariants *)

Lemma newFunction_ok F σ cfg σ' :
  Functions σ !! F = None → newFunction F σ cfg = Ok σ' →
  store_ok σ → store_ok σ'.
Proof.
  unfold newFunction, ret. intros HF [= <-] [Hp (Ho1 & Ho2 & Ho3 & Ho4)].
  split; [done|]. unfold owner_ok. simpl. split_and!; try done.
  intros b B HB. destruct (Ho4 b B HB) as (F' & bl & HP & HF' & Hin).
  exists F', bl. split_and!; try done.
  rewrite lookup_insert_ne; [done|]. congruence.
Qed.

Lemma newBlock_ok F b σ cfg σ' :
  Blocks σ !! b = None → newBlock F b σ cfg = Ok σ' →
  store_ok σ → store_ok σ'.
Proof.
  intros Hb Hr [Hp (Ho1 & Ho2 & Ho3 & Ho4)]. unfold newBlock in Hr.
  apply bind_Ok_inv in Hr as (bl & Hbl%deref_Ok_inv & <-%ret_Ok_inv).
  split.
  - unfold preds_ok. simpl. rewrite fmap_insert. simpl.
    apply preds_ok_new_block; [done|]. by rewrite lookup_fmap, Hb.
  - unfold owner_ok. simpl. split_and!; try done.
    + intros i I Hi. destruct (Ho3 i I Hi) as (p & Bp & Hp' & HBp & Hin).
      exists p, Bp. split_and!; try done.
      rewrite lookup_insert_ne; [done|]. congruence.
    + intros b' B'. destruct (decide (b' = b)) as [->|Hne].
      * rewrite lookup_insert_eq. intros [= <-]. simpl.
        exists F, (bl ++ [b]). rewrite lookup_insert_eq.
        split_and!; try done. set_solver.
      * rewrite lookup_insert_ne by done. intros HB.
        destruct (Ho4 b' B' HB) as (F' & bl' & HP & HF' & Hin).
        destruct (decide (F' = F)) as [->|HneF].
        -- exists F, (bl ++ [b]). rewrite lookup_insert_eq.
           split_and!; try done. simplify_eq. set_solver.
        -- exists F', bl'. by rewrite lookup_insert_ne.
Qed.

Lemma on_block_inv b f σ cfg σ' :
  on_block b f σ cfg = Ok σ' →
  ∃ B B', Blocks σ !! b = Some B ∧ f B cfg = Ok B' ∧
          σ' = set_Blocks (<[b := B']> (Blocks σ)) σ.
Proof.
  unfold on_block. intros (B & HB%deref_Ok_inv & Hr)%bind_Ok_inv.
  apply bind_Ok_inv in Hr as (B' & HB' & <-%ret_Ok_inv). by eauto.
Qed.

Lemma on_block_ok b f σ cfg σ' :
  (∀ B B', f B cfg = Ok B' → ∃ l, B' = set_BBArgList l B) →
  on_block b f σ cfg = Ok σ' → store_ok σ → store_ok σ'.
Proof.
  intros Hf (B & B' & HB & HfB & ->)%on_block_inv [Hp Ho].
  destruct (Hf B B' HfB) as [l ->]. split.
  - by apply (preds_ok_update_block _ _ B).
  - by apply (owner_ok_update_block _ _ B).
Qed.

Lemma arg_op_shape B cfg :
  (∀ a B', addArgument B a cfg = Ok B' → ∃ l, B' = set_BBArgList l B) ∧
  (∀ idx B', eraseArgument B idx cfg = Ok B' → ∃ l, B' = set_BBArgList l B) ∧
  (∀ B', dropAllArgs B cfg = Ok B' → ∃ l, B' = set_BBArgList l B).
Proof.
  unfold addArgument, eraseArgument, dropAllArgs, ret. split_and!.
  - intros a B' [= <-]. by eauto.
  - intros idx B'. case_bool_decide; [|done]. intros [= <-]. by eauto.
  - intros B' [= <-]. by eauto.
Qed.

Lemma fmap_lookup_Some_inv {A B} (g : A → B) (m : gmap nat A) i y :
  (g <$> m) !! i = Some y → ∃ x, m !! i = Some x ∧ g x = y.
Proof.
  rewrite lookup_fmap. destruct (m !! i) as [x|]; [|done].
  intros [= <-]. by eauto.
Qed.

(** Appending a new instruction [i] of kind [k], whose edges are new, to
    the block [b]. *)
Lemma owner_ok_push σ σ' b B i k :
  owner_ok σ → Insts σ !! i = None → Blocks σ !! b = Some B →
  (∀ e, e ∈ getSuccessors (mkInst (Some b) k) → Edges σ !! e = None) →
  Functions σ' = Functions σ →
  Insts σ' = <[i := mkInst (Some b) k]> (Insts σ) →
  block_frame <$> Blocks σ' =
    <[b := (Parent B, BBArgList B, InstList B ++ [i])]>
      (block_frame <$> Blocks σ) →
  (∀ e, (ContainingInst <$> Edges σ') !! e =
        if decide (e ∈ getSuccessors (mkInst (Some b) k)) then Some (Some i)
        else (ContainingInst <$> Edges σ) !! e) →
  owner_ok σ'.
Proof.
  intros (Ho1 & Ho2 & Ho3 & Ho4) Hi HB Hfresh HF HI HBl HE.
  assert (∀ b' B', Blocks σ' !! b' = Some B' →
            if decide (b' = b)
            then block_frame B' = (Parent B, BBArgList B, InstList B ++ [i])
            else ∃ B0, Blocks σ !! b' = Some B0 ∧
                       block_frame B0 = block_frame B') as HB1.
  { intros b' B' HB'. pose proof (f_equal (.!! b') HBl) as Hl. simpl in Hl.
    rewrite lookup_fmap, HB' in Hl. simpl in Hl. case_decide as Hb.
    - subst. rewrite lookup_insert_eq in Hl. congruence.
    - rewrite lookup_insert_ne in Hl by done. symmetry in Hl.
      by apply fmap_lookup_Some_inv in Hl. }
  assert (∀ b' B0, Blocks σ !! b' = Some B0 →
            ∃ B', Blocks σ' !! b' = Some B' ∧
                  block_frame B' =
                    if decide (b' = b)
                    then (Parent B, BBArgList B, InstList B ++ [i])
                    else block_frame B0) as HB2.
  { intros b' B0 HB0. apply fmap_lookup_Some_inv. rewrite HBl.
    case_decide as Hb.
    - subst. by rewrite lookup_insert_eq.
    - by rewrite lookup_insert_ne, lookup_fmap, HB0. }
  unfold owner_ok. rewrite HF, HI. split_and!.
  - intros e s' Hs'. pose proof (HE e) as He.
    rewrite lookup_fmap, Hs' in He. simpl in He. case_decide as Hin.
    + exists i, (mkInst (Some b) k). rewrite lookup_insert_eq.
      split_and!; try done. congruence.
    + symmetry in He. apply fmap_lookup_Some_inv in He as (s & Hs & Hci).
      destruct (Ho1 e s Hs) as (t & I & Ht & HIt & Hint).
      exists t, I. split_and!; try done; [congruence|].
      rewrite lookup_insert_ne; [done|]. congruence.
  - intros t I e. destruct (decide (t = i)) as [->|Hne].
    + rewrite lookup_insert_eq. intros [= <-] Hin.
      apply fmap_lookup_Some_inv. by rewrite HE, decide_True.
    + rewrite lookup_insert_ne by done. intros Ht Hin.
      destruct (Ho2 t I e Ht Hin) as (s & Hs & Hci).
      apply fmap_lookup_Some_inv. rewrite HE, decide_False.
      * by rewrite lookup_fmap, Hs, <- Hci.
      * intros Hin'. apply Hfresh in Hin'. congruence.
  - intros i' I. destruct (decide (i' = i)) as [->|Hne].
    + rewrite lookup_insert_eq. intros [= <-].
      destruct (HB2 b B HB) as (B' & HB' & Hfr).
      rewrite decide_True in Hfr by done.
      exists b, B'. split_and!; try done.
      assert (InstList B' = InstList B ++ [i]) as ->
        by (unfold block_frame in Hfr; congruence).
      apply elem_of_app. right. apply list_elem_of_here.
    + rewrite lookup_insert_ne by done. intros Hi'.
      destruct (Ho3 i' I Hi') as (p & Bp & Hp & HBp & Hin).
      destruct (HB2 p Bp HBp) as (B' & HB' & Hfr).
      exists p, B'. split_and!; try done. case_decide.
      * subst. assert (Bp = B) as -> by congruence.
        assert (InstList B' = InstList B ++ [i]) as ->
          by (unfold block_frame in Hfr; congruence).
        apply elem_of_app. by left.
      * apply block_frame_eq in Hfr as (_ & _ & ->). done.
  - intros b' B' HB'. pose proof (HB1 b' B' HB') as Hfr. case_decide.
    + subst. destruct (Ho4 b B HB) as (F & bl & HP & HFl & Hin).
      exists F, bl. split_and!; try done.
      unfold block_frame in Hfr. congruence.
    + destruct Hfr as (B0 & HB0 & Hfr).
      destruct (Ho4 b' B0 HB0) as (F & bl & HP & HFl & Hin).
      exists F, bl. split_and!; try done.
      apply block_frame_eq in Hfr as (<- & _ & _). done.
Qed.

Lemma push_back_inst_inv b i σ cfg σ' :
  push_back_inst b i σ cfg = Ok σ' →
  ∃ B I, Blocks σ !! b = Some B ∧ Insts σ !! i = Some I ∧
         Functions σ' = Functions σ ∧ Edges σ' = Edges σ ∧
         Insts σ' = <[i := set_ParentBB (Some b) I]> (Insts σ) ∧
         Blocks σ' = <[b := set_InstList (InstList B ++ [i]) B]> (Blocks σ).
Proof.
  unfold push_back_inst. intros (B & HB%deref_Ok_inv & Hr)%bind_Ok_inv.
  apply bind_Ok_inv in Hr as (I & HI%deref_Ok_inv & <-%ret_Ok_inv).
  exists B, I. by split_and!.
Qed.

Lemma push_back_inst_Ok b i σ cfg B I :
  Blocks σ !! b = Some B → Insts σ !! i = Some I →
  ∃ σ', push_back_inst b i σ cfg = Ok σ'.
Proof.
  intros HB HI. unfold push_back_inst.
  rewrite (bind_Ok _ _ _ _ (deref_Some _ _ cfg HB)).
  rewrite (bind_Ok _ _ _ _ (deref_Some _ _ cfg HI)). by eexists.
Qed.

Lemma push_back_inst_preds_ok b i σ cfg σ' :
  push_back_inst b i σ cfg = Ok σ' → preds_ok σ → preds_ok σ'.
Proof.
  intros (B & I & HB & HI & HF' & HE' & HI' & HB')%push_back_inst_inv Hok.
  unfold preds_ok. rewrite HE', HB'. by rewrite (fmap_insert_same _ _ _ B).
Qed.

Lemma preds_of_new_edge σ e s b l :
  preds_ok σ → Edges σ !! e = None → SuccessorBlock s = None →
  preds_of σ b l →
  preds_of (set_Edges (<[e := s]> (Edges σ)) σ) b l.
Proof.
  intros Hok He Hs Hp.
  assert (preds_ok (set_Edges (<[e := s]> (Edges σ)) σ)) as Hok0
    by (by apply preds_ok_new_edge).
  apply preds_of_chain; [done|].
  pose proof Hp as (hd & Hhd & Hc)%preds_of_chain; [|done].
  exists hd. split; [done|]. simpl.
  eapply is_chain_frame; [|done]. intros x Hx.
  rewrite lookup_insert_ne; [done|]. intros ->.
  destruct (is_chain_live _ _ _ _ _ _ Hc Hx) as (? & ? & _). congruence.
Qed.

(** The edges of a new terminator: each gets its owner and its target, and
    enters the predecessor list of its target at the front. *)
Lemma newSuccessors_inv t ets σ cfg σ' :
  preds_ok σ → NoDup ets.*1 → (∀ e, e ∈ ets.*1 → Edges σ !! e = None) →
  newSuccessors t ets σ cfg = Ok σ' →
  preds_ok σ' ∧ Functions σ' = Functions σ ∧ Insts σ' = Insts σ ∧
  block_frame <$> Blocks σ' = block_frame <$> Blocks σ ∧
  (∀ e, (ContainingInst <$> Edges σ') !! e =
        if decide (e ∈ ets.*1) then Some (Some t)
        else (ContainingInst <$> Edges σ) !! e) ∧
  (∀ e, e ∉ ets.*1 →
        SuccessorBlock <$> Edges σ' !! e = SuccessorBlock <$> Edges σ !! e) ∧
  (∀ e BB, (e, BB) ∈ ets → SuccessorBlock <$> Edges σ' !! e = Some BB) ∧
  (∀ b l, preds_of σ b l → preds_of σ' b (new_preds b ets l)).
Proof.
  revert σ. induction ets as [|[e BB] ets IH]; intros σ Hok Hnd Hfresh Hr.
  - simpl in Hr. apply ret_Ok_inv in Hr as <-. split_and!; try done.
    by intros e BB ?%elem_of_nil.
  - simpl in Hr. apply bind_Ok_inv in Hr as (σ1 & H1 & Hr).
    simpl in Hnd. apply NoDup_cons in Hnd as [He Hnd].
    assert (Edges σ !! e = None) as Hefresh
      by (apply Hfresh, list_elem_of_here).
    unfold newSuccessor in H1.
    set (σ0 := set_Edges (<[e := mkSucc (Some t) None None None]> (Edges σ)) σ)
      in *.
    assert (preds_ok σ0) as Hok0 by (by apply preds_ok_new_edge).
    destruct (setSuccessor_Ok_inv _ _ _ _ _ Hok0 H1)
      as (Hok1 & (HF1 & HI1 & HB1 & HE1) & (s' & Hs' & Ht') & Hoth & Hret).
    destruct (IH σ1 Hok1 Hnd)
      as (Hok' & HF' & HI' & HB' & HE' & Hoth' & Htg' & Hch'); [|done|].
    { intros x Hx. apply eq_None_not_Some. intros Hsome.
      apply (same_frame_edges_live σ0 σ1 x) in Hsome; [|done].
      unfold σ0 in Hsome. simpl in Hsome.
      apply lookup_insert_is_Some' in Hsome as [->|Hsome]; [done|].
      rewrite Hfresh in Hsome by (by apply list_elem_of_further).
      by destruct Hsome. }
    split_and!; try done.
    + by rewrite HF', HF1.
    + by rewrite HI', HI1.
    + by rewrite HB', HB1.
    + intros x. rewrite HE', HE1. unfold σ0. cbn [Edges set_Edges].
      rewrite fmap_insert, fmap_cons. cbn [ContainingInst fst].
      destruct (decide (x = e)) as [->|Hne].
      * rewrite lookup_insert_eq.
        rewrite (decide_True (P := e ∈ e :: ets.*1)) by apply list_elem_of_here.
        by destruct (decide (e ∈ ets.*1)).
      * rewrite lookup_insert_ne by done.
        destruct (decide (x ∈ ets.*1)) as [Hin|Hin].
        -- rewrite decide_True; [done|]. by apply list_elem_of_further.
        -- rewrite decide_False; [done|].
           intros [?|?]%elem_of_cons; done.
    + intros x Hx. rewrite fmap_cons in Hx. cbn [fst] in Hx.
      apply not_elem_of_cons in Hx as [Hne Hx].
      rewrite Hoth', Hoth by done. unfold σ0. simpl.
      by rewrite lookup_insert_ne.
    + intros x BB' [[= -> ->]|Hin]%elem_of_cons.
      * rewrite Hoth' by done. rewrite Hs'. simpl. by rewrite Ht'.
      * by apply Htg'.
    + intros b l Hp. cbn [new_preds foldl]. apply Hch'.
      assert (preds_of σ0 b l) as Hp0 by (by apply preds_of_new_edge).
      assert (Edges σ0 !! e = Some (mkSucc (Some t) None None None)) as Hs0
        by apply lookup_insert_eq.
      assert (e ∉ l) as Hel.
      { intros Hin. destruct (preds_of_live _ _ _ _ Hok0 Hp0 Hin) as (s0 & ? & ?).
        by simplify_eq. }
      destruct (decide (BB = None)) as [->|HBB].
      * pose proof (setSuccessor_same σ0 e _ cfg Hs0) as Hsame.
        cbn [SuccessorBlock] in Hsame. rewrite Hsame in H1. by simplify_eq.
      * pose proof (Hret _ Hs0 (λ H, HBB (eq_sym H)) b l Hp0) as Hp1.
        by rewrite filter_ne_absent in Hp1.
Qed.

(** A new terminator with its edges, appended to block [b]. *)
Lemma new_term_inv b t ets σ cfg σ' :
  preds_ok σ → Insts σ !! t = None → NoDup ets.*1 →
  (∀ e, e ∈ ets.*1 → Edges σ !! e = None) →
  (TermInst_create t ets σ ≫= push_back_inst b t) cfg = Ok σ' →
  ∃ B, Blocks σ !! b = Some B ∧ preds_ok σ' ∧
       Functions σ' = Functions σ ∧
       Insts σ' = <[t := mkInst (Some b) (TermInst ets.*1)]> (Insts σ) ∧
       block_frame <$> Blocks σ' =
         <[b := (Parent B, BBArgList B, InstList B ++ [t])]>
           (block_frame <$> Blocks σ) ∧
       (∀ e, (ContainingInst <$> Edges σ') !! e =
             if decide (e ∈ ets.*1) then Some (Some t)
             else (ContainingInst <$> Edges σ) !! e) ∧
       (∀ e, e ∉ ets.*1 →
             SuccessorBlock <$> Edges σ' !! e =
             SuccessorBlock <$> Edges σ !! e) ∧
       (∀ e BB, (e, BB) ∈ ets →
             SuccessorBlock <$> Edges σ' !! e = Some BB) ∧
       (∀ b' l, preds_of σ b' l → preds_of σ' b' (new_preds b' ets l)).
Proof.
  intros Hok Ht Hnd Hfresh (σ1 & Hc & Hp)%bind_Ok_inv.
  unfold TermInst_create in Hc.
  set (σ0 := newInst t (TermInst ets.*1) σ) in *.
  assert (preds_ok σ0) as Hok0 by done.
  destruct (newSuccessors_inv t ets σ0 cfg σ1 Hok0 Hnd Hfresh Hc)
    as (Hok1 & HF1 & HI1 & HB1 & HE1 & Hoth1 & Htg1 & Hch1).
  destruct (push_back_inst_inv _ _ _ _ _ Hp)
    as (B1 & I & HBb & HIt & HF' & HE' & HI' & HB').
  assert (I = mkInst None (TermInst ets.*1)) as ->.
  { rewrite HI1 in HIt. unfold σ0 in HIt. simpl in HIt.
    rewrite lookup_insert_eq in HIt. congruence. }
  assert (∃ B, Blocks σ !! b = Some B ∧ block_frame B = block_frame B1)
    as (B & HB & Hfr).
  { apply fmap_lookup_Some_inv. change (Blocks σ) with (Blocks σ0).
    by rewrite <- HB1, lookup_fmap, HBb. }
  exists B. split; [done|]. rewrite HE'. split_and!; try done.
  - by eapply push_back_inst_preds_ok.
  - by rewrite HF', HF1.
  - rewrite HI', HI1. unfold σ0. simpl. by rewrite insert_insert_eq.
  - rewrite HB', fmap_insert, HB1.
    apply block_frame_eq in Hfr as (-> & -> & ->). done.
  - intros b' l Hpo. destruct (Hch1 b' l Hpo) as (B' & HB'' & Hw).
    unfold preds_of. rewrite HB'. destruct (decide (b' = b)) as [->|Hne].
    + rewrite lookup_insert_eq. eexists. split; [done|].
      simplify_eq. unfold pred_edges in *. by rewrite HE'.
    + rewrite lookup_insert_ne by done. exists B'. split; [done|].
      unfold pred_edges in *. by rewrite HE'.
Qed.

Lemma new_term_ok b t ets σ cfg σ' :
  Insts σ !! t = None → NoDup ets.*1 →
  (∀ e, e ∈ ets.*1 → Edges σ !! e = None) →
  (TermInst_create t ets σ ≫= push_back_inst b t) cfg = Ok σ' →
  store_ok σ → store_ok σ'.
Proof.
  intros Ht Hnd Hfresh Hr [Hp Ho].
  destruct (new_term_inv _ _ _ _ _ _ Hp Ht Hnd Hfresh Hr)
    as (B & HB & Hp' & HF & HI & HBl & HE & _).
  split; [done|]. by eapply (owner_ok_push σ σ' b B t (TermInst ets.*1)).
Qed.

Lemma new_inst_ok b i σ cfg σ' :
  Insts σ !! i = None →
  push_back_inst b i (newInst i Plain σ) cfg = Ok σ' →
  store_ok σ → store_ok σ'.
Proof.
  intros Hi Hr [Hp Ho].
  pose proof (push_back_inst_preds_ok _ _ _ _ _ Hr) as Hp'.
  destruct (push_back_inst_inv _ _ _ _ _ Hr)
    as (B & I & HB & HI & HF' & HE' & HI' & HB').
  simpl in *. rewrite lookup_insert_eq in HI. simplify_eq.
  split; [by apply Hp'|].
  eapply (owner_ok_push σ σ' b B i Plain); try done.
  - by intros e ?%elem_of_nil.
  - rewrite HI'. simpl. by rewrite insert_insert_eq.
  - by rewrite HB', fmap_insert.
  - intros e. rewrite HE'. rewrite decide_False; [done|].
    by intros ?%elem_of_nil.
Qed.

(** ** Splitting and the invariants *)

Lemma set_parents_lookup b moved m i :
  set_parents b moved m !! i =
    (if decide (i ∈ moved) then set_ParentBB (Some b) else id) <$> m !! i.
Proof.
  unfold set_parents. induction moved as [|a moved IH].
  - rewrite decide_False by (by intros ?%elem_of_nil).
    by rewrite option_fmap_id.
  - cbn [foldr]. rewrite lookup_alter. destruct (decide (a = i)) as [->|Hne].
    + rewrite decide_True by apply list_elem_of_here.
      rewrite IH. destruct (m !! i); simpl; [|by case_decide].
      by case_decide.
    + rewrite IH. destruct (decide (i ∈ moved)) as [Hin|Hin].
      * by rewrite decide_True by (by apply list_elem_of_further).
      * rewrite decide_False; [done|]. intros [?|?]%elem_of_cons; done.
Qed.

Lemma insert_after_inv b new bl cfg bl' :
  insert_after b new bl cfg = Ok bl' →
  ∃ pre post, bl = pre ++ b :: post ∧ (b ∉ pre) ∧ bl' = pre ++ b :: new :: post.
Proof.
  unfold insert_after. destruct (list_find _ bl) as [[k x]|] eqn:Hf; [|done].
  intros <-%ret_Ok_inv.
  apply list_find_Some in Hf as (Hk & -> & Hpre).
  exists (take k bl), (drop (S k) bl). split_and!.
  - by rewrite <- (take_drop_middle bl k b) at 1.
  - intros (j & Hj)%list_elem_of_lookup.
    apply lookup_take_Some in Hj as [Hj Hlt]. by eapply Hpre.
  - rewrite (take_S_r _ _ _ Hk). by rewrite <- app_assoc.
Qed.

Lemma insert_after_Ok b new pre post cfg :
  b ∉ pre →
  insert_after b new (pre ++ b :: post) cfg = Ok (pre ++ b :: new :: post).
Proof.
  intros Hpre. unfold insert_after.
  assert (list_find (λ x, x = b) (pre ++ b :: post) = Some (length pre, b))
    as ->.
  { apply list_find_Some. split_and!.
    - by rewrite list_lookup_middle.
    - done.
    - intros j y Hj Hlt ->. apply Hpre.
      rewrite lookup_app_l in Hj by done. by eapply list_elem_of_lookup_2. }
  unfold ret. f_equal.
  rewrite take_app_ge, drop_app_ge by lia.
  replace (S (length pre) - length pre) with 1 by lia.
  simpl. rewrite take_0, drop_0. by rewrite <- app_assoc.
Qed.

Lemma splitBasicBlock_inv b pos new σ cfg r :
  splitBasicBlock b pos new σ cfg = Ok r →
  ∃ B F pre post,
    Blocks σ !! b = Some B ∧ Parent B = Some F ∧
    Functions σ !! F = Some (pre ++ b :: post) ∧ (b ∉ pre) ∧
    pos ≤ length (InstList B) ∧
    r.1 = new ∧
    Functions r.2 = <[F := pre ++ b :: new :: post]> (Functions σ) ∧
    Insts r.2 = set_parents new (drop pos (InstList B)) (Insts σ) ∧
    Edges r.2 = Edges σ ∧
    Blocks r.2 = <[new := mkBB (Some F) None [] (drop pos (InstList B))]>
                   (<[b := set_InstList (take pos (InstList B)) B]> (Blocks σ)).
Proof.
  unfold splitBasicBlock. intros (B & HB%deref_Ok_inv & Hr)%bind_Ok_inv.
  apply bind_Ok_inv in Hr as (F & HF%deref_Ok_inv & Hr).
  apply bind_Ok_inv in Hr as (bl & Hbl%deref_Ok_inv & Hr).
  apply bind_Ok_inv in Hr as (bl' & Hbl' & Hr).
  apply insert_after_inv in Hbl' as (pre & post & -> & Hpre & ->).
  case_bool_decide as Hpos; [|done]. apply ret_Ok_inv in Hr as <-.
  exists B, F, pre, post. by split_and!.
Qed.

Lemma splitBasicBlock_Ok b pos new σ cfg B F pre post :
  Blocks σ !! b = Some B → Parent B = Some F →
  Functions σ !! F = Some (pre ++ b :: post) → b ∉ pre →
  pos ≤ length (InstList B) →
  ∃ σ', splitBasicBlock b pos new σ cfg = Ok (new, σ').
Proof.
  intros HB HF Hbl Hpre Hpos. unfold splitBasicBlock.
  rewrite (bind_Ok _ _ _ _ (deref_Some _ _ cfg HB)).
  rewrite (bind_Ok _ _ _ _ (deref_Some _ _ cfg HF)).
  rewrite (bind_Ok _ _ _ _ (deref_Some _ _ cfg Hbl)).
  rewrite (bind_Ok _ _ _ _ (insert_after_Ok b new pre post cfg Hpre)).
  rewrite bool_decide_eq_true_2 by done. by eexists.
Qed.

Lemma splitBasicBlock_preds_ok b pos new σ cfg r :
  Blocks σ !! new = None → splitBasicBlock b pos new σ cfg = Ok r →
  preds_ok σ → preds_ok r.2.
Proof.
  intros Hnew Hr Hok.
  destruct (splitBasicBlock_inv _ _ _ _ _ _ Hr)
    as (B & F & pre & post & HB & HP & HF & Hpre & Hpos & _ & _ & _ & HE' & HB').
  unfold preds_ok. rewrite HE', HB', fmap_insert.
  rewrite (fmap_insert_same _ _ _ B) by done. simpl.
  apply preds_ok_new_block; [done|]. by rewrite lookup_fmap, Hnew.
Qed.

Lemma splitBasicBlock_owner_ok b pos new σ cfg r :
  Blocks σ !! new = None → splitBasicBlock b pos new σ cfg = Ok r →
  owner_ok σ → owner_ok r.2.
Proof.
  intros Hnew Hr (Ho1 & Ho2 & Ho3 & Ho4).
  destruct (splitBasicBlock_inv _ _ _ _ _ _ Hr)
    as (B & F & pre & post & HB & HP & HF & Hpre & Hpos & _ &
        HF' & HI' & HE' & HB').
  assert (new ≠ b) as Hnb by congruence.
  assert (∀ i I', Insts r.2 !! i = Some I' →
            ∃ I, Insts σ !! i = Some I ∧ Kind I' = Kind I ∧
                 ParentBB I' = if decide (i ∈ drop pos (InstList B))
                               then Some new else ParentBB I) as Hinst.
  { intros i I'. rewrite HI', set_parents_lookup.
    destruct (Insts σ !! i) as [I|]; [|done]. simpl. intros [= <-].
    exists I. by case_decide. }
  assert (∀ i I, Insts σ !! i = Some I →
            ∃ I', Insts r.2 !! i = Some I' ∧ Kind I' = Kind I) as Hinst'.
  { intros i I Hi. rewrite HI', set_parents_lookup, Hi. simpl.
    eexists. split; [done|]. by case_decide. }
  unfold owner_ok. rewrite HE'. split_and!.
  - intros e s Hs. destruct (Ho1 e s Hs) as (t & I & Hci & Ht & Hin).
    destruct (Hinst' t I Ht) as (I' & Ht' & Hk).
    exists t, I'. split_and!; try done. unfold getSuccessors in *.
    by rewrite Hk.
  - intros t I' e Ht' Hin. destruct (Hinst t I' Ht') as (I & Ht & Hk & _).
    apply (Ho2 t I e Ht). unfold getSuccessors in *. by rewrite <- Hk.
  - intros i I' Hi'. destruct (Hinst i I' Hi') as (I & Hi & _ & Hp).
    destruct (Ho3 i I Hi) as (p & Bp & Hpar & HBp & Hin).
    rewrite HB'. case_decide as Hmoved.
    + exists new, (mkBB (Some F) None [] (drop pos (InstList B))).
      by rewrite lookup_insert_eq.
    + destruct (decide (p = b)) as [->|Hpb].
      * exists b, (set_InstList (take pos (InstList B)) B).
        rewrite lookup_insert_ne, lookup_insert_eq by done.
        split_and!; try done; [congruence|]. simpl. simplify_eq.
        rewrite <- (take_drop pos (InstList B)) in Hin.
        apply elem_of_app in Hin as [?|?]; done.
      * exists p, Bp. rewrite !lookup_insert_ne by congruence.
        split_and!; try done. congruence.
  - intros b' B'. rewrite HB', HF'.
    assert (∀ x, x ∈ pre ++ b :: post → x ∈ pre ++ b :: new :: post) as Hsub.
    { intros x. rewrite !elem_of_app, !elem_of_cons. tauto. }
    destruct (decide (b' = new)) as [->|Hne].
    { rewrite lookup_insert_eq. intros [= <-]. simpl.
      exists F, (pre ++ b :: new :: post). rewrite lookup_insert_eq.
      split_and!; try done. rewrite elem_of_app, !elem_of_cons. tauto. }
    rewrite lookup_insert_ne by done.
    assert (∀ B0, Blocks σ !! b' = Some B0 →
              ∃ F0 bl0, Parent B0 = Some F0 ∧
                <[F := pre ++ b :: new :: post]> (Functions σ) !! F0 = Some bl0 ∧
                b' ∈ bl0) as Hgen.
    { intros B0 HB0. destruct (Ho4 b' B0 HB0) as (F0 & bl0 & HP0 & HF0 & Hin0).
      destruct (decide (F0 = F)) as [->|HneF].
      - exists F, (pre ++ b :: new :: post). rewrite lookup_insert_eq.
        split_and!; try done. apply Hsub. congruence.
      - exists F0, bl0. by rewrite lookup_insert_ne. }
    destruct (decide (b' = b)) as [->|Hne'].
    + rewrite lookup_insert_eq. intros [= <-]. simpl. by apply Hgen.
    + rewrite lookup_insert_ne by done. apply Hgen.
Qed.

Lemma splitBasicBlock_ok b pos new σ cfg r :
  Blocks σ !! new = None → splitBasicBlock b pos new σ cfg = Ok r →
  store_ok σ → store_ok r.2.
Proof.
  intros Hnew Hr [Hp Ho]. split.
  - by eapply splitBasicBlock_preds_ok.
  - by eapply splitBasicBlock_owner_ok.
Qed.

Lemma splitBasicBlockAndBranch_inv b pos new t e σ cfg r :
  splitBasicBlockAndBranch b pos new t e σ cfg = Ok r →
  ∃ σ1, splitBasicBlock b pos new σ cfg = Ok (new, σ1) ∧ r.1 = new ∧
        (TermInst_create t [(e, Some new)] σ1 ≫= push_back_inst b t) cfg
          = Ok r.2.
Proof.
  unfold splitBasicBlockAndBranch, BranchInst_create.
  intros ([new' σ1] & Hs & Hr)%bind_Ok_inv.
  pose proof (splitBasicBlock_inv _ _ _ _ _ _ Hs) as
    (_ & _ & _ & _ & _ & _ & _ & _ & _ & Hn & _). simpl in Hn. subst new'.
  apply bind_Ok_inv in Hr as (σ2 & H2 & Hr).
  apply bind_Ok_inv in Hr as (σ3 & H3 & <-%ret_Ok_inv).
  exists σ1. split_and!; try done. simpl in *.
  by rewrite (bind_Ok _ _ _ _ H2).
Qed.

Lemma splitBasicBlockAndBranch_ok b pos new t e σ cfg r :
  Blocks σ !! new = None → Insts σ !! t = None → Edges σ !! e = None →
  splitBasicBlockAndBranch b pos new t e σ cfg = Ok r →
  store_ok σ → store_ok r.2.
Proof.
  intros Hnew Ht He (σ1 & Hs & _ & Hb)%splitBasicBlockAndBranch_inv Hok.
  pose proof (splitBasicBlock_ok _ _ _ _ _ _ Hnew Hs Hok) as Hok1.
  destruct (splitBasicBlock_inv _ _ _ _ _ _ Hs)
    as (B & F & pre & post & _ & _ & _ & _ & _ & _ & _ & HI1 & HE1 & _).
  simpl in *.
  apply (new_term_ok b t [(e, Some new)] σ1 cfg r.2); [| | |done|done].
  - rewrite HI1, set_parents_lookup, Ht. done.
  - simpl. apply NoDup_singleton.
  - intros x ->%list_elem_of_singleton. by rewrite HE1.
Qed.

(** ** Destruction and the invariants *)

(** An edge without target can go away. *)
Lemma preds_ok_delete_edge E H e s :
  preds_ok_but None E H → E !! e = Some s → SuccessorBlock s = None →
  preds_ok_but None (delete e E) H.
Proof.
  intros [Hok Hlive] He Hs. split.
  - intros b hd Hhd. destruct (Hok b hd Hhd) as (l & Hnd & Hc & Hco & Hx).
    exists l. split_and!; try done.
    + eapply is_chain_frame; [|done]. intros x Hx'.
      rewrite lookup_delete_ne; [done|]. intros ->.
      destruct (is_chain_live _ _ _ _ _ _ Hc Hx') as (? & ? & ?). congruence.
    + intros x sx Hsx. apply lookup_delete_Some in Hsx as [_ Hsx].
      by apply (Hco x sx).
  - intros x sx b Hsx. apply lookup_delete_Some in Hsx as [_ Hsx].
    by apply (Hlive x sx).
Qed.

Lemma deleteSuccessors_inv es σ cfg σ' :
  preds_ok σ → deleteSuccessors es σ cfg = Ok σ' →
  preds_ok σ' ∧ Functions σ' = Functions σ ∧ Insts σ' = Insts σ ∧
  block_frame <$> Blocks σ' = block_frame <$> Blocks σ ∧
  (∀ e, (ContainingInst <$> Edges σ') !! e =
        if decide (e ∈ es) then None else (ContainingInst <$> Edges σ) !! e).
Proof.
  revert σ. induction es as [|e es IH]; intros σ Hok Hr.
  - simpl in Hr. apply ret_Ok_inv in Hr as <-. by split_and!.
  - simpl in Hr. apply bind_Ok_inv in Hr as (σ1 & H1 & Hr).
    unfold deleteSuccessor in H1.
    apply bind_Ok_inv in H1 as (σ0 & H0 & <-%ret_Ok_inv).
    destruct (setSuccessor_Ok_inv _ _ _ _ _ Hok H0)
      as (Hok0 & (HF0 & HI0 & HB0 & HE0) & (s' & Hs' & Ht') & _).
    assert (preds_ok (set_Edges (delete e (Edges σ0)) σ0)) as Hok1
      by (by eapply preds_ok_delete_edge).
    destruct (IH _ Hok1 Hr) as (Hok' & HF' & HI' & HB' & HE').
    simpl in *. split_and!; try done.
    + by rewrite HF', HF0.
    + by rewrite HI', HI0.
    + by rewrite HB', HB0.
    + intros x. rewrite HE', fmap_delete, HE0.
      destruct (decide (x = e)) as [->|Hne].
      * rewrite lookup_delete_eq.
        rewrite (decide_True (P := e ∈ e :: es)) by apply list_elem_of_here.
        by case_decide.
      * rewrite lookup_delete_ne by done.
        destruct (decide (x ∈ es)) as [Hin|Hin].
        -- rewrite decide_True; [done|]. by apply list_elem_of_further.
        -- rewrite decide_False; [done|].
           intros [?|?]%elem_of_cons; done.
Qed.

Lemma eraseInst_ok i σ cfg σ' :
  eraseInst i σ cfg = Ok σ' → store_ok σ → store_ok σ'.
Proof.
  unfold eraseInst. intros (I & HI%deref_Ok_inv & Hr)%bind_Ok_inv [Hp Ho].
  apply bind_Ok_inv in Hr as (p & Hpar%deref_Ok_inv & Hr).
  apply bind_Ok_inv in Hr as (B & HB%deref_Ok_inv & Hr).
  apply bind_Ok_inv in Hr as (σ2 & Hd & <-%ret_Ok_inv).
  set (B1 := set_InstList (filter (λ x, x ≠ i) (InstList B)) B) in *.
  set (σ1 := set_Blocks (<[p := B1]> (Blocks σ)) σ) in *.
  assert (preds_ok σ1) as Hp1 by (by apply (preds_ok_update_block _ _ B)).
  destruct (deleteSuccessors_inv _ _ _ _ Hp1 Hd)
    as (Hp2 & HF2 & HI2 & HB2 & HE2).
  destruct Ho as (Ho1 & Ho2 & Ho3 & Ho4).
  assert (∀ b' B0, Blocks σ !! b' = Some B0 →
            ∃ B', Blocks σ2 !! b' = Some B' ∧ Parent B' = Parent B0 ∧
                  ∀ x, x ≠ i → x ∈ InstList B0 → x ∈ InstList B') as Hfwd.
  { intros b' B0 HB0.
    assert (∃ B', Blocks σ1 !! b' = Some B' ∧ Parent B' = Parent B0 ∧
                  ∀ x, x ≠ i → x ∈ InstList B0 → x ∈ InstList B')
      as (B' & HB' & HP' & Hin').
    { unfold σ1. simpl. destruct (decide (b' = p)) as [->|Hne].
      - rewrite lookup_insert_eq. exists B1. simplify_eq.
        split_and!; try done. intros x Hx Hin. by apply list_elem_of_filter.
      - rewrite lookup_insert_ne by done. by exists B0. }
    destruct (fmap_lookup_Some_inv block_frame (Blocks σ2) b' (block_frame B'))
      as (B'' & HB'' & Hfr); [by rewrite HB2, lookup_fmap, HB'|].
    apply block_frame_eq in Hfr as (HP'' & _ & HI'').
    exists B''. split_and!; try done; [congruence|].
    intros x Hx Hin. rewrite HI''. by apply Hin'. }
  assert (∀ b' B', Blocks σ2 !! b' = Some B' →
            ∃ B0, Blocks σ !! b' = Some B0 ∧ Parent B' = Parent B0) as Hbwd.
  { intros b' B' HB'.
    destruct (fmap_lookup_Some_inv block_frame (Blocks σ1) b' (block_frame B'))
      as (B'' & HB'' & Hfr); [by rewrite <- HB2, lookup_fmap, HB'|].
    apply block_frame_eq in Hfr as (HP'' & _ & _).
    unfold σ1 in HB''. simpl in HB''.
    destruct (decide (b' = p)) as [->|Hne].
    - rewrite lookup_insert_eq in HB''. exists B. split; [done|].
      simplify_eq. done.
    - rewrite lookup_insert_ne in HB'' by done. exists B''.
      split; [done|]. congruence. }
  split; [done|]. unfold owner_ok. simpl. rewrite HF2, HI2. simpl.
  split_and!.
  - intros e s Hs. pose proof (HE2 e) as He.
    rewrite lookup_fmap, Hs in He. simpl in He. case_decide as Hin; [done|].
    symmetry in He. apply fmap_lookup_Some_inv in He as (s0 & Hs0 & Hci).
    destruct (Ho1 e s0 Hs0) as (t & It & Ht & HIt & Hint).
    exists t, It. split_and!; try done; [congruence|].
    rewrite lookup_delete_ne; [done|]. intros ->. simplify_eq. done.
  - intros t It e Ht Hint. apply lookup_delete_Some in Ht as [Hne Ht].
    destruct (Ho2 t It e Ht Hint) as (s0 & Hs0 & Hci).
    apply fmap_lookup_Some_inv. rewrite HE2, decide_False.
    + change (Edges σ1) with (Edges σ). by rewrite lookup_fmap, Hs0, <- Hci.
    + intros Hin. destruct (Ho2 i I e HI Hin) as (s1 & Hs1 & Hci1).
      congruence.
  - intros i' I' Hi'. apply lookup_delete_Some in Hi' as [Hne Hi'].
    destruct (Ho3 i' I' Hi') as (p' & Bp & Hp' & HBp & Hin).
    destruct (Hfwd p' Bp HBp) as (B' & HB' & _ & Hin').
    exists p', B'. split_and!; try done. by apply Hin'.
  - intros b' B' HB'. destruct (Hbwd b' B' HB') as (B0 & HB0 & HP0).
    destruct (Ho4 b' B0 HB0) as (F & bl & HP & HFl & Hin).
    exists F, bl. split_and!; try done. congruence.
Qed.

(** Every operation preserves the invariants, hence they hold in every
    reachable store. *)
Lemma step_store_ok σ σ' : step σ σ' → store_ok σ → store_ok σ'.
Proof.
  intros (op & cfg & Hfr & Hr) Hok. destruct op; simpl in *.
  - by eapply newFunction_ok.
  - by eapply newBlock_ok.
  - by eapply new_inst_ok.
  - destruct Hfr as (Ht & Hnd & He). eapply new_term_ok; try done.
    by apply Forall_forall.
  - destruct Hok as [Hp Ho].
    destruct (setSuccessor_Ok_inv _ _ _ _ _ Hp Hr) as (Hp' & Hsf & _).
    split; [done|]. by eapply same_frame_owner_ok.
  - by eapply eraseInst_ok.
  - apply bind_Ok_inv in Hr as (r & Hs & <-%ret_Ok_inv).
    by eapply splitBasicBlock_ok.
  - destruct Hfr as (Hn & Ht & He).
    apply bind_Ok_inv in Hr as (r & Hs & <-%ret_Ok_inv).
    by eapply splitBasicBlockAndBranch_ok.
  - eapply on_block_ok; [|done..]. intros B0 B'. apply arg_op_shape.
  - eapply on_block_ok; [|done..]. intros B0 B'. apply arg_op_shape.
  - eapply on_block_ok; [|done..]. intros B0 B'. apply arg_op_shape.
Qed.

Lemma empty_store_ok : store_ok empty_store.
Proof.
  split.
  - split.
    + intros b hd. unfold empty_store. simpl.
      by rewrite fmap_empty, lookup_empty.
    + intros e s b. unfold empty_store. simpl. by rewrite lookup_empty.
  - unfold owner_ok, empty_store. simpl. split_and!;
      intros *; by rewrite lookup_empty.
Qed.

Lemma reachable_store_ok σ : reachable σ → store_ok σ.
Proof.
  induction 1 as [|σ σ' _ IH Hstep]; [apply empty_store_ok|].
  by eapply step_store_ok.
Qed.

Lemma exec_reachable ops σ σ' :
  reachable σ → exec ops σ = Some σ' → reachable σ'.
Proof.
  revert σ. induction ops as [|op ops IH]; intros σ Hr; simpl.
  - by intros [= <-].
  - case_decide as Hfr; [|done].
    destruct (run op σ Debug) as [σ1| |] eqn:Hrun; try done.
    apply IH. eapply reachable_step; [done|]. by exists op, Debug.
Qed.

(** * Predecessor and successor duality *)

Lemma preds_of_fun σ b l l' : preds_of σ b l → preds_of σ b l' → l = l'.
Proof. intros (B & HB & Hl) (B' & HB' & Hl'). congruence. Qed.

Lemma getSuccessors_isa I e : e ∈ getSuccessors I → isa_TermInst I = true.
Proof.
  unfold getSuccessors, isa_TermInst. destruct (Kind I); [|done].
  by intros ?%elem_of_nil.
Qed.

(** C1. In every reachable store and for every block [b], the predecessor
    traversal that starts in the block's [PredList] ends, visits no edge
    twice, and visits exactly the edges that belong to the successor array of
    some terminator and have target [b].  Retargeting an edge [E] to another
    block [b'] is one call of the assignment: it returns, in the store it
    returns [E] has left the list of its old target and is at the front of
    the list of [b'], the other edges are where they were, and [E] is in the
    predecessor list of [b'] and of no other block. *)
Theorem pred_list_duality σ :
  reachable σ →
  (∀ b B, Blocks σ !! b = Some B →
     ∃ l, pred_edges σ B = Some l ∧ NoDup l ∧
          ∀ E, E ∈ l ↔
               ∃ s t I, Edges σ !! E = Some s ∧ SuccessorBlock s = Some b ∧
                        ContainingInst s = Some t ∧ Insts σ !! t = Some I ∧
                        isa_TermInst I = true ∧ E ∈ getSuccessors I) ∧
  (∀ E s b' cfg,
     Edges σ !! E = Some s → SuccessorBlock s ≠ Some b' →
     is_Some (Blocks σ !! b') →
     ∃ σ', setSuccessor E (Some b') σ cfg = Ok σ' ∧ reachable σ' ∧
           (∀ b l, preds_of σ b l →
              preds_of σ' b ((if decide (b = b') then [E] else []) ++
                             filter (λ x, x ≠ E) l)) ∧
           (∀ b l', preds_of σ' b l' → (E ∈ l' ↔ b = b'))).
Proof.
  intros Hreach. pose proof (reachable_store_ok σ Hreach) as [Hp Ho]. split.
  - intros b B HB. destruct (preds_of_total σ b B Hp HB) as (l & Hl & Hnd & Hin).
    exists l. split_and!; try done. intros E. rewrite Hin. split.
    + intros (s & Hs & Hb).
      destruct (proj1 Ho E s Hs) as (t & I & Hci & Ht & HE).
      exists s, t, I. split_and!; try done. by eapply getSuccessors_isa.
    + intros (s & t & I & Hs & Hb & _). by eauto.
  - intros E s b' cfg Hs Hne Hlive.
    destruct (setSuccessor_retarget σ E s (Some b') cfg Hp Hs Hne)
      as (σ' & Hr & Hp' & Hfr & Hs' & Hoth & Hch).
    { intros _. destruct (proj1 Ho E s Hs) as (t & _ & -> & _). by eauto. }
    { by intros b [= <-]. }
    assert (∀ b l, preds_of σ b l →
              preds_of σ' b ((if decide (b = b') then [E] else []) ++
                             filter (λ x, x ≠ E) l)) as Hch'.
    { intros b l Hl. specialize (Hch b l Hl).
      destruct (decide (b = b')) as [->|Hbb].
      - by rewrite decide_True in Hch.
      - rewrite decide_False in Hch; [done|]. congruence. }
    exists σ'. split_and!; try done.
    + eapply reachable_step; [done|]. by exists (OpSetSuccessor E (Some b')), cfg.
    + intros b l' Hl'. pose proof Hl' as (B' & HB' & _).
      destruct (proj1 (same_frame_blocks_live _ _ b Hfr)) as [B HB]; [by eauto|].
      destruct (preds_of_total σ b B Hp HB) as (l & Hl & _).
      assert (preds_of σ b l) as Hpl by (by exists B).
      rewrite (preds_of_fun _ _ _ _ Hl' (Hch' b l Hpl)).
      rewrite elem_of_app, list_elem_of_filter. case_decide as Hbb.
      * split; [done|]. intros _. left. apply list_elem_of_here.
      * split; [|done]. intros [?%elem_of_nil|[? _]]; done.
Qed.

(** * Single predecessor and single successor *)

Lemma pred_next_Ok σ e s cfg :
  Edges σ !! e = Some s → pred_next σ (Some e) cfg = Ok (Next s).
Proof.
  intros Hs. unfold pred_next.
  rewrite bool_decide_eq_true_2 by eauto.
  rewrite (bind_Ok _ _ _ _ (assert_true cfg)).
  rewrite (bind_Ok _ _ _ e) by done.
  by rewrite (bind_Ok _ _ _ _ (deref_Some _ _ cfg Hs)).
Qed.

Lemma pred_deref_Ok σ e s t I cfg :
  Edges σ !! e = Some s → ContainingInst s = Some t → Insts σ !! t = Some I →
  pred_deref σ (Some e) cfg = Ok (ParentBB I).
Proof.
  intros Hs Ht HI. unfold pred_deref.
  rewrite bool_decide_eq_true_2 by eauto.
  rewrite (bind_Ok _ _ _ _ (assert_true cfg)).
  rewrite (bind_Ok _ _ _ e) by done.
  rewrite (bind_Ok _ _ _ _ (deref_Some _ _ cfg Hs)).
  rewrite (bind_Ok _ _ _ _ (deref_Some _ _ cfg Ht)).
  by rewrite (bind_Ok _ _ _ _ (deref_Some _ _ cfg HI)).
Qed.

Lemma getSinglePredecessor_chain σ b B l cfg :
  owner_ok σ → is_chain (Edges σ) b (PredListOf b) (PredList B) l →
  match l with
  | [e] => ∃ s t I p,
      Edges σ !! e = Some s ∧ ContainingInst s = Some t ∧
      Insts σ !! t = Some I ∧ ParentBB I = Some p ∧
      getSinglePredecessor σ B cfg = Ok (Some p)
  | _ => getSinglePredecessor σ B cfg = Ok None
  end.
Proof.
  intros Ho Hc. unfold getSinglePredecessor, pred_empty, pred_begin, pred_end.
  destruct l as [|e l].
  - simpl in Hc. by rewrite Hc.
  - simpl in Hc. destruct Hc as (Hhd & s & Hs & _ & _ & Hc).
    rewrite Hhd. rewrite bool_decide_eq_false_2 by done.
    rewrite (bind_Ok _ _ _ _ (pred_next_Ok _ _ _ cfg Hs)).
    destruct l as [|e2 l].
    + simpl in Hc. rewrite Hc. rewrite bool_decide_eq_false_2 by naive_solver.
      destruct (proj1 Ho e s Hs) as (t & I & Hci & Ht & _).
      destruct (proj1 (proj2 (proj2 Ho)) t I Ht) as (p & _ & Hp & _).
      exists s, t, I, p. split_and!; try done.
      rewrite <- Hp. by eapply pred_deref_Ok.
    + destruct Hc as (-> & _). by rewrite bool_decide_eq_true_2.
Qed.

Lemma getSingleSuccessor_edges σ B t I cfg :
  owner_ok σ →
  last (InstList B) = Some t → Insts σ !! t = Some I → isa_TermInst I = true →
  match getSuccessors I with
  | [e] => ∃ s, Edges σ !! e = Some s ∧
                getSingleSuccessor σ B cfg = Ok (SuccessorBlock s)
  | _ => getSingleSuccessor σ B cfg = Ok None
  end.
Proof.
  intros Ho Hl HI Hk.
  pose proof (getSuccs_Ok σ B cfg t I Hl HI Hk) as HS.
  assert (succ_empty σ B cfg =
          Ok (match getSuccessors I with [] => true | _ => false end)) as Hemp
    by (unfold succ_empty; by rewrite (bind_Ok _ _ _ _ HS)).
  assert (succ_begin σ B cfg = Ok (getSuccessors I, 0)) as Hbeg
    by (unfold succ_begin; by rewrite (bind_Ok _ _ _ _ HS)).
  assert (succ_end σ B cfg = Ok (getSuccessors I, length (getSuccessors I)))
    as Hend by (unfold succ_end; by rewrite (bind_Ok _ _ _ _ HS)).
  unfold getSingleSuccessor.
  rewrite (bind_Ok _ _ _ _ Hemp).
  destruct (getSuccessors I) as [|e [|e2 ss]] eqn:Hss.
  - done.
  - destruct (proj1 (proj2 Ho) t I e HI) as (s & Hs & _).
    { rewrite Hss. apply list_elem_of_here. }
    exists s. split; [done|].
    rewrite (bind_Ok _ _ _ _ Hbeg), (bind_Ok _ _ _ _ Hend).
    rewrite bool_decide_eq_false_2 by (intros Hne; by apply Hne).
    rewrite (bind_Ok _ _ _ _ Hbeg).
    unfold succ_deref. simpl.
    rewrite (bind_Ok _ _ _ e) by done.
    by rewrite (bind_Ok _ _ _ _ (deref_Some _ _ cfg Hs)).
  - rewrite (bind_Ok _ _ _ _ Hbeg), (bind_Ok _ _ _ _ Hend).
    by rewrite bool_decide_eq_true_2 by (unfold succ_next; simpl; congruence).
Qed.

(** C4. In a store that satisfies the invariants, [getSinglePredecessor]
    returns a block exactly when the predecessor list of the block holds
    exactly one edge, and the block it returns is the one that holds the
    terminator owning that edge; with no or with several predecessor edges
    it returns null.  On a block that ends in a terminator (every
    well-formed block does), [getSingleSuccessor] returns the block the only
    successor edge of the terminator points to when there is exactly one
    edge, and null otherwise. *)
Theorem single_pred_succ σ b B cfg :
  store_ok σ → Blocks σ !! b = Some B →
  (∃ l, pred_edges σ B = Some l ∧
        match l with
        | [e] => ∃ s t I p,
            Edges σ !! e = Some s ∧ ContainingInst s = Some t ∧
            Insts σ !! t = Some I ∧ ParentBB I = Some p ∧
            getSinglePredecessor σ B cfg = Ok (Some p)
        | _ => getSinglePredecessor σ B cfg = Ok None
        end) ∧
  (∀ t I, last (InstList B) = Some t → Insts σ !! t = Some I →
          isa_TermInst I = true →
          match getSuccessors I with
          | [e] => ∃ s, Edges σ !! e = Some s ∧
                        getSingleSuccessor σ B cfg = Ok (SuccessorBlock s)
          | _ => getSingleSuccessor σ B cfg = Ok None
          end).
Proof.
  intros [Hp Ho] HB. split.
  - assert ((PredList <$> Blocks σ) !! b = Some (PredList B)) as Hhd
      by (by rewrite lookup_fmap, HB).
    destruct (proj1 Hp b _ Hhd) as (l & Hnd & Hc & _).
    exists l. split; [by eapply pred_walk_chain_size|].
    by eapply getSinglePredecessor_chain.
  - intros t I. by apply getSingleSuccessor_edges.
Qed.

(** * Splitting a block *)

Lemma drop_snoc_lt {A} (body : list A) t pos :
  pos ≤ length body → drop pos (body ++ [t]) = drop pos body ++ [t].
Proof. intros. by rewrite drop_app_le. Qed.

Lemma split_kinds b pos new σ cfg r :
  splitBasicBlock b pos new σ cfg = Ok r →
  ∀ i, Kind <$> Insts r.2 !! i = Kind <$> Insts σ !! i.
Proof.
  intros (B & F & pre & post & _ & _ & _ & _ & _ & _ & _ & HI & _)
    %splitBasicBlock_inv i.
  rewrite HI, set_parents_lookup. destruct (Insts σ !! i); simpl; [|done].
  by case_decide.
Qed.

Lemma kinds_is_terminator σ σ' i :
  Kind <$> Insts σ' !! i = Kind <$> Insts σ !! i →
  is_terminator σ' i ↔ is_terminator σ i.
Proof.
  intros Hk. unfold is_terminator, isa_TermInst.
  destruct (Insts σ' !! i) as [I'|], (Insts σ !! i) as [I|];
    simpl in Hk; try done.
  - injection Hk as Hk. split.
    + intros (x & [= <-] & Hx). exists I. split; [done|]. by rewrite <- Hk.
    + intros (x & [= <-] & Hx). exists I'. split; [done|]. by rewrite Hk.
Qed.

(** C2. Splitting a well-formed block [b] at a position [pos] that
    designates one of its instructions returns; it puts the new block right
    after [b] in the block sequence of the function, moves the instructions
    from [pos] to the end, with the terminator, into the new block, and
    leaves in [b] the instructions before [pos], none of which is a
    terminator.  The instructions are the same objects as before (the same
    addresses, of the same kinds, and the edges are untouched), and the old
    list is the list left in [b] followed by the list of the new block. *)
Theorem splitBasicBlock_splices σ b B pos new cfg :
  store_ok σ → Blocks σ !! b = Some B → well_formed σ B →
  pos < length (InstList B) → Blocks σ !! new = None →
  ∃ σ' F pre post B' N,
    splitBasicBlock b pos new σ cfg = Ok (new, σ') ∧
    Parent B = Some F ∧ (b ∉ pre) ∧
    Functions σ !! F = Some (pre ++ b :: post) ∧
    Functions σ' !! F = Some (pre ++ b :: new :: post) ∧
    Blocks σ' !! b = Some B' ∧ Blocks σ' !! new = Some N ∧
    InstList B' = take pos (InstList B) ∧
    InstList N = drop pos (InstList B) ∧
    InstList B = InstList B' ++ InstList N ∧
    last (InstList N) = last (InstList B) ∧ has_terminator σ' N ∧
    (∀ i, i ∈ InstList B' → ¬ is_terminator σ' i) ∧
    fails (getTerminator σ' B' cfg) ∧
    (∀ i, Kind <$> Insts σ' !! i = Kind <$> Insts σ !! i) ∧
    Edges σ' = Edges σ.
Proof.
  intros [Hp Ho] HB (body & t & Hl & Ht & Hbody) Hpos Hnew.
  destruct (proj2 (proj2 (proj2 Ho)) b B HB) as (F & bl & HP & HF & Hin).
  destruct (list_elem_of_split_l bl b Hin) as (pre & post & -> & Hpre).
  destruct (splitBasicBlock_Ok b pos new σ cfg B F pre post HB HP HF Hpre)
    as [σ' Hr]; [lia|].
  destruct (splitBasicBlock_inv _ _ _ _ _ _ Hr)
    as (B0 & F0 & pre0 & post0 & HB0 & HP0 & HF0 & Hpre0 & _ & _ &
        HF' & HI' & HE' & HB').
  assert (B0 = B) as -> by congruence.
  assert (F0 = F) as -> by congruence.
  assert (pre0 ++ b :: post0 = pre ++ b :: post) as Heq by congruence.
  destruct (not_elem_of_app_cons_inv_l _ _ _ _ _ _ Hpre Hpre0 Heq)
    as (-> & _ & ->).
  simpl in *.
  pose proof (split_kinds _ _ _ _ _ _ Hr) as Hk. simpl in Hk.
  assert (new ≠ b) as Hnb by congruence.
  assert (pos ≤ length body) as Hpos'.
  { rewrite Hl, length_app in Hpos. simpl in Hpos. lia. }
  assert (∀ i, i ∈ take pos (InstList B) → ¬ is_terminator σ' i) as Hnot.
  { intros i Hi. rewrite (kinds_is_terminator _ _ _ (Hk i)).
    rewrite Hl, take_app_le in Hi by done.
    destruct (Hbody i) as (I & HI & HIk).
    { by eapply subseteq_take. }
    intros (I0 & HI0 & HIk0). congruence. }
  exists σ', F, pre, post, (set_InstList (take pos (InstList B)) B),
    (mkBB (Some F) None [] (drop pos (InstList B))).
  split_and!; try done.
  - by rewrite HF', lookup_insert_eq.
  - by rewrite HB', lookup_insert_ne, lookup_insert_eq.
  - by rewrite HB', lookup_insert_eq.
  - simpl. by rewrite take_drop.
  - simpl. rewrite Hl, drop_snoc_lt, !last_snoc by done. done.
  - exists t. simpl. split.
    + rewrite Hl, drop_snoc_lt by done. apply last_snoc.
    + by apply (kinds_is_terminator _ _ _ (Hk t)).
  - intros t' (Hlast & Hterm)%getTerminator_Ok_inv. simpl in Hlast.
    apply (Hnot t'); [|done]. by apply last_Some_elem_of.
Qed.

(** * Splitting and branching *)

Lemma splitBasicBlock_total σ b B pos new cfg :
  owner_ok σ → Blocks σ !! b = Some B → pos ≤ length (InstList B) →
  ∃ σ', splitBasicBlock b pos new σ cfg = Ok (new, σ').
Proof.
  intros Ho HB Hpos.
  destruct (proj2 (proj2 (proj2 Ho)) b B HB) as (F & bl & HP & HF & Hin).
  destruct (list_elem_of_split_l bl b Hin) as (pre & post & -> & Hpre).
  by eapply splitBasicBlock_Ok.
Qed.

Lemma pred_edges_frame σ σ' B B' :
  Edges σ' = Edges σ → PredList B' = PredList B →
  pred_edges σ' B' = pred_edges σ B.
Proof. intros HE HP. unfold pred_edges, pred_begin. by rewrite HE, HP. Qed.

Lemma splitBasicBlock_preds_of b pos new σ cfg r b1 l :
  Blocks σ !! new = None → splitBasicBlock b pos new σ cfg = Ok r →
  preds_of σ b1 l → preds_of r.2 b1 l.
Proof.
  intros Hnew Hr (B1 & HB1 & Hl).
  destruct (splitBasicBlock_inv _ _ _ _ _ _ Hr)
    as (B & F & pre & post & HB & _ & _ & _ & _ & _ & _ & _ & HE' & HB').
  assert (b1 ≠ new) as Hne by congruence.
  unfold preds_of. rewrite HB', lookup_insert_ne by done.
  destruct (decide (b1 = b)) as [->|Hb].
  - rewrite lookup_insert_eq. eexists. split; [done|].
    simplify_eq. rewrite <- Hl. by apply pred_edges_frame.
  - rewrite lookup_insert_ne by done. exists B1. split; [done|].
    rewrite <- Hl. by apply pred_edges_frame.
Qed.

(** Creating the edges of a terminator returns when the targets exist. *)
Lemma newSuccessors_Ok t ets σ cfg :
  preds_ok σ → NoDup ets.*1 → (∀ e, e ∈ ets.*1 → Edges σ !! e = None) →
  (∀ e b, (e, Some b) ∈ ets → is_Some (Blocks σ !! b)) →
  ∃ σ', newSuccessors t ets σ cfg = Ok σ'.
Proof.
  revert σ. induction ets as [|[e BB] ets IH]; intros σ Hok Hnd Hfresh Hlive.
  - by eexists.
  - rewrite fmap_cons in Hnd, Hfresh. cbn [fst] in Hnd, Hfresh.
    apply NoDup_cons in Hnd as [He Hnd].
    assert (Edges σ !! e = None) as Hefresh
      by (apply Hfresh, list_elem_of_here).
    set (σ0 := set_Edges (<[e := mkSucc (Some t) None None None]> (Edges σ)) σ).
    assert (preds_ok σ0) as Hok0 by (by apply preds_ok_new_edge).
    assert (Edges σ0 !! e = Some (mkSucc (Some t) None None None)) as Hs0
      by apply lookup_insert_eq.
    assert (∃ σ1, setSuccessor e BB σ0 cfg = Ok σ1) as [σ1 H1].
    { destruct BB as [b'|].
      - destruct (setSuccessor_retarget σ0 e _ (Some b') cfg Hok0 Hs0)
          as (σ1 & H1 & _); [done|by eauto| |by eauto].
        intros b0 [= <-]. apply (Hlive e), list_elem_of_here.
      - exists σ0. by apply (setSuccessor_same σ0 e _ cfg Hs0). }
    destruct (setSuccessor_Ok_inv _ _ _ _ _ Hok0 H1) as (Hok1 & Hfr & _).
    destruct (IH σ1 Hok1 Hnd) as [σ' Hr'].
    + intros x Hx. apply eq_None_not_Some. intros Hsome.
      apply (same_frame_edges_live σ0 σ1 x) in Hsome; [|done].
      unfold σ0 in Hsome. simpl in Hsome.
      apply lookup_insert_is_Some' in Hsome as [->|Hsome]; [done|].
      rewrite Hfresh in Hsome by (by apply list_elem_of_further).
      by destruct Hsome.
    + intros x b' Hx. apply (same_frame_blocks_live σ0 σ1 b' Hfr).
      apply (Hlive x b'). by apply list_elem_of_further.
    + exists σ'. cbn [newSuccessors]. unfold newSuccessor. fold σ0.
      by rewrite (bind_Ok _ _ _ _ H1).
Qed.

Lemma new_term_Ok b t ets σ cfg :
  preds_ok σ → NoDup ets.*1 → (∀ e, e ∈ ets.*1 → Edges σ !! e = None) →
  (∀ e b', (e, Some b') ∈ ets → is_Some (Blocks σ !! b')) →
  is_Some (Blocks σ !! b) →
  ∃ σ', (TermInst_create t ets σ ≫= push_back_inst b t) cfg = Ok σ'.
Proof.
  intros Hok Hnd Hfresh Hlive [B HB].
  set (σ0 := newInst t (TermInst ets.*1) σ).
  assert (preds_ok σ0) as Hok0 by done.
  destruct (newSuccessors_Ok t ets σ0 cfg Hok0 Hnd Hfresh Hlive) as [σ1 H1].
  destruct (newSuccessors_inv t ets σ0 cfg σ1 Hok0 Hnd Hfresh H1)
    as (_ & _ & HI1 & HB1 & _).
  assert (is_Some (Blocks σ1 !! b)) as [B1 HBb].
  { rewrite <- (fmap_is_Some block_frame), <- lookup_fmap, HB1.
    unfold σ0. simpl. by rewrite lookup_fmap, HB. }
  destruct (push_back_inst_Ok b t σ1 cfg B1 (mkInst None (TermInst ets.*1)))
    as [σ' Hp]; [done| |].
  { rewrite HI1. unfold σ0. simpl. by rewrite lookup_insert_eq. }
  exists σ'. unfold TermInst_create. fold σ0. by rewrite (bind_Ok _ _ _ _ H1).
Qed.

Lemma pred_walk_end fuel E : pred_walk fuel E None = Some [].
Proof. by destruct fuel. Qed.

Lemma kinds_lookup (m m' : gmap nat SILInstruction) i I :
  Kind <$> m' !! i = Kind <$> m !! i → m !! i = Some I →
  ∃ I', m' !! i = Some I' ∧ Kind I' = Kind I.
Proof.
  intros Hk Hi. rewrite Hi in Hk. destruct (m' !! i) as [I'|]; [|done].
  exists I'. split; [done|]. simpl in Hk. congruence.
Qed.

Lemma kind_isa I I' : Kind I' = Kind I → isa_TermInst I' = isa_TermInst I.
Proof. unfold isa_TermInst. by intros ->. Qed.

Lemma kind_getSuccessors I I' :
  Kind I' = Kind I → getSuccessors I' = getSuccessors I.
Proof. unfold getSuccessors. by intros ->. Qed.

(** C3. On a well-formed block [b] and a position that designates one of
    its instructions, [splitBasicBlockAndBranch] returns the new block; it
    leaves the two blocks [splitBasicBlock] leaves, with a branch [t]
    appended to [b].  Afterwards the store satisfies its invariants, [b] and
    the new block are well-formed, the single successor of [b] is the new
    block, the only predecessor edge of the new block is the edge of the
    branch and its single predecessor is [b], the new block's terminator has
    the successor edges the terminator of [b] had, and the predecessor list
    of every other block is what it was. *)
Theorem splitBasicBlockAndBranch_branches σ b B pos new t e cfg :
  store_ok σ → Blocks σ !! b = Some B → well_formed σ B →
  pos < length (InstList B) →
  Blocks σ !! new = None → Insts σ !! t = None → Edges σ !! e = None →
  ∃ σ1 σ' B1 N1 B' N,
    splitBasicBlock b pos new σ cfg = Ok (new, σ1) ∧
    splitBasicBlockAndBranch b pos new t e σ cfg = Ok (new, σ') ∧
    Blocks σ1 !! b = Some B1 ∧ Blocks σ1 !! new = Some N1 ∧
    Blocks σ' !! b = Some B' ∧ Blocks σ' !! new = Some N ∧
    InstList B' = InstList B1 ++ [t] ∧ InstList N = InstList N1 ∧
    InstList B' = take pos (InstList B) ++ [t] ∧
    InstList N = drop pos (InstList B) ∧
    Functions σ' = Functions σ1 ∧
    store_ok σ' ∧ well_formed σ' B' ∧ well_formed σ' N ∧
    getSingleSuccessor σ' B' cfg = Ok (Some new) ∧
    pred_edges σ' N = Some [e] ∧
    getSinglePredecessor σ' N cfg = Ok (Some b) ∧
    getSuccs σ' N cfg = getSuccs σ B cfg ∧
    (∀ b1 l, b1 ≠ new → preds_of σ b1 l → preds_of σ' b1 l).
Proof.
  intros [Hp Ho] HB (body & t0 & Hl & (I0 & HI0 & HIk0) & Hbody)
    Hpos Hnew Htf Hef.
  assert (pos ≤ length body) as Hpos'.
  { rewrite Hl, length_app in Hpos. simpl in Hpos. lia. }
  destruct (splitBasicBlock_total σ b B pos new cfg Ho HB) as [σ1 Hs]; [lia|].
  destruct (splitBasicBlock_inv _ _ _ _ _ _ Hs)
    as (B0 & F & pre & post & HB0 & HP & _ & _ & _ & _ & HF1 & HI1 & HE1 & HB1).
  assert (B0 = B) as -> by congruence. simpl in *.
  pose proof (splitBasicBlock_ok _ _ _ _ _ _ Hnew Hs (conj Hp Ho)) as [Hp1 Ho1].
  pose proof (split_kinds _ _ _ _ _ _ Hs) as Hk1. simpl in *.
  assert (new ≠ b) as Hnb by congruence.
  assert (Insts σ1 !! t = None) as Htf1
    by (by rewrite HI1, set_parents_lookup, Htf).
  assert (Edges σ1 !! e = None) as Hef1 by (by rewrite HE1).
  set (B1 := set_InstList (take pos (InstList B)) B) in *.
  set (N1 := mkBB (Some F) None [] (drop pos (InstList B))) in *.
  assert (Blocks σ1 !! b = Some B1) as HBb1
    by (by rewrite HB1, lookup_insert_ne, lookup_insert_eq).
  assert (Blocks σ1 !! new = Some N1) as HBn1
    by (by rewrite HB1, lookup_insert_eq).
  assert (NoDup [(e, Some new)].*1) as Hnd by apply NoDup_singleton.
  assert (∀ x, x ∈ [(e, Some new)].*1 → Edges σ1 !! x = None) as Hfresh
    by (by intros x ->%list_elem_of_singleton).
  destruct (new_term_Ok b t [(e, Some new)] σ1 cfg Hp1 Hnd Hfresh)
    as [σ' Hnt]; [|by eauto|].
  { intros x b' [= _ <-]%list_elem_of_singleton. by eauto. }
  pose proof (new_term_ok _ _ _ _ _ _ Htf1 Hnd Hfresh Hnt (conj Hp1 Ho1))
    as [Hp' Ho'].
  destruct (new_term_inv _ _ _ _ _ _ Hp1 Htf1 Hnd Hfresh Hnt)
    as (B1' & HB1' & _ & HF' & HI' & HBl' & HCI & Hoth & Htg & Hch).
  assert (B1' = B1) as -> by congruence.
  assert (∃ B', Blocks σ' !! b = Some B' ∧
            block_frame B' = (Parent B1, BBArgList B1, InstList B1 ++ [t]))
    as (B' & HBb' & HfrB).
  { apply fmap_lookup_Some_inv. by rewrite HBl', lookup_insert_eq. }
  assert (∃ N, Blocks σ' !! new = Some N ∧ block_frame N = block_frame N1)
    as (N & HBn' & HfrN).
  { apply fmap_lookup_Some_inv.
    by rewrite HBl', lookup_insert_ne, lookup_fmap, HBn1. }
  assert (InstList B' = take pos (InstList B) ++ [t]) as HilB
    by (unfold block_frame in HfrB; by simplify_eq).
  assert (InstList N = drop pos (InstList B)) as HilN
    by (by apply block_frame_eq in HfrN as (_ & _ & ->)).
  assert (Insts σ' !! t = Some (mkInst (Some b) (TermInst [e]))) as HIt
    by (by rewrite HI', lookup_insert_eq).
  assert (∀ i I, Insts σ !! i = Some I →
            ∃ I', Insts σ' !! i = Some I' ∧ Kind I' = Kind I) as Hkeep.
  { intros i I Hi. rewrite HI', lookup_insert_ne by congruence.
    by apply (kinds_lookup (Insts σ)). }
  assert (is_terminator σ' t0) as Ht0'.
  { destruct (Hkeep t0 I0 HI0) as (I' & HI0' & Hk). exists I'.
    split; [done|]. by rewrite (kind_isa _ _ Hk). }
  assert (∀ i, i ∈ body →
            ∃ I, Insts σ' !! i = Some I ∧ isa_TermInst I = false) as Hbody'.
  { intros i Hi. destruct (Hbody i Hi) as (I & HIi & HIk).
    destruct (Hkeep i I HIi) as (I' & HI'' & Hk). exists I'.
    split; [done|]. by rewrite (kind_isa _ _ Hk). }
  assert (∃ s, Edges σ' !! e = Some s ∧ SuccessorBlock s = Some new ∧
               ContainingInst s = Some t) as (s & Hse & Hst & Hsc).
  { pose proof (Htg e (Some new) (list_elem_of_here _ _)) as Htg'.
    pose proof (HCI e) as HCI'.
    rewrite decide_True in HCI' by apply list_elem_of_here.
    rewrite lookup_fmap in HCI'.
    destruct (Edges σ' !! e) as [s|]; [|done]. exists s.
    simpl in *. split_and!; congruence. }
  assert (preds_of σ' new [e]) as (N' & HN' & HpeN).
  { pose proof (Hch new []) as Hch'. unfold new_preds in Hch'. simpl in Hch'.
    rewrite decide_True in Hch' by done. apply Hch'.
    exists N1. split; [done|]. apply pred_walk_end. }
  assert (N' = N) as -> by congruence.
  exists σ1, σ', B1, N1, B', N. split_and!; try done.
  - unfold splitBasicBlockAndBranch, BranchInst_create.
    rewrite (bind_Ok _ _ _ _ Hs). simpl.
    apply bind_Ok_inv in Hnt as (σ2 & H2 & H3).
    by rewrite (bind_Ok _ _ _ _ H2), (bind_Ok _ _ _ _ H3).
  - exists (take pos (InstList B)), t. split_and!; try done.
    + by eexists.
    + intros i Hi. apply Hbody'. rewrite Hl, take_app_le in Hi by done.
      by eapply subseteq_take.
  - exists (drop pos body), t0. split_and!; try done.
    + by rewrite HilN, Hl, drop_snoc_lt.
    + intros i Hi. apply Hbody'. by eapply subseteq_drop.
  - pose proof (getSingleSuccessor_edges σ' B' t
                  (mkInst (Some b) (TermInst [e])) cfg Ho') as Hss.
    rewrite HilB, last_snoc in Hss. specialize (Hss eq_refl HIt eq_refl).
    simpl in Hss. destruct Hss as (s' & Hs' & ->). congruence.
  - destruct (proj1 (preds_of_chain σ' new [e] Hp')) as (hd & Hhd & Hc).
    { by exists N. }
    rewrite lookup_fmap, HBn' in Hhd. simpl in Hhd.
    assert (hd = PredList N) as -> by congruence.
    pose proof (getSinglePredecessor_chain σ' new N [e] cfg Ho' Hc)
      as (s' & t' & I' & p & Hs' & Ht' & HI'' & Hpar & ->).
    assert (s' = s) as -> by congruence.
    assert (t' = t) as -> by congruence.
    rewrite HIt in HI''. injection HI'' as <-. simpl in Hpar. congruence.
  - rewrite (getSuccs_Ok σ B cfg t0 I0); [|by rewrite Hl, last_snoc|done..].
    destruct (Hkeep t0 I0 HI0) as (I0' & HI0' & Hk).
    rewrite (getSuccs_Ok σ' N cfg t0 I0').
    + by rewrite (kind_getSuccessors _ _ Hk).
    + by rewrite HilN, Hl, drop_snoc_lt, last_snoc.
    + done.
    + by rewrite (kind_isa _ _ Hk).
  - intros b1 l Hb1 Hpo.
    pose proof (splitBasicBlock_preds_of _ _ _ _ _ _ b1 l Hnew Hs Hpo) as Hpo1.
    pose proof (Hch b1 l Hpo1) as Hch'. unfold new_preds in Hch'.
    simpl in Hch'. rewrite decide_False in Hch' by congruence. done.
Qed.

(** * Successor queries need a terminator, predecessor queries do not *)

Lemma bind_AssertionFailure {A B} (m : M A) (k : A → M B) cfg :
  m cfg = AssertionFailure → (m ≫= k) cfg = AssertionFailure.
Proof. intros H. by rewrite bind_eq, H. Qed.

Lemma bind_fails {A B} (m : M A) (k : A → M B) cfg :
  fails (m cfg) → fails ((m ≫= k) cfg).
Proof. intros H b (a & Ha & _)%bind_Ok_inv. by apply (H a). Qed.

(** C9. On a block without terminator, [getSuccs], [succ_empty],
    [succ_begin] and [getSingleSuccessor] all stop on the assertion of
    [getTerminator] in a debug build and return nothing in any build.  The
    predecessor queries do not look at the instruction list: replacing it by
    any list, the empty one included, changes none of their results, and
    [getSinglePredecessor] returns on every block of a store that satisfies
    the invariants. *)
Theorem succ_pred_asymmetry σ B cfg :
  (no_terminator σ B →
     (getSuccs σ B Debug = AssertionFailure ∧
      succ_empty σ B Debug = AssertionFailure ∧
      succ_begin σ B Debug = AssertionFailure ∧
      getSingleSuccessor σ B Debug = AssertionFailure) ∧
     (fails (getSuccs σ B cfg) ∧ fails (succ_empty σ B cfg) ∧
      fails (succ_begin σ B cfg) ∧ fails (getSingleSuccessor σ B cfg))) ∧
  (∀ l, pred_empty (set_InstList l B) = pred_empty B ∧
        pred_begin (set_InstList l B) = pred_begin B ∧
        getPreds (set_InstList l B) = getPreds B ∧
        getSinglePredecessor σ (set_InstList l B) cfg =
          getSinglePredecessor σ B cfg) ∧
  (∀ b, store_ok σ → Blocks σ !! b = Some B →
        succeeds (getSinglePredecessor σ B cfg)).
Proof.
  split_and!.
  - intros Hno.
    destruct (getTerminator_no_terminator σ B cfg Hno) as [HD Hf].
    assert (getSuccs σ B Debug = AssertionFailure) as HSD
      by (by apply bind_AssertionFailure).
    assert (fails (getSuccs σ B cfg)) as HSf by (by apply bind_fails).
    assert (succ_empty σ B Debug = AssertionFailure) as HED
      by (by apply bind_AssertionFailure).
    split; split_and!; try done.
    + by apply bind_AssertionFailure.
    + by apply bind_AssertionFailure.
    + by apply bind_fails.
    + by apply bind_fails.
    + by apply bind_fails, bind_fails.
  - done.
  - intros b [Hp Ho] HB.
    assert ((PredList <$> Blocks σ) !! b = Some (PredList B)) as Hhd
      by (by rewrite lookup_fmap, HB).
    destruct (proj1 Hp b _ Hhd) as (l & _ & Hc & _).
    pose proof (getSinglePredecessor_chain σ b B l cfg Ho Hc) as Hsp.
    destruct l as [|e [|e2 l]].
    + by eexists.
    + destruct Hsp as (? & ? & ? & p & _ & _ & _ & _ & ->). by eexists.
    + by eexists.
Qed.

(** * The argument operations touch nothing but the argument list *)

(** C10. [addArgument], [eraseArgument] and [dropAllArgs] leave the
    functions, the instructions and the edges of the store as they are, and
    leave every other block as it is; in the block they are called on the
    instruction list, the head of the predecessor list and the parent are
    unchanged.  [addArgument] puts its argument at the end of the argument
    list and every argument that was there keeps its index. *)
Theorem argument_ops_frame σ σ' op b cfg :
  arg_op_block op = Some b → run op σ cfg = Ok σ' →
  Functions σ' = Functions σ ∧ Insts σ' = Insts σ ∧ Edges σ' = Edges σ ∧
  (∀ b', b' ≠ b → Blocks σ' !! b' = Blocks σ !! b') ∧
  (∃ B B', Blocks σ !! b = Some B ∧ Blocks σ' !! b = Some B' ∧
           InstList B' = InstList B ∧ PredList B' = PredList B ∧
           Parent B' = Parent B ∧
           ∀ a, op = OpAddArgument b a →
                BBArgList B' = BBArgList B ++ [a] ∧
                ∀ j x, BBArgList B !! j = Some x →
                       BBArgList B' !! j = Some x).
Proof.
  intros Hop Hr.
  assert (∃ f, on_block b f σ cfg = Ok σ' ∧
               (∀ B B', f B cfg = Ok B' → ∃ l, B' = set_BBArgList l B) ∧
               ∀ a B B', op = OpAddArgument b a → f B cfg = Ok B' →
                         B' = set_BBArgList (BBArgList B ++ [a]) B)
    as (f & Hf & Hshape & Hadd).
  { destruct op; simpl in Hop; try done; injection Hop as ->; simpl in Hr.
    - exists (λ B, addArgument B a). split_and!; try done.
      + intros B0 B'. apply arg_op_shape.
      + intros a' B0 B' [= <-]. unfold addArgument, ret. by intros [= <-].
    - exists (λ B, eraseArgument B idx). split_and!; try done.
      intros B0 B'. apply arg_op_shape.
    - exists dropAllArgs. split_and!; try done.
      intros B0 B'. apply arg_op_shape. }
  destruct (on_block_inv _ _ _ _ _ Hf) as (B & B' & HB & HfB & ->).
  destruct (Hshape B B' HfB) as [l ->]. simpl. split_and!; try done.
  - intros b' Hne. by rewrite lookup_insert_ne.
  - exists B, (set_BBArgList l B). rewrite lookup_insert_eq.
    split_and!; try done. intros a Ha.
    pose proof (Hadd a B _ Ha HfB) as Heq.
    assert (l = BBArgList B ++ [a]) as ->.
    { by apply (f_equal BBArgList) in Heq. }
    simpl. split; [done|]. intros j x Hj. by apply lookup_app_l_Some.
Qed.

(** * The sample store *)

Lemma sample_reachable : reachable sample_store.
Proof.
  apply (exec_reachable sample_ops empty_store);
    [apply reachable_empty | vm_compute; reflexivity].
Qed.

Lemma sample_store_ok : store_ok sample_store.
Proof. apply reachable_store_ok, sample_reachable. Qed.

Lemma sample_B0_lookup : Blocks sample_store !! 0 = Some sample_B0.
Proof. vm_compute. reflexivity. Qed.

Lemma sample_B1_lookup : Blocks sample_store !! 1 = Some sample_B1.
Proof. vm_compute. reflexivity. Qed.

Lemma sample_B0_well_formed : well_formed sample_store sample_B0.
Proof.
  exists [0; 1], 2. split_and!.
  - reflexivity.
  - exists (mkInst (Some 0) (TermInst [0])). split; vm_compute; reflexivity.
  - intros i [->|[->|Hi%elem_of_nil]%elem_of_cons]%elem_of_cons; [| |done];
      exists (mkInst (Some 0) Plain); split; vm_compute; reflexivity.
Qed.

(** * The theorems at the sample store *)

Lemma pred_list_duality_witness :
  ∃ l, pred_edges sample_store sample_B1 = Some l ∧ NoDup l ∧
       ∀ E, E ∈ l ↔
            ∃ s t I, Edges sample_store !! E = Some s ∧
                     SuccessorBlock s = Some 1 ∧
                     ContainingInst s = Some t ∧
                     Insts sample_store !! t = Some I ∧
                     isa_TermInst I = true ∧ E ∈ getSuccessors I.
Proof.
  apply (proj1 (pred_list_duality sample_store
                  (exec_reachable sample_ops empty_store sample_store
                     reachable_empty eq_refl)) 1 sample_B1).
  vm_compute. reflexivity.
Defined.

Lemma splitBasicBlock_splices_witness :
  ∃ σ' F pre post B' N,
    splitBasicBlock 0 2 2 sample_store Debug = Ok (2, σ') ∧
    Parent sample_B0 = Some F ∧ (0 ∉ pre) ∧
    Functions sample_store !! F = Some (pre ++ 0 :: post) ∧
    Functions σ' !! F = Some (pre ++ 0 :: 2 :: post) ∧
    Blocks σ' !! 0 = Some B' ∧ Blocks σ' !! 2 = Some N ∧
    InstList B' = take 2 (InstList sample_B0) ∧
    InstList N = drop 2 (InstList sample_B0) ∧
    InstList sample_B0 = InstList B' ++ InstList N ∧
    last (InstList N) = last (InstList sample_B0) ∧ has_terminator σ' N ∧
    (∀ i, i ∈ InstList B' → ¬ is_terminator σ' i) ∧
    fails (getTerminator σ' B' Debug) ∧
    (∀ i, Kind <$> Insts σ' !! i = Kind <$> Insts sample_store !! i) ∧
    Edges σ' = Edges sample_store.
Proof.
  apply (splitBasicBlock_splices sample_store 0 sample_B0 2 2 Debug).
  - apply sample_store_ok.
  - vm_compute. reflexivity.
  - apply sample_B0_well_formed.
  - simpl. lia.
  - vm_compute. reflexivity.
Defined.

Lemma splitBasicBlockAndBranch_branches_witness :
  ∃ σ1 σ' B1 N1 B' N,
    splitBasicBlock 0 2 2 sample_store Debug = Ok (2, σ1) ∧
    splitBasicBlockAndBranch 0 2 2 4 1 sample_store Debug = Ok (2, σ') ∧
    Blocks σ1 !! 0 = Some B1 ∧ Blocks σ1 !! 2 = Some N1 ∧
    Blocks σ' !! 0 = Some B' ∧ Blocks σ' !! 2 = Some N ∧
    InstList B' = InstList B1 ++ [4] ∧ InstList N = InstList N1 ∧
    InstList B' = take 2 (InstList sample_B0) ++ [4] ∧
    InstList N = drop 2 (InstList sample_B0) ∧
    Functions σ' = Functions σ1 ∧
    store_ok σ' ∧ well_formed σ' B' ∧ well_formed σ' N ∧
    getSingleSuccessor σ' B' Debug = Ok (Some 2) ∧
    pred_edges σ' N = Some [1] ∧
    getSinglePredecessor σ' N Debug = Ok (Some 0) ∧
    getSuccs σ' N Debug = getSuccs sample_store sample_B0 Debug ∧
    (∀ b1 l, b1 ≠ 2 → preds_of sample_store b1 l → preds_of σ' b1 l).
Proof.
  apply (splitBasicBlockAndBranch_branches sample_store 0 sample_B0 2 2 4 1
           Debug).
  - apply sample_store_ok.
  - vm_compute. reflexivity.
  - apply sample_B0_well_formed.
  - simpl. lia.
  - vm_compute. reflexivity.
  - vm_compute. reflexivity.
  - vm_compute. reflexivity.
Defined.

Lemma single_pred_succ_witness :
  (∃ l, pred_edges sample_store sample_B1 = Some l ∧
        match l with
        | [e] => ∃ s t I p,
            Edges sample_store !! e = Some s ∧ ContainingInst s = Some t ∧
            Insts sample_store !! t = Some I ∧ ParentBB I = Some p ∧
            getSinglePredecessor sample_store sample_B1 Debug = Ok (Some p)
        | _ => getSinglePredecessor sample_store sample_B1 Debug = Ok None
        end) ∧
  (∀ t I, last (InstList sample_B1) = Some t →
          Insts sample_store !! t = Some I → isa_TermInst I = true →
          match getSuccessors I with
          | [e] => ∃ s, Edges sample_store !! e = Some s ∧
                        getSingleSuccessor sample_store sample_B1 Debug =
                          Ok (SuccessorBlock s)
          | _ => getSingleSuccessor sample_store sample_B1 Debug = Ok None
          end).
Proof.
  apply (single_pred_succ sample_store 1 sample_B1 Debug).
  - apply sample_store_ok.
  - vm_compute. reflexivity.
Defined.

Lemma getTerminator_contract_witness :
  getTerminator sample_store sample_B0 Debug = Ok 2 ∧
  getTerminator sample_store (mkBB (Some 0) None [] []) Debug
    = AssertionFailure ∧
  getTerminator sample_store (mkBB (Some 0) None [] [0; 1]) Debug
    = AssertionFailure.
Proof.
  split_and!.
  - apply (proj1 (getTerminator_contract sample_store sample_B0 Debug) 2).
    + reflexivity.
    + exists (mkInst (Some 0) (TermInst [0])). split; vm_compute; reflexivity.
  - apply (proj2 (getTerminator_contract sample_store
                    (mkBB (Some 0) None [] []) Debug)).
    left. reflexivity.
  - apply (proj2 (getTerminator_contract sample_store
                    (mkBB (Some 0) None [] [0; 1]) Debug)).
    right. exists 1, (mkInst (Some 0) Plain).
    split_and!; vm_compute; reflexivity.
Defined.

Lemma eraseArgument_shifts_witness :
  ∃ B', eraseArgument (mkBB None None [7; 8; 9] []) 1 Debug = Ok B' ∧
        BBArgList B' = [7; 9] ∧
        S (length (BBArgList B')) = 3 ∧
        (∀ j, j < 1 → BBArgList B' !! j = [7; 8; 9] !! j) ∧
        (∀ j, 1 < j → BBArgList B' !! (j - 1) = [7; 8; 9] !! j).
Proof.
  apply (eraseArgument_shifts (mkBB None None [7; 8; 9] []) 1 Debug).
  simpl. lia.
Defined.

Lemma getSuccs_terminator_edges_witness :
  getSuccs sample_store sample_B0 Debug = Ok [0] ∧
  ∃ r, succ_empty sample_store sample_B0 Debug = Ok r ∧
       (r = true ↔ [0] = @nil nat).
Proof.
  apply (getSuccs_terminator_edges sample_store sample_B0 Debug 2
           (mkInst (Some 0) (TermInst [0]))).
  - reflexivity.
  - vm_compute. reflexivity.
  - reflexivity.
Defined.

Lemma bbarg_index_contract_witness :
  (∃ a, getBBArg sample_B1 1 Debug = Ok a ∧
        BBArgList sample_B1 !! N.to_nat 1 = Some a) ∧
  succeeds (eraseArgument sample_B1 1 Debug) ∧
  getBBArg sample_B1 2 Debug = Undefined ∧
  eraseArgument sample_B1 (-1) Debug = Undefined.
Proof.
  destruct (bbarg_index_contract sample_B1 Debug) as (H1 & H2 & H3 & H4).
  split_and!.
  - apply H1. vm_compute. reflexivity.
  - apply H2. vm_compute. split; [discriminate | reflexivity].
  - apply H3. vm_compute. discriminate.
  - apply H4. simpl. lia.
Defined.

Lemma succ_pred_asymmetry_witness :
  (getSuccs sample_store (mkBB (Some 0) None [] []) Debug = AssertionFailure ∧
   succ_empty sample_store (mkBB (Some 0) None [] []) Debug
     = AssertionFailure ∧
   succ_begin sample_store (mkBB (Some 0) None [] []) Debug
     = AssertionFailure ∧
   getSingleSuccessor sample_store (mkBB (Some 0) None [] []) Debug
     = AssertionFailure) ∧
  succeeds (getSinglePredecessor sample_store sample_B1 Debug).
Proof.
  split.
  - apply (proj1 (succ_pred_asymmetry sample_store
                    (mkBB (Some 0) None [] []) Debug)).
    left. reflexivity.
  - apply (proj2 (proj2 (succ_pred_asymmetry sample_store sample_B1 Debug)) 1).
    + apply sample_store_ok.
    + vm_compute. reflexivity.
Defined.

Lemma argument_ops_frame_witness :
  Functions sample_store_arg = Functions sample_store ∧
  Insts sample_store_arg = Insts sample_store ∧
  Edges sample_store_arg = Edges sample_store ∧
  (∀ b', b' ≠ 1 → Blocks sample_store_arg !! b' = Blocks sample_store !! b') ∧
  (∃ B B', Blocks sample_store !! 1 = Some B ∧
           Blocks sample_store_arg !! 1 = Some B' ∧
           InstList B' = InstList B ∧ PredList B' = PredList B ∧
           Parent B' = Parent B ∧
           ∀ a, OpAddArgument 1 9 = OpAddArgument 1 a →
                BBArgList B' = BBArgList B ++ [a] ∧
                ∀ j x, BBArgList B !! j = Some x →
                       BBArgList B' !! j = Some x).
Proof.
  apply (argument_ops_frame sample_store sample_store_arg
           (OpAddArgument 1 9) 1 Debug).
  - reflexivity.
  - vm_compute. reflexivity.
Defined.

(** * The instruction lists of a reachable store *)

Lemma frame_lookup_fwd σ σ' b B :
  block_frame <$> Blocks σ' = block_frame <$> Blocks σ →
  Blocks σ' !! b = Some B →
  ∃ B0, Blocks σ !! b = Some B0 ∧ block_frame B0 = block_frame B.
Proof.
  intros HB Hb. apply fmap_lookup_Some_inv.
  by rewrite <- HB, lookup_fmap, Hb.
Qed.

Lemma same_frame_lists_ok σ σ' : same_frame σ σ' → lists_ok σ → lists_ok σ'.
Proof.
  intros (_ & HI & HB & _) Hl b B' HB'.
  destruct (frame_lookup_fwd _ _ _ _ HB HB') as (B & Hb & Hfr).
  apply block_frame_eq in Hfr as (_ & _ & Hil). rewrite <- Hil, HI.
  by apply (Hl b B).
Qed.

Lemma lists_ok_update_block σ b B B' :
  Blocks σ !! b = Some B → InstList B' = InstList B →
  lists_ok σ → lists_ok (set_Blocks (<[b := B']> (Blocks σ)) σ).
Proof.
  intros HB HI Hl b' B''. simpl. destruct (decide (b' = b)) as [->|Hne].
  - rewrite lookup_insert_eq. intros [= <-]. rewrite HI. by apply Hl.
  - rewrite lookup_insert_ne by done. by apply Hl.
Qed.

Lemma lists_ok_push σ σ' b B i k :
  lists_ok σ → Insts σ !! i = None → Blocks σ !! b = Some B →
  Insts σ' = <[i := mkInst (Some b) k]> (Insts σ) →
  block_frame <$> Blocks σ' =
    <[b := (Parent B, BBArgList B, InstList B ++ [i])]>
      (block_frame <$> Blocks σ) →
  lists_ok σ'.
Proof.
  intros Hl Hi HB HI HBl b' B' HB'.
  assert (∀ b0 B0 x, Blocks σ !! b0 = Some B0 → x ∈ InstList B0 → x ≠ i)
    as Hfresh.
  { intros b0 B0 x HB0 Hx ->.
    destruct (proj2 (Hl b0 B0 HB0) i Hx) as (I & HIi & _). congruence. }
  pose proof (f_equal (.!! b') HBl) as Hlk. simpl in Hlk.
  rewrite lookup_fmap, HB' in Hlk. simpl in Hlk. rewrite HI.
  destruct (decide (b' = b)) as [->|Hne].
  - rewrite lookup_insert_eq in Hlk.
    assert (InstList B' = InstList B ++ [i]) as ->
      by (unfold block_frame in Hlk; congruence).
    destruct (Hl b B HB) as [Hnd Hin]. split.
    + apply NoDup_app. split_and!; [done| |apply NoDup_singleton].
      intros x Hx ->%list_elem_of_singleton. by eapply Hfresh.
    + intros x [Hx | ->%list_elem_of_singleton]%elem_of_app.
      * rewrite lookup_insert_ne by (symmetry; by eapply Hfresh).
        by apply Hin.
      * rewrite lookup_insert_eq. by eexists.
  - rewrite lookup_insert_ne in Hlk by done. symmetry in Hlk.
    apply fmap_lookup_Some_inv in Hlk as (B0 & HB0 & Hfr).
    apply block_frame_eq in Hfr as (_ & _ & Hil). rewrite <- Hil.
    destruct (Hl b' B0 HB0) as [Hnd Hin]. split; [done|].
    intros x Hx. rewrite lookup_insert_ne by (symmetry; by eapply Hfresh).
    by apply Hin.
Qed.

Lemma new_term_lists_ok b t ets σ cfg σ' :
  preds_ok σ → Insts σ !! t = None → NoDup ets.*1 →
  (∀ e, e ∈ ets.*1 → Edges σ !! e = None) →
  (TermInst_create t ets σ ≫= push_back_inst b t) cfg = Ok σ' →
  lists_ok σ → lists_ok σ'.
Proof.
  intros Hp Ht Hnd Hfresh Hr Hl.
  destruct (new_term_inv _ _ _ _ _ _ Hp Ht Hnd Hfresh Hr)
    as (B & HB & _ & _ & HI & HBl & _).
  by eapply (lists_ok_push σ σ' b B t).
Qed.

Lemma new_inst_lists_ok b i σ cfg σ' :
  Insts σ !! i = None →
  push_back_inst b i (newInst i Plain σ) cfg = Ok σ' →
  lists_ok σ → lists_ok σ'.
Proof.
  intros Hi Hr Hl.
  destruct (push_back_inst_inv _ _ _ _ _ Hr)
    as (B & I & HB & HI & _ & _ & HI' & HB').
  simpl in *. rewrite lookup_insert_eq in HI. injection HI as <-.
  eapply (lists_ok_push σ σ' b B i Plain); try done.
  - rewrite HI'. simpl. by rewrite insert_insert_eq.
  - by rewrite HB', fmap_insert.
Qed.

Lemma splitBasicBlock_lists_ok b pos new σ cfg r :
  Blocks σ !! new = None → splitBasicBlock b pos new σ cfg = Ok r →
  lists_ok σ → lists_ok r.2.
Proof.
  intros Hnew Hr Hl.
  destruct (splitBasicBlock_inv _ _ _ _ _ _ Hr)
    as (B & F & pre & post & HB & _ & _ & _ & _ & _ & _ & HI' & _ & HB').
  assert (new ≠ b) as Hnb by congruence.
  destruct (Hl b B HB) as [HndB HinB].
  rewrite <- (take_drop pos (InstList B)) in HndB.
  apply NoDup_app in HndB as (Hnd1 & Hdisj & Hnd2).
  intros b' B'. rewrite HB', HI'.
  destruct (decide (b' = new)) as [->|Hne].
  { rewrite lookup_insert_eq. intros [= <-]. simpl. split; [done|].
    intros x Hx. rewrite set_parents_lookup, decide_True by done.
    destruct (HinB x) as (I & HIx & _); [by eapply subseteq_drop|].
    rewrite HIx. by eexists. }
  rewrite lookup_insert_ne by done.
  destruct (decide (b' = b)) as [->|Hne'].
  - rewrite lookup_insert_eq. intros [= <-]. simpl. split; [done|].
    intros x Hx. rewrite set_parents_lookup.
    rewrite decide_False by (by apply Hdisj).
    destruct (HinB x) as (I & HIx & HP); [by eapply subseteq_take|].
    rewrite HIx. by eexists.
  - rewrite lookup_insert_ne by done. intros HB0.
    destruct (Hl b' B' HB0) as [Hnd Hin]. split; [done|].
    intros x Hx. destruct (Hin x Hx) as (I & HIx & HP).
    rewrite set_parents_lookup, HIx. rewrite decide_False; [by eexists|].
    intros Hm. destruct (HinB x) as (I' & HIx' & HP');
      [by eapply subseteq_drop|]. congruence.
Qed.

Lemma eraseInst_lists_ok i σ cfg σ' :
  eraseInst i σ cfg = Ok σ' → preds_ok σ → lists_ok σ → lists_ok σ'.
Proof.
  unfold eraseInst. intros (I & HI%deref_Ok_inv & Hr)%bind_Ok_inv Hp Hl.
  apply bind_Ok_inv in Hr as (p & Hpar%deref_Ok_inv & Hr).
  apply bind_Ok_inv in Hr as (B & HB%deref_Ok_inv & Hr).
  apply bind_Ok_inv in Hr as (σ2 & Hd & <-%ret_Ok_inv).
  set (B1 := set_InstList (filter (λ x, x ≠ i) (InstList B)) B) in *.
  set (σ1 := set_Blocks (<[p := B1]> (Blocks σ)) σ) in *.
  assert (preds_ok σ1) as Hp1 by (by apply (preds_ok_update_block _ _ B)).
  destruct (deleteSuccessors_inv _ _ _ _ Hp1 Hd) as (_ & _ & HI2 & HB2 & _).
  intros b' B' HB'. simpl in HB'. simpl. rewrite HI2.
  destruct (frame_lookup_fwd _ _ _ _ HB2 HB') as (B0 & HB0 & Hfr).
  apply block_frame_eq in Hfr as (_ & _ & Hil). rewrite <- Hil.
  unfold σ1 in HB0. simpl in HB0. change (Insts σ1) with (Insts σ).
  destruct (decide (b' = p)) as [->|Hne].
  - rewrite lookup_insert_eq in HB0. injection HB0 as <-. simpl.
    destruct (Hl p B HB) as [Hnd Hin]. split; [by apply NoDup_filter|].
    intros x [Hx Hxin]%list_elem_of_filter.
    rewrite lookup_delete_ne by done. by apply Hin.
  - rewrite lookup_insert_ne in HB0 by done.
    destruct (Hl b' B0 HB0) as [Hnd Hin]. split; [done|].
    intros x Hx. destruct (Hin x Hx) as (Ix & HIx & HPx).
    rewrite lookup_delete_ne; [by eexists|]. intros ->. congruence.
Qed.

Lemma step_lists_ok σ σ' :
  step σ σ' → store_ok σ → lists_ok σ → lists_ok σ'.
Proof.
  intros (op & cfg & Hfr & Hr) [Hp Ho] Hl. destruct op; simpl in *.
  - unfold newFunction, ret in Hr. by injection Hr as <-.
  - unfold newBlock in Hr.
    apply bind_Ok_inv in Hr as (bl & _ & <-%ret_Ok_inv).
    intros b' B'. simpl. destruct (decide (b' = b)) as [->|Hne].
    + rewrite lookup_insert_eq. intros [= <-]. simpl. split; [constructor|].
      by intros i ?%elem_of_nil.
    + rewrite lookup_insert_ne by done. by apply Hl.
  - by eapply new_inst_lists_ok.
  - destruct Hfr as (Ht & Hnd & He). eapply new_term_lists_ok; try done.
    by apply Forall_forall.
  - destruct (setSuccessor_Ok_inv _ _ _ _ _ Hp Hr) as (_ & Hsf & _).
    by eapply same_frame_lists_ok.
  - by eapply eraseInst_lists_ok.
  - apply bind_Ok_inv in Hr as (r & Hs & <-%ret_Ok_inv).
    by eapply splitBasicBlock_lists_ok.
  - destruct Hfr as (Hn & Ht & He).
    apply bind_Ok_inv in Hr as (r & Hs & <-%ret_Ok_inv).
    apply splitBasicBlockAndBranch_inv in Hs as (σ1 & Hs & _ & Hb).
    pose proof (splitBasicBlock_ok _ _ _ _ _ _ Hn Hs (conj Hp Ho)) as [Hp1 _].
    pose proof (splitBasicBlock_lists_ok _ _ _ _ _ _ Hn Hs Hl) as Hl1.
    destruct (splitBasicBlock_inv _ _ _ _ _ _ Hs)
      as (B & F & pre & post & _ & _ & _ & _ & _ & _ & _ & HI1 & HE1 & _).
    simpl in *.
    apply (new_term_lists_ok b t [(e, Some new)] σ1 cfg r.2); try done.
    + by rewrite HI1, set_parents_lookup, Ht.
    + apply NoDup_singleton.
    + intros x ->%list_elem_of_singleton. by rewrite HE1.
  - apply on_block_inv in Hr as (B & B' & HB & HfB & ->).
    destruct (proj1 (arg_op_shape B cfg) a B' HfB) as [l ->].
    by apply (lists_ok_update_block _ _ B).
  - apply on_block_inv in Hr as (B & B' & HB & HfB & ->).
    destruct (proj1 (proj2 (arg_op_shape B cfg)) idx B' HfB) as [l ->].
    by apply (lists_ok_update_block _ _ B).
  - apply on_block_inv in Hr as (B & B' & HB & HfB & ->).
    destruct (proj2 (proj2 (arg_op_shape B cfg)) B' HfB) as [l ->].
    by apply (lists_ok_update_block _ _ B).
Qed.

Lemma reachable_lists_ok σ : reachable σ → lists_ok σ.
Proof.
  induction 1 as [|σ σ' Hreach IH Hstep].
  - intros b B. unfold empty_store. simpl. by rewrite lookup_empty.
  - eapply step_lists_ok; [done| |done]. by apply reachable_store_ok.
Qed.

(** * Debug and release builds *)

Lemma guarded_Undefined {A} (m : M A) :
  guarded m → m Debug = Undefined → m Release = Undefined.
Proof.
  intros (Hok & _ & Hna) Hd.
  assert (∀ a, m Release ≠ Ok a) as Hn.
  { intros a Hr. apply Hok in Hr. congruence. }
  destruct (m Release) as [a| |]; [by destruct (Hn a)|done|done].
Qed.

Lemma guarded_ret {A} (a : A) : guarded (ret a).
Proof. by split_and!. Qed.

Lemma guarded_deref {A} (o : option A) : guarded (deref o).
Proof. by destruct o; split_and!. Qed.

Lemma guarded_bind {A B} (m : M A) (k : A → M B) :
  guarded m → (∀ a, guarded (k a)) → guarded (m ≫= k).
Proof.
  intros Hm Hk. pose proof (guarded_Undefined m Hm) as Hu.
  destruct Hm as (Hok & Haf & Hna).
  unfold guarded. rewrite !bind_eq.
  destruct (m Debug) as [a| |] eqn:Hd.
  - rewrite (proj1 (Hok a) eq_refl). apply Hk.
  - rewrite (Haf eq_refl). by split_and!.
  - rewrite (Hu eq_refl). by split_and!.
Qed.

Lemma guarded_getTerminator σ B : guarded (getTerminator σ B).
Proof.
  unfold guarded, getTerminator, cast_TermInst, back, empty.
  rewrite !bind_eq. destruct (InstList B) as [|i l] eqn:Hl; [by split_and!|].
  change (assert (negb false)) with (assert true). rewrite !assert_true.
  destruct (last (i :: l)) as [t|]; [|by split_and!].
  unfold deref at 1 3 5 7 9. unfold ret at 1 3 5 7 9.
  rewrite !bind_eq. destruct (Insts σ !! t) as [I|]; [|by split_and!].
  unfold deref, ret. rewrite !bind_eq.
  by destruct (isa_TermInst I); split_and!.
Qed.

Lemma guarded_getSuccs σ B : guarded (getSuccs σ B).
Proof.
  apply guarded_bind; [apply guarded_getTerminator|]. intros t.
  apply guarded_bind; [apply guarded_deref|]. intros I. apply guarded_ret.
Qed.

Lemma guarded_succ_deref σ it : guarded (succ_deref σ it).
Proof.
  apply guarded_bind; [apply guarded_deref|]. intros e.
  apply guarded_bind; [apply guarded_deref|]. intros s. apply guarded_ret.
Qed.

(** X1. The assertions of [getTerminator] guard exactly its undefined
    behaviour, and so do those of the queries that start with it,
    [getSuccs], [succ_empty], [succ_begin], [succ_end] and
    [getSingleSuccessor]: the debug build and the release build return the
    same results, the release build never stops on an assertion, and where
    the debug build stops on one the release build is undefined. *)
Theorem successor_queries_guarded σ B :
  guarded (getTerminator σ B) ∧ guarded (getSuccs σ B) ∧
  guarded (succ_empty σ B) ∧ guarded (succ_begin σ B) ∧
  guarded (succ_end σ B) ∧ guarded (getSingleSuccessor σ B).
Proof.
  pose proof (guarded_getSuccs σ B) as Hs.
  assert (guarded (succ_empty σ B)) as He.
  { apply guarded_bind; [done|]. intros ss. apply guarded_ret. }
  assert (guarded (succ_begin σ B)) as Hb.
  { apply guarded_bind; [done|]. intros ss. apply guarded_ret. }
  assert (guarded (succ_end σ B)) as Hn.
  { apply guarded_bind; [done|]. intros ss. apply guarded_ret. }
  split_and!; try done; [apply guarded_getTerminator|].
  apply guarded_bind; [done|]. intros [|]; [apply guarded_ret|].
  apply guarded_bind; [done|]. intros b.
  apply guarded_bind; [done|]. intros e.
  case_bool_decide; [apply guarded_ret|].
  apply guarded_bind; [done|]. intros b'. apply guarded_succ_deref.
Qed.

(** * The single successor and the single predecessor, computed *)

Lemma getSingleSuccessor_eq σ B cfg :
  getSingleSuccessor σ B cfg =
  match getSuccs σ B cfg with
  | Ok [e] =>
      match Edges σ !! e with
      | Some s => Ok (SuccessorBlock s)
      | None => Undefined
      end
  | Ok _ => Ok None
  | AssertionFailure => AssertionFailure
  | Undefined => Undefined
  end.
Proof.
  destruct (getSuccs σ B cfg) as [ss| |] eqn:Hs.
  - assert (succ_empty σ B cfg =
            Ok (match ss with [] => true | _ => false end)) as Hemp
      by (unfold succ_empty; by rewrite bind_eq, Hs).
    assert (succ_begin σ B cfg = Ok (ss, 0)) as Hbeg
      by (unfold succ_begin; by rewrite bind_eq, Hs).
    assert (succ_end σ B cfg = Ok (ss, length ss)) as Hend
      by (unfold succ_end; by rewrite bind_eq, Hs).
    unfold getSingleSuccessor. rewrite (bind_Ok _ _ _ _ Hemp).
    destruct ss as [|e [|e' ss]]; [done| |].
    + rewrite (bind_Ok _ _ _ _ Hbeg), (bind_Ok _ _ _ _ Hend).
      rewrite bool_decide_eq_false_2 by (intros H; by apply H).
      rewrite (bind_Ok _ _ _ _ Hbeg). unfold succ_deref. simpl.
      rewrite !bind_eq. simpl. by destruct (Edges σ !! e).
    + rewrite (bind_Ok _ _ _ _ Hbeg), (bind_Ok _ _ _ _ Hend).
      by rewrite bool_decide_eq_true_2 by (intros [=]).
  - unfold getSingleSuccessor. rewrite bind_eq. unfold succ_empty.
    by rewrite bind_eq, Hs.
  - unfold getSingleSuccessor. rewrite bind_eq. unfold succ_empty.
    by rewrite bind_eq, Hs.
Qed.

Lemma getSinglePredecessor_eq σ B cfg :
  getSinglePredecessor σ B cfg =
  match PredList B with
  | None => Ok None
  | Some e =>
      match Edges σ !! e with
      | None => Undefined
      | Some s =>
          match Next s with
          | Some _ => Ok None
          | None =>
              match ContainingInst s with
              | None => Undefined
              | Some t =>
                  match Insts σ !! t with
                  | None => Undefined
                  | Some T => Ok (ParentBB T)
                  end
              end
          end
      end
  end.
Proof.
  unfold getSinglePredecessor, pred_empty, pred_begin, pred_end, pred_next,
    pred_deref.
  destruct (PredList B) as [e|]; [|by rewrite bool_decide_eq_true_2].
  rewrite bool_decide_eq_false_2 by done.
  assert (bool_decide (is_Some (Some e)) = true) as ->
    by (apply bool_decide_eq_true_2; eauto).
  rewrite !bind_eq, !assert_true. simpl. rewrite !bind_eq.
  destruct (Edges σ !! e) as [s|] eqn:He; simpl; [|done].
  destruct (Next s) as [n|]; simpl; [done|].
  rewrite !bind_eq, !assert_true. simpl. rewrite bind_eq, He. simpl.
  rewrite bind_eq.
  destruct (ContainingInst s) as [t|]; simpl; [|done].
  rewrite !bind_eq. by destruct (Insts σ !! t).
Qed.

(** X2. [getSinglePredecessor] tests [pred_empty] before it advances
    [pred_begin], so it never steps a null iterator: it stops on no assertion
    in any build, and its outcome does not depend on the build. *)
Theorem getSinglePredecessor_no_assertion σ B cfg :
  getSinglePredecessor σ B cfg ≠ AssertionFailure ∧
  getSinglePredecessor σ B cfg = getSinglePredecessor σ B Debug.
Proof.
  rewrite !getSinglePredecessor_eq.
  destruct (PredList B) as [e|]; [|done].
  destruct (Edges σ !! e) as [s|]; [|done].
  destruct (Next s); [done|].
  destruct (ContainingInst s) as [t|]; [|done].
  by destruct (Insts σ !! t).
Qed.

(** X3. [getSingleSuccessor] returns a block exactly when the terminator has
    one successor edge and that edge has a target; it returns null when the
    number of edges is not one, whatever their targets, and also when the
    only edge has no target. *)
Theorem getSingleSuccessor_unique_edge σ B cfg :
  (∀ b', getSingleSuccessor σ B cfg = Ok (Some b') ↔
         ∃ e s, getSuccs σ B cfg = Ok [e] ∧ Edges σ !! e = Some s ∧
                SuccessorBlock s = Some b') ∧
  (getSingleSuccessor σ B cfg = Ok None ↔
   ∃ ss, getSuccs σ B cfg = Ok ss ∧
         (length ss ≠ 1 ∨
          ∃ e s, ss = [e] ∧ Edges σ !! e = Some s ∧
                 SuccessorBlock s = None)).
Proof.
  rewrite getSingleSuccessor_eq.
  destruct (getSuccs σ B cfg) as [[|e [|e' ss]]| |].
  - split; [intros b'; split; [done|by intros (e & s & [=] & _)]|].
    split; [|done]. intros _. exists []. split; [done|]. by left.
  - destruct (Edges σ !! e) as [s|] eqn:He.
    + split; [intros b'; split|split].
      * intros [= Hb]. by exists e, s.
      * intros (e0 & s0 & [= <-] & Hs0 & Ht). congruence.
      * intros [= Hn]. exists [e]. split; [done|]. right. by exists e, s.
      * intros (ss & [= <-] & [Hl | (e0 & s0 & [= <-] & Hs0 & Hn)]);
          [done|congruence].
    + split; [intros b'; split|split]; try done.
      * intros (e0 & s0 & [= <-] & Hs0 & Ht). congruence.
      * intros (ss & [= <-] & [Hl | (e0 & s0 & [= <-] & Hs0 & Hn)]);
          [done|congruence].
  - split; [intros b'; split; [done|by intros (e0 & s & [=] & _)]|].
    split; [|done]. intros _. exists (e :: e' :: ss). split; [done|].
    by left.
  - split; [intros b'; split; [done|by intros (e & s & [=] & _)]|].
    split; [done|]. by intros (ss & [=] & _).
  - split; [intros b'; split; [done|by intros (e & s & [=] & _)]|].
    split; [done|]. by intros (ss & [=] & _).
Qed.

(** * The sample stores *)

Lemma twin_reachable : reachable twin_store.
Proof. by apply (exec_reachable twin_ops empty_store); [constructor|]. Qed.

Lemma twin_store_ok : store_ok twin_store.
Proof. apply reachable_store_ok, twin_reachable. Qed.

(** * Predecessors and the edges that target a block *)

Lemma block_chain σ b B :
  preds_ok σ → Blocks σ !! b = Some B →
  ∃ l, NoDup l ∧ is_chain (Edges σ) b (PredListOf b) (PredList B) l ∧
       ∀ e s, Edges σ !! e = Some s → SuccessorBlock s = Some b → e ∈ l.
Proof.
  intros [Hp _] HB.
  destruct (Hp b (PredList B)) as (l & Hnd & Hch & Hall & _).
  { by rewrite lookup_fmap, HB. }
  exists l. split_and!; [done..|]. intros e s He Hs. by eapply Hall.
Qed.

(** X4. In a store that satisfies the invariants, [pred_empty] is true for a
    block exactly when no edge of the store targets it. *)
Theorem pred_empty_no_edge σ b B :
  store_ok σ → Blocks σ !! b = Some B →
  pred_empty B = true ↔
  ∀ e s, Edges σ !! e = Some s → SuccessorBlock s ≠ Some b.
Proof.
  intros [Hp _] HB. destruct (block_chain σ b B Hp HB) as (l & _ & Hch & Hall).
  unfold pred_empty. rewrite bool_decide_eq_true. split.
  - intros Hnone e s He Hs. rewrite Hnone in Hch.
    apply is_chain_head in Hch. destruct l as [|x l]; [|done].
    by apply (Hall e s He), elem_of_nil in Hs.
  - intros Hno. destruct l as [|x l]; [done|].
    destruct (is_chain_live _ _ _ _ _ x Hch) as (s & He & Hs);
      [apply list_elem_of_here|].
    by destruct (Hno x s He).
Qed.

Lemma pred_empty_no_edge_witness :
  pred_empty sample_B0 = true ↔
  ∀ e s, Edges sample_store !! e = Some s → SuccessorBlock s ≠ Some 0.
Proof.
  apply (pred_empty_no_edge sample_store 0 sample_B0).
  - apply sample_store_ok.
  - vm_compute. reflexivity.
Defined.

(** X5. In a store that satisfies the invariants, [getSinglePredecessor]
    counts edges, not blocks: it returns a block exactly when one edge
    targets this block, and then the block that holds the terminator owning
    the edge; it returns null exactly when no edge or at least two distinct
    edges target this block, even if they come from the same block. *)
Theorem getSinglePredecessor_unique_edge σ b B cfg :
  store_ok σ → Blocks σ !! b = Some B →
  (∀ p, getSinglePredecessor σ B cfg = Ok (Some p) ↔
        ∃ e s t I,
          Edges σ !! e = Some s ∧ SuccessorBlock s = Some b ∧
          ContainingInst s = Some t ∧ Insts σ !! t = Some I ∧
          ParentBB I = Some p ∧
          ∀ e' s', Edges σ !! e' = Some s' → SuccessorBlock s' = Some b →
                   e' = e) ∧
  (getSinglePredecessor σ B cfg = Ok None ↔
   (∀ e s, Edges σ !! e = Some s → SuccessorBlock s ≠ Some b) ∨
   ∃ e1 s1 e2 s2, e1 ≠ e2 ∧
     Edges σ !! e1 = Some s1 ∧ SuccessorBlock s1 = Some b ∧
     Edges σ !! e2 = Some s2 ∧ SuccessorBlock s2 = Some b).
Proof.
  intros [Hp Ho] HB.
  destruct (block_chain σ b B Hp HB) as (l & Hnd & Hch & Hall).
  pose proof (getSinglePredecessor_chain σ b B l cfg Ho Hch) as Hg.
  assert (∀ x, x ∈ l → ∃ s, Edges σ !! x = Some s ∧ SuccessorBlock s = Some b)
    as Hlive by (intros x; apply (is_chain_live _ _ _ _ _ x Hch)).
  destruct l as [|x [|y l]].
  - rewrite Hg. split; [intros p; split; [done|]|split; [|done]].
    + intros (e & s & t & I & He & Hs & _).
      by apply (Hall e s He), elem_of_nil in Hs.
    + intros _. left. intros e s He Hs.
      by apply (Hall e s He), elem_of_nil in Hs.
  - destruct Hg as (s & t & I & p0 & Hx & Ht & HI & Hp0 & ->).
    destruct (Hlive x) as (s' & Hx' & Hs); [apply list_elem_of_here|].
    assert (s' = s) as -> by congruence.
    split; [intros p; split|split; [done|]].
    + intros [= <-]. exists x, s, t, I. split_and!; try done.
      intros e' s' He' Hs'. by apply (Hall e' s' He'), list_elem_of_singleton in Hs'.
    + intros (e & s0 & t0 & I0 & He & Hs0 & Ht0 & HI0 & HP0 & _).
      apply (Hall e s0 He), list_elem_of_singleton in Hs0 as ->.
      f_equal. congruence.
    + intros [Hno | (e1 & s1 & e2 & s2 & Hne & H1 & Hs1 & H2 & Hs2)].
      * by destruct (Hno x s Hx).
      * apply (Hall e1 s1 H1), list_elem_of_singleton in Hs1.
        apply (Hall e2 s2 H2), list_elem_of_singleton in Hs2. congruence.
  - rewrite Hg.
    destruct (Hlive x) as (sx & Hx & Hsx); [apply list_elem_of_here|].
    destruct (Hlive y) as (sy & Hy & Hsy);
      [apply list_elem_of_further, list_elem_of_here|].
    assert (x ≠ y) as Hxy.
    { intros ->. apply NoDup_cons in Hnd as [Hnin _].
      apply Hnin, list_elem_of_here. }
    split; [intros p; split; [done|]|split; [|done]].
    + intros (e & s & t & I & _ & _ & _ & _ & _ & Huniq).
      destruct Hxy. pose proof (Huniq x sx Hx Hsx).
      pose proof (Huniq y sy Hy Hsy). congruence.
    + intros _. right. by exists x, sx, y, sy.
Qed.

Lemma getSinglePredecessor_unique_edge_witness :
  getSinglePredecessor twin_store twin_B1 Debug = Ok None ↔
  (∀ e s, Edges twin_store !! e = Some s → SuccessorBlock s ≠ Some 1) ∨
  ∃ e1 s1 e2 s2, e1 ≠ e2 ∧
    Edges twin_store !! e1 = Some s1 ∧ SuccessorBlock s1 = Some 1 ∧
    Edges twin_store !! e2 = Some s2 ∧ SuccessorBlock s2 = Some 1.
Proof.
  apply (getSinglePredecessor_unique_edge twin_store 1 twin_B1 Debug).
  - apply twin_store_ok.
  - vm_compute. reflexivity.
Defined.

(** * Successor queries on the blocks of a reachable store *)

Lemma last_elem_of {A} (l : list A) x : last l = Some x → x ∈ l.
Proof.
  intros [l' ->]%last_Some. apply elem_of_app. right. apply list_elem_of_here.
Qed.

Lemma block_terminator_cases σ b B :
  lists_ok σ → Blocks σ !! b = Some B →
  has_terminator σ B ∨ no_terminator σ B.
Proof.
  intros Hl HB. destruct (last (InstList B)) as [t|] eqn:Hlast.
  - destruct (proj2 (Hl b B HB) t (last_elem_of _ _ Hlast)) as (I & HI & _).
    destruct (isa_TermInst I) eqn:Hisa.
    + left. exists t. split; [done|]. by exists I.
    + right. right. by exists t, I.
  - right. left. by apply last_None.
Qed.

(** X6. In a debug build no successor query runs into undefined behaviour
    on a block of a reachable store, and neither does
    [getSinglePredecessor]: each of them returns or stops on the assertion
    of [getTerminator]. *)
Theorem successor_queries_checked σ b B :
  reachable σ → Blocks σ !! b = Some B →
  getTerminator σ B Debug ≠ Undefined ∧ getSuccs σ B Debug ≠ Undefined ∧
  succ_empty σ B Debug ≠ Undefined ∧ succ_begin σ B Debug ≠ Undefined ∧
  succ_end σ B Debug ≠ Undefined ∧
  getSingleSuccessor σ B Debug ≠ Undefined ∧
  getSinglePredecessor σ B Debug ≠ Undefined.
Proof.
  intros Hr HB. pose proof (reachable_store_ok σ Hr) as [Hp Ho].
  pose proof (reachable_lists_ok σ Hr) as Hl.
  assert (getSinglePredecessor σ B Debug ≠ Undefined) as Hsp.
  { destruct (block_chain σ b B Hp HB) as (l & _ & Hch & _).
    pose proof (getSinglePredecessor_chain σ b B l Debug Ho Hch) as Hg.
    destruct l as [|x [|y l]]; [by rewrite Hg| |by rewrite Hg].
    by destruct Hg as (s & t & I & p0 & _ & _ & _ & _ & ->). }
  destruct (block_terminator_cases σ b B Hl HB) as [(t & Hlast & I & HI & Hisa)|Hno].
  - pose proof (getSuccs_Ok σ B Debug t I Hlast HI Hisa) as Hs.
    pose proof (getSingleSuccessor_edges σ B t I Debug Ho Hlast HI Hisa) as Hg.
    split_and!; try done.
    + by rewrite (getTerminator_Ok σ B Debug t Hlast) by (by exists I).
    + by rewrite Hs.
    + unfold succ_empty. by rewrite (bind_Ok _ _ _ _ Hs).
    + unfold succ_begin. by rewrite (bind_Ok _ _ _ _ Hs).
    + unfold succ_end. by rewrite (bind_Ok _ _ _ _ Hs).
    + destruct (getSuccessors I) as [|e [|e' ss]]; [by rewrite Hg| |by rewrite Hg].
      by destruct Hg as (s & _ & ->).
  - destruct (getTerminator_no_terminator σ B Debug Hno) as [Ht _].
    assert (getSuccs σ B Debug = AssertionFailure) as Hs
      by (by apply bind_AssertionFailure).
    split_and!; try done.
    + by rewrite Ht.
    + by rewrite Hs.
    + unfold succ_empty. by rewrite (bind_AssertionFailure _ _ _ Hs).
    + unfold succ_begin. by rewrite (bind_AssertionFailure _ _ _ Hs).
    + unfold succ_end. by rewrite (bind_AssertionFailure _ _ _ Hs).
    + by rewrite getSingleSuccessor_eq, Hs.
Qed.

Lemma successor_queries_checked_witness :
  getTerminator sample_store sample_B0 Debug ≠ Undefined ∧
  getSuccs sample_store sample_B0 Debug ≠ Undefined ∧
  succ_empty sample_store sample_B0 Debug ≠ Undefined ∧
  succ_begin sample_store sample_B0 Debug ≠ Undefined ∧
  succ_end sample_store sample_B0 Debug ≠ Undefined ∧
  getSingleSuccessor sample_store sample_B0 Debug ≠ Undefined ∧
  getSinglePredecessor sample_store sample_B0 Debug ≠ Undefined.
Proof.
  apply (successor_queries_checked sample_store 0 sample_B0).
  - apply sample_reachable.
  - vm_compute. reflexivity.
Defined.

(** X7. The instruction that [getTerminator] returns on a block of a
    reachable store is the last instruction of that block, is a terminator
    and names the block as its parent; no two blocks have the same
    terminator. *)
Theorem getTerminator_of_block σ b B cfg t :
  reachable σ → Blocks σ !! b = Some B → getTerminator σ B cfg = Ok t →
  (∃ I, Insts σ !! t = Some I ∧ isa_TermInst I = true ∧
        ParentBB I = Some b ∧ last (InstList B) = Some t) ∧
  (∀ b' B' cfg', Blocks σ !! b' = Some B' →
                 getTerminator σ B' cfg' = Ok t → b' = b).
Proof.
  intros Hr HB Ht. pose proof (reachable_lists_ok σ Hr) as Hl.
  assert (∀ b0 B0 c, Blocks σ !! b0 = Some B0 → getTerminator σ B0 c = Ok t →
            ∃ I, Insts σ !! t = Some I ∧ isa_TermInst I = true ∧
                 ParentBB I = Some b0 ∧ last (InstList B0) = Some t) as Hof.
  { intros b0 B0 c HB0 [Hlast (I & HI & Hisa)]%getTerminator_Ok_inv.
    destruct (proj2 (Hl b0 B0 HB0) t (last_elem_of _ _ Hlast))
      as (I' & HI' & HP).
    exists I. split_and!; try done. congruence. }
  split; [by eapply Hof|]. intros b' B' cfg' HB' Ht'.
  destruct (Hof b B cfg HB Ht) as (I & HI & _ & HP & _).
  destruct (Hof b' B' cfg' HB' Ht') as (I' & HI' & _ & HP' & _). congruence.
Qed.

Lemma getTerminator_of_block_witness :
  (∃ I, Insts sample_store !! 2 = Some I ∧ isa_TermInst I = true ∧
        ParentBB I = Some 0 ∧ last (InstList sample_B0) = Some 2) ∧
  (∀ b' B' cfg', Blocks sample_store !! b' = Some B' →
                 getTerminator sample_store B' cfg' = Ok 2 → b' = 0).
Proof.
  apply (getTerminator_of_block sample_store 0 sample_B0 Debug 2).
  - apply sample_reachable.
  - vm_compute. reflexivity.
  - vm_compute. reflexivity.
Defined.

(** * Successors and predecessors as blocks *)



(** X9. In a reachable store every predecessor has the block as a
    successor: the predecessor iterator at an edge of the predecessor list of
    block [b] yields a block of the store that holds the terminator owning
    the edge, and the edge targets [b]; if that block is well formed, the
    edge is one of those [getSuccs] returns for it. *)
Theorem predecessors_are_successors σ b B cfg l e :
  reachable σ → Blocks σ !! b = Some B →
  pred_edges σ B = Some l → e ∈ l →
  ∃ p P s t I,
    pred_deref σ (Some e) cfg = Ok (Some p) ∧ Blocks σ !! p = Some P ∧
    Edges σ !! e = Some s ∧ SuccessorBlock s = Some b ∧
    ContainingInst s = Some t ∧ t ∈ InstList P ∧
    Insts σ !! t = Some I ∧ isa_TermInst I = true ∧ e ∈ getSuccessors I ∧
    (well_formed σ P → getSuccs σ P cfg = Ok (getSuccessors I)).
Proof.
  intros Hr HB Hl He. pose proof (reachable_store_ok σ Hr) as [Hp Ho].
  destruct (preds_of_total σ b B Hp HB) as (l' & Hl' & _ & Hin).
  assert (l' = l) as -> by congruence.
  apply Hin in He as (s & Hes & Hb).
  destruct Ho as (Ho1 & _ & Ho3 & _).
  destruct (Ho1 e s Hes) as (t & I & Hc & HI & HeI).
  destruct (Ho3 t I HI) as (p & P & Hpar & HP & HtP).
  pose proof (getSuccessors_isa I e HeI) as Hisa.
  exists p, P, s, t, I. split_and!; try done.
  - rewrite <- Hpar. by apply (pred_deref_Ok σ e s t I).
  - intros (body & t0 & Hlist & _ & Hbody).
    apply (getSuccs_Ok σ P cfg t I); [|done..].
    rewrite Hlist in HtP |- *. rewrite last_snoc. f_equal.
    apply elem_of_app in HtP as [Hin'|Hin'].
    + destruct (Hbody t Hin') as (I' & HI' & Hisa'). congruence.
    + by apply list_elem_of_singleton in Hin'.
Qed.

Lemma predecessors_are_successors_witness :
  ∃ p P s t I,
    pred_deref sample_store (Some 0) Debug = Ok (Some p) ∧
    Blocks sample_store !! p = Some P ∧
    Edges sample_store !! 0 = Some s ∧ SuccessorBlock s = Some 1 ∧
    ContainingInst s = Some t ∧ t ∈ InstList P ∧
    Insts sample_store !! t = Some I ∧ isa_TermInst I = true ∧
    0 ∈ getSuccessors I ∧
    (well_formed sample_store P →
     getSuccs sample_store P Debug = Ok (getSuccessors I)).
Proof.
  apply (predecessors_are_successors sample_store 1 sample_B1 Debug [0] 0).
  - apply sample_reachable.
  - vm_compute. reflexivity.
  - vm_compute. reflexivity.
  - apply list_elem_of_here.
Defined.

(** * The successor range *)

Lemma succ_next_iter ss k : Nat.iter k succ_next (ss, 0) = (ss, k).
Proof. induction k as [|k IH]; [done|]. simpl. by rewrite IH. Qed.

(** X10. The successor range of a block is the successor array of its
    terminator: stepping [succ_begin] reaches [succ_end] after as many steps
    as there are edges and not before, the iterator after [k] steps
    dereferences to the target of the [k]-th edge, and [succ_empty] holds
    exactly when [succ_begin] and [succ_end] are equal. *)
Theorem succ_range_traversal σ B cfg ss :
  getSuccs σ B cfg = Ok ss →
  succ_begin σ B cfg = Ok (ss, 0) ∧
  succ_end σ B cfg = Ok (Nat.iter (length ss) succ_next (ss, 0)) ∧
  (∀ k, k < length ss →
        succ_end σ B cfg ≠ Ok (Nat.iter k succ_next (ss, 0))) ∧
  (∀ k e s, ss !! k = Some e → Edges σ !! e = Some s →
        succ_deref σ (Nat.iter k succ_next (ss, 0)) cfg =
          Ok (SuccessorBlock s)) ∧
  (succ_empty σ B cfg = Ok true ↔ succ_begin σ B cfg = succ_end σ B cfg).
Proof.
  intros Hs.
  assert (succ_begin σ B cfg = Ok (ss, 0)) as Hbeg
    by (unfold succ_begin; by rewrite bind_eq, Hs).
  assert (succ_end σ B cfg = Ok (ss, length ss)) as Hend
    by (unfold succ_end; by rewrite bind_eq, Hs).
  split_and!; try done.
  - by rewrite succ_next_iter.
  - intros k Hk. rewrite succ_next_iter, Hend. intros [= Heq]. lia.
  - intros k e s Hk He. rewrite succ_next_iter. unfold succ_deref. simpl.
    rewrite (bind_Ok _ _ _ _ (deref_Some _ _ cfg Hk)).
    by rewrite (bind_Ok _ _ _ _ (deref_Some _ _ cfg He)).
  - rewrite Hbeg, Hend. unfold succ_empty. rewrite bind_eq, Hs.
    destruct ss; [done|]. split; intros [=].
Qed.

Lemma succ_range_traversal_witness :
  succ_begin sample_store sample_B0 Debug = Ok ([0], 0) ∧
  succ_end sample_store sample_B0 Debug =
    Ok (Nat.iter (length [0]) succ_next ([0], 0)) ∧
  (∀ k, k < length [0] →
        succ_end sample_store sample_B0 Debug ≠
          Ok (Nat.iter k succ_next ([0], 0))) ∧
  (∀ k e s, [0] !! k = Some e → Edges sample_store !! e = Some s →
        succ_deref sample_store (Nat.iter k succ_next ([0], 0)) Debug =
          Ok (SuccessorBlock s)) ∧
  (succ_empty sample_store sample_B0 Debug = Ok true ↔
   succ_begin sample_store sample_B0 Debug =
     succ_end sample_store sample_B0 Debug).
Proof.
  apply (succ_range_traversal sample_store sample_B0 Debug [0]).
  vm_compute. reflexivity.
Defined.

(** * The argument list *)

Lemma set_BBArgList_id B : set_BBArgList (BBArgList B) B = B.
Proof. by destruct B. Qed.

(** X11. For an argument list shorter than [2 ^ 32], the index loop over
    [getNumBBArg] and [getBBArg] enumerates exactly [getBBArgs], in order
    and without undefined behaviour, and [getNumBBArg] is zero exactly when
    [bbarg_empty] holds. *)
Theorem getBBArg_enumerates B cfg :
  (N.of_nat (bbarg_size B) < 2 ^ 32)%N →
  (λ i, getBBArg B (N.of_nat i) cfg) <$> seq 0 (N.to_nat (getNumBBArg B))
    = Ok <$> getBBArgs B ∧
  getNumBBArg B = N.of_nat (bbarg_size B) ∧
  (bbarg_empty B = true ↔ getNumBBArg B = 0%N).
Proof.
  intros Hsz. unfold getNumBBArg, getBBArgs, bbarg_empty, bbarg_size in *.
  rewrite N.mod_small by done. rewrite Nat2N.id. split_and!; [|done|].
  - apply list_eq. intros i. rewrite !list_lookup_fmap.
    destruct (decide (i < length (BBArgList B))) as [Hlt|Hge].
    + rewrite lookup_seq_lt by done. simpl.
      destruct (lookup_lt_is_Some_2 _ _ Hlt) as [a Ha].
      unfold getBBArg. by rewrite Nat2N.id, Ha.
    + rewrite lookup_seq_ge by lia.
      by rewrite lookup_ge_None_2 by lia.
  - destruct (BBArgList B); simpl; [done|]. split; [done|lia].
Qed.

Lemma getBBArg_enumerates_witness :
  (λ i, getBBArg sample_B1 (N.of_nat i) Debug)
    <$> seq 0 (N.to_nat (getNumBBArg sample_B1))
    = Ok <$> getBBArgs sample_B1 ∧
  getNumBBArg sample_B1 = N.of_nat (bbarg_size sample_B1) ∧
  (bbarg_empty sample_B1 = true ↔ getNumBBArg sample_B1 = 0%N).
Proof.
  apply (getBBArg_enumerates sample_B1 Debug). vm_compute. reflexivity.
Defined.

(** X12. [addArgument] followed by [eraseArgument] at the old size of the
    argument list gives the block back: the new argument is at that index
    and erasing it undoes the addition.  At every other index the two
    operations commute, undefined behaviour included. *)
Theorem addArgument_eraseArgument B a cfg :
  (∃ B1, addArgument B a cfg = Ok B1 ∧
         bbarg_size B1 = S (bbarg_size B) ∧
         getBBArg B1 (N.of_nat (bbarg_size B)) cfg = Ok a ∧
         eraseArgument B1 (Z.of_nat (bbarg_size B)) cfg = Ok B) ∧
  (∀ idx, idx ≠ Z.of_nat (bbarg_size B) →
     (B1 ← addArgument B a; eraseArgument B1 idx) cfg =
     (B1 ← eraseArgument B idx; addArgument B1 a) cfg).
Proof.
  unfold bbarg_size. split.
  - eexists. split; [done|]. simpl. split_and!.
    + rewrite length_app. simpl. lia.
    + unfold getBBArg. simpl. rewrite Nat2N.id.
      by rewrite lookup_app_r, Nat.sub_diag by done.
    + unfold eraseArgument. simpl.
      rewrite bool_decide_eq_true_2 by (rewrite length_app; simpl; lia).
      rewrite Nat2Z.id, delete_take_drop.
      rewrite take_app_length, drop_ge by (rewrite length_app; simpl; lia).
      rewrite app_nil_r. unfold ret. f_equal. by destruct B.
  - intros idx Hne. rewrite !bind_eq. unfold addArgument at 1. unfold ret at 1.
    unfold eraseArgument. simpl. rewrite length_app. simpl.
    destruct (decide (0 ≤ idx < Z.of_nat (length (BBArgList B)))%Z) as [Hin|Hout].
    + rewrite !bool_decide_eq_true_2 by lia. unfold ret at 2.
      unfold addArgument, ret. simpl. f_equal. unfold set_BBArgList. simpl.
      f_equal. rewrite !delete_take_drop.
      rewrite take_app_le, drop_app_le by lia. by rewrite <- app_assoc.
    + by rewrite !bool_decide_eq_false_2 by lia.
Qed.

Lemma addArgument_eraseArgument_witness :
  (B1 ← addArgument sample_B1 9; eraseArgument B1 0) Debug =
  (B1 ← eraseArgument sample_B1 0; addArgument B1 9) Debug.
Proof.
  apply (proj2 (addArgument_eraseArgument sample_B1 9 Debug) 0%Z).
  unfold bbarg_size. simpl. lia.
Defined.

Lemma erase_front_iter B cfg n :
  n ≤ length (BBArgList B) →
  Nat.iter n (λ m : M SILBasicBlock, B' ← m; eraseArgument B' 0) (ret B) cfg
    = Ok (set_BBArgList (drop n (BBArgList B)) B).
Proof.
  induction n as [|n IH]; intros Hn.
  - simpl. by rewrite drop_0, set_BBArgList_id.
  - simpl. rewrite bind_eq, IH by lia. unfold eraseArgument. simpl.
    rewrite bool_decide_eq_true_2 by (rewrite length_drop; lia).
    unfold ret. f_equal. unfold set_BBArgList. simpl. f_equal.
    destruct (drop n (BBArgList B)) as [|x l] eqn:Hd.
    { apply (f_equal length) in Hd. rewrite length_drop in Hd. simpl in Hd. lia. }
    simpl. replace (S n) with (n + 1) by lia. by rewrite <- drop_drop, Hd.
Qed.

(** X13. Erasing the argument at index 0 as many times as the block has
    arguments returns every time and leaves the block that [dropAllArgs]
    leaves; erasing once more is undefined behaviour. *)
Theorem eraseArgument_front_all B cfg :
  Nat.iter (bbarg_size B) (λ m : M SILBasicBlock, B' ← m; eraseArgument B' 0)
    (ret B) cfg = dropAllArgs B cfg ∧
  Nat.iter (S (bbarg_size B))
    (λ m : M SILBasicBlock, B' ← m; eraseArgument B' 0) (ret B) cfg
    = Undefined.
Proof.
  unfold bbarg_size. split.
  - rewrite erase_front_iter by done. by rewrite drop_all.
  - simpl. rewrite bind_eq, erase_front_iter by done. by rewrite drop_all.
Qed.

(** X14. The operations on the argument list of a block leave the control
    flow as it is: every block of the store is still there, with the same
    parent and the same instructions, and every successor and predecessor
    query has the outcome it had, in the same build. *)
Theorem argument_ops_keep_cfg σ σ' op b cfg :
  arg_op_block op = Some b → run op σ cfg = Ok σ' →
  ∀ b0 B0, Blocks σ !! b0 = Some B0 →
    ∃ B0', Blocks σ' !! b0 = Some B0' ∧
      getParent B0' = getParent B0 ∧ getInstList B0' = getInstList B0 ∧
      (∀ c, getTerminator σ' B0' c = getTerminator σ B0 c) ∧
      (∀ c, getSuccs σ' B0' c = getSuccs σ B0 c) ∧
      (∀ c, succ_empty σ' B0' c = succ_empty σ B0 c) ∧
      (∀ c, getSingleSuccessor σ' B0' c = getSingleSuccessor σ B0 c) ∧
      pred_empty B0' = pred_empty B0 ∧ getPreds B0' = getPreds B0 ∧
      pred_edges σ' B0' = pred_edges σ B0 ∧
      (∀ c, getSinglePredecessor σ' B0' c = getSinglePredecessor σ B0 c).
Proof.
  intros Hop Hr.
  assert (∃ B l, Blocks σ !! b = Some B ∧
            σ' = set_Blocks (<[b := set_BBArgList l B]> (Blocks σ)) σ)
    as (B & l & HB & ->).
  { destruct op; try done; simpl in Hop, Hr; injection Hop as ->;
      apply on_block_inv in Hr as (B & B' & HB & HfB & ->); exists B.
    - destruct (proj1 (arg_op_shape B cfg) _ _ HfB) as [l ->]. by exists l.
    - destruct (proj1 (proj2 (arg_op_shape B cfg)) _ _ HfB) as [l ->].
      by exists l.
    - destruct (proj2 (proj2 (arg_op_shape B cfg)) _ HfB) as [l ->].
      by exists l. }
  intros b0 B0 HB0. simpl. destruct (decide (b0 = b)) as [->|Hne].
  - rewrite lookup_insert_eq. assert (B0 = B) as -> by congruence.
    eexists. split; [done|]. by split_and!.
  - rewrite lookup_insert_ne by done. exists B0. by split_and!.
Qed.

Lemma argument_ops_keep_cfg_witness :
  ∃ B0', Blocks sample_store_arg !! 1 = Some B0' ∧
    getParent B0' = getParent sample_B1 ∧
    getInstList B0' = getInstList sample_B1 ∧
    (∀ c, getTerminator sample_store_arg B0' c =
          getTerminator sample_store sample_B1 c) ∧
    (∀ c, getSuccs sample_store_arg B0' c =
          getSuccs sample_store sample_B1 c) ∧
    (∀ c, succ_empty sample_store_arg B0' c =
          succ_empty sample_store sample_B1 c) ∧
    (∀ c, getSingleSuccessor sample_store_arg B0' c =
          getSingleSuccessor sample_store sample_B1 c) ∧
    pred_empty B0' = pred_empty sample_B1 ∧
    getPreds B0' = getPreds sample_B1 ∧
    pred_edges sample_store_arg B0' = pred_edges sample_store sample_B1 ∧
    (∀ c, getSinglePredecessor sample_store_arg B0' c =
          getSinglePredecessor sample_store sample_B1 c).
Proof.
  apply (argument_ops_keep_cfg sample_store sample_store_arg
           (OpAddArgument 1 9) 1 Debug).
  - reflexivity.
  - vm_compute. reflexivity.
  - vm_compute. reflexivity.
Defined.

(** * The block sequences of a reachable store *)

Lemma funs_ok_parents σ σ' :
  Functions σ' = Functions σ →
  (∀ b, Parent <$> Blocks σ' !! b = Parent <$> Blocks σ !! b) →
  funs_ok σ → funs_ok σ'.
Proof.
  intros HF HP Hf F bl. rewrite HF. intros HFl.
  destruct (Hf F bl HFl) as [Hnd Hin]. split; [done|].
  intros b Hb. destruct (Hin b Hb) as (B & HB & HPar).
  specialize (HP b). rewrite HB in HP. simpl in HP.
  destruct (Blocks σ' !! b) as [B'|]; [|done]. injection HP as HP.
  exists B'. split; [done|congruence].
Qed.

Lemma frames_parent σ σ' :
  block_frame <$> Blocks σ' = block_frame <$> Blocks σ →
  ∀ b, Parent <$> Blocks σ' !! b = Parent <$> Blocks σ !! b.
Proof.
  intros HB b. pose proof (f_equal (.!! b) HB) as H. simpl in H.
  rewrite !lookup_fmap in H.
  destruct (Blocks σ' !! b) as [B'|], (Blocks σ !! b) as [B|];
    simpl in *; try done.
  injection H as H. unfold block_frame in H. congruence.
Qed.

Lemma frames_parent_insert σ σ' b B l :
  Blocks σ !! b = Some B →
  block_frame <$> Blocks σ' =
    <[b := (Parent B, BBArgList B, l)]> (block_frame <$> Blocks σ) →
  ∀ b0, Parent <$> Blocks σ' !! b0 = Parent <$> Blocks σ !! b0.
Proof.
  intros HB HBl b0. pose proof (f_equal (.!! b0) HBl) as H. simpl in H.
  rewrite lookup_fmap in H. destruct (decide (b0 = b)) as [->|Hne].
  - rewrite lookup_insert_eq in H. rewrite HB.
    destruct (Blocks σ' !! b) as [B'|]; simpl in *; [|done].
    injection H as H. unfold block_frame in H. simpl. congruence.
  - rewrite lookup_insert_ne, lookup_fmap in H by done.
    destruct (Blocks σ' !! b0) as [B'|], (Blocks σ !! b0) as [B0|];
      simpl in *; try done.
    injection H as H. unfold block_frame in H. congruence.
Qed.

Lemma parents_update_block σ b B B' :
  Blocks σ !! b = Some B → Parent B' = Parent B →
  ∀ b0, Parent <$> <[b := B']> (Blocks σ) !! b0 = Parent <$> Blocks σ !! b0.
Proof.
  intros HB HP b0. destruct (decide (b0 = b)) as [->|Hne].
  - rewrite lookup_insert_eq, HB. simpl. by rewrite HP.
  - by rewrite lookup_insert_ne.
Qed.

Lemma funs_ok_live σ F bl x b :
  funs_ok σ → Blocks σ !! b = None → Functions σ !! F = Some bl → x ∈ bl →
  b ≠ x.
Proof.
  intros Hf Hb HF Hx ->. destruct (proj2 (Hf F bl HF) x Hx) as (B & HB & _).
  congruence.
Qed.

Lemma splitBasicBlock_funs_ok b pos new σ cfg r :
  Blocks σ !! new = None → splitBasicBlock b pos new σ cfg = Ok r →
  funs_ok σ → funs_ok r.2.
Proof.
  intros Hnew Hr Hf.
  destruct (splitBasicBlock_inv _ _ _ _ _ _ Hr)
    as (B & F & pre & post & HB & HPar & HF & _ & _ & _ & HF' & _ & _ & HB').
  assert (new ≠ b) as Hnb by congruence.
  intros F' bl'. rewrite HF', HB'. destruct (decide (F' = F)) as [->|Hne].
  - rewrite lookup_insert_eq. intros [= <-].
    destruct (Hf F _ HF) as [Hnd Hin].
    assert (pre ++ b :: new :: post ≡ₚ new :: pre ++ b :: post) as Hperm.
    { rewrite <- !Permutation_middle. apply perm_swap. }
    split.
    + rewrite Hperm. apply NoDup_cons. split; [|done].
      intros Hx. by apply (funs_ok_live σ F _ new new Hf Hnew HF Hx).
    + intros x Hx. rewrite Hperm in Hx.
      apply elem_of_cons in Hx as [->|Hx].
      * rewrite lookup_insert_eq. by eexists.
      * rewrite lookup_insert_ne
          by (by apply (funs_ok_live σ F _ x new Hf Hnew HF Hx)).
        destruct (decide (x = b)) as [->|Hxb].
        -- rewrite lookup_insert_eq. by eexists.
        -- rewrite lookup_insert_ne by done. by apply Hin.
  - rewrite lookup_insert_ne by done. intros HFl.
    destruct (Hf F' bl' HFl) as [Hnd Hin]. split; [done|].
    intros x Hx. rewrite lookup_insert_ne
      by (by apply (funs_ok_live σ F' bl' x new Hf Hnew HFl Hx)).
    destruct (decide (x = b)) as [->|Hxb].
    + rewrite lookup_insert_eq. destruct (Hin b Hx) as (B0 & HB0 & HP0).
      eexists. split; [done|]. simpl. congruence.
    + rewrite lookup_insert_ne by done. by apply Hin.
Qed.

Lemma eraseInst_funs_ok i σ cfg σ' :
  eraseInst i σ cfg = Ok σ' → preds_ok σ → funs_ok σ → funs_ok σ'.
Proof.
  unfold eraseInst. intros (I & HI%deref_Ok_inv & Hr)%bind_Ok_inv Hp Hf.
  apply bind_Ok_inv in Hr as (p & Hpar%deref_Ok_inv & Hr).
  apply bind_Ok_inv in Hr as (B & HB%deref_Ok_inv & Hr).
  apply bind_Ok_inv in Hr as (σ2 & Hd & <-%ret_Ok_inv).
  set (B1 := set_InstList (filter (λ x, x ≠ i) (InstList B)) B) in *.
  set (σ1 := set_Blocks (<[p := B1]> (Blocks σ)) σ) in *.
  assert (preds_ok σ1) as Hp1 by (by apply (preds_ok_update_block _ _ B)).
  destruct (deleteSuccessors_inv _ _ _ _ Hp1 Hd) as (_ & HF2 & _ & HB2 & _).
  apply (funs_ok_parents σ); [done| |done].
  intros b0. cbn [Blocks set_Insts]. rewrite (frames_parent σ1 σ2 HB2 b0).
  by apply (parents_update_block σ p B).
Qed.

Lemma step_funs_ok σ σ' : step σ σ' → store_ok σ → funs_ok σ → funs_ok σ'.
Proof.
  intros (op & cfg & Hfr & Hr) [Hp Ho] Hf. destruct op; simpl in *.
  - unfold newFunction, ret in Hr. injection Hr as <-.
    intros F' bl. simpl. destruct (decide (F' = F)) as [->|Hne].
    + rewrite lookup_insert_eq. intros [= <-]. split; [constructor|].
      by intros b ?%elem_of_nil.
    + rewrite lookup_insert_ne by done. apply Hf.
  - unfold newBlock in Hr.
    apply bind_Ok_inv in Hr as (bl & HF%deref_Ok_inv & <-%ret_Ok_inv).
    intros F' bl'. simpl. destruct (decide (F' = F)) as [->|Hne].
    + rewrite lookup_insert_eq. intros [= <-].
      destruct (Hf F bl HF) as [Hnd Hin]. split.
      * apply NoDup_app. split_and!; [done| |apply NoDup_singleton].
        intros x Hx ->%list_elem_of_singleton.
        by apply (funs_ok_live σ F bl b b Hf Hfr HF Hx).
      * intros x [Hx | ->%list_elem_of_singleton]%elem_of_app.
        -- rewrite lookup_insert_ne
             by (by apply (funs_ok_live σ F bl x b Hf Hfr HF Hx)).
           by apply Hin.
        -- rewrite lookup_insert_eq. by eexists.
    + rewrite lookup_insert_ne by done. intros HFl.
      destruct (Hf F' bl' HFl) as [Hnd Hin]. split; [done|].
      intros x Hx. rewrite lookup_insert_ne
        by (by apply (funs_ok_live σ F' bl' x b Hf Hfr HFl Hx)).
      by apply Hin.
  - destruct (push_back_inst_inv _ _ _ _ _ Hr)
      as (B & I & HB & _ & HF' & _ & _ & HB').
    apply (funs_ok_parents σ); [done| |done]. rewrite HB'.
    by apply (parents_update_block σ b B).
  - destruct Hfr as (Ht & Hnd & He).
    destruct (new_term_inv b t ets σ cfg σ' Hp Ht Hnd) as
      (B & HB & _ & HF' & _ & HBl & _); [by apply Forall_forall|done|].
    apply (funs_ok_parents σ); [done| |done].
    by eapply frames_parent_insert.
  - destruct (setSuccessor_Ok_inv _ _ _ _ _ Hp Hr) as (_ & Hsf & _).
    destruct Hsf as (HF' & _ & HBl & _).
    apply (funs_ok_parents σ); [done| |done]. by apply frames_parent.
  - by eapply eraseInst_funs_ok.
  - apply bind_Ok_inv in Hr as (r & Hs & <-%ret_Ok_inv).
    by eapply splitBasicBlock_funs_ok.
  - destruct Hfr as (Hn & Ht & He).
    apply bind_Ok_inv in Hr as (r & Hs & <-%ret_Ok_inv).
    apply splitBasicBlockAndBranch_inv in Hs as (σ1 & Hs & _ & Hb).
    pose proof (splitBasicBlock_ok _ _ _ _ _ _ Hn Hs (conj Hp Ho)) as [Hp1 _].
    pose proof (splitBasicBlock_funs_ok _ _ _ _ _ _ Hn Hs Hf) as Hf1.
    destruct (splitBasicBlock_inv _ _ _ _ _ _ Hs)
      as (B & F & pre & post & _ & _ & _ & _ & _ & _ & _ & HI1 & HE1 & _).
    simpl in *.
    destruct (new_term_inv b t [(e, Some new)] σ1 cfg r.2 Hp1) as
      (B1 & HB1 & _ & HF' & _ & HBl & _); try done.
    + by rewrite HI1, set_parents_lookup, Ht.
    + apply NoDup_singleton.
    + intros x ->%list_elem_of_singleton. by rewrite HE1.
    + apply (funs_ok_parents σ1); [done| |done].
      by eapply frames_parent_insert.
  - apply on_block_inv in Hr as (B & B' & HB & HfB & ->).
    destruct (proj1 (arg_op_shape B cfg) a B' HfB) as [l ->].
    apply (funs_ok_parents σ); [done| |done].
    by apply (parents_update_block σ b B).
  - apply on_block_inv in Hr as (B & B' & HB & HfB & ->).
    destruct (proj1 (proj2 (arg_op_shape B cfg)) idx B' HfB) as [l ->].
    apply (funs_ok_parents σ); [done| |done].
    by apply (parents_update_block σ b B).
  - apply on_block_inv in Hr as (B & B' & HB & HfB & ->).
    destruct (proj2 (proj2 (arg_op_shape B cfg)) B' HfB) as [l ->].
    apply (funs_ok_parents σ); [done| |done].
    by apply (parents_update_block σ b B).
Qed.

Lemma reachable_funs_ok σ : reachable σ → funs_ok σ.
Proof.
  induction 1 as [|σ σ' Hreach IH Hstep].
  - intros F bl. unfold empty_store. simpl. by rewrite lookup_empty.
  - eapply step_funs_ok; [done| |done]. by apply reachable_store_ok.
Qed.

(** X15. In a reachable store [getParent] is never null on a block of the
    store: it names a function of the store whose block sequence holds the
    block, exactly once, and no other function has the block in its
    sequence. *)
Theorem getParent_unique_function σ b B :
  reachable σ → Blocks σ !! b = Some B →
  ∃ F bl, getParent B = Some F ∧ Functions σ !! F = Some bl ∧
          b ∈ bl ∧ NoDup bl ∧
          ∀ F' bl', Functions σ !! F' = Some bl' → b ∈ bl' → F' = F.
Proof.
  intros Hr HB. pose proof (reachable_store_ok σ Hr) as (_ & _ & _ & _ & Ho4).
  pose proof (reachable_funs_ok σ Hr) as Hf.
  destruct (Ho4 b B HB) as (F & bl & HPar & HF & Hb).
  exists F, bl. split_and!; try done; [by apply (Hf F bl)|].
  intros F' bl' HF' Hb'. destruct (proj2 (Hf F' bl' HF') b Hb') as (B' & HB' & HP').
  congruence.
Qed.

Lemma getParent_unique_function_witness :
  ∃ F bl, getParent sample_B1 = Some F ∧
          Functions sample_store !! F = Some bl ∧
          1 ∈ bl ∧ NoDup bl ∧
          ∀ F' bl', Functions sample_store !! F' = Some bl' → 1 ∈ bl' →
                    F' = F.
Proof.
  apply (getParent_unique_function sample_store 1 sample_B1).
  - apply sample_reachable.
  - vm_compute. reflexivity.
Defined.

(** * Single successor and single predecessor together *)

(** X16. In a reachable store the two single-neighbour queries agree: if
    [getSingleSuccessor] of block [p] returns block [b] and
    [getSinglePredecessor] of [b] returns a block, that block is [p], and
    the only successor edge of [p] is the only edge that targets [b]. *)
Theorem single_successor_single_predecessor σ p P b B q cfg :
  reachable σ → Blocks σ !! p = Some P → Blocks σ !! b = Some B →
  getSingleSuccessor σ P cfg = Ok (Some b) →
  getSinglePredecessor σ B cfg = Ok (Some q) →
  q = p ∧ ∃ e, getSuccs σ P cfg = Ok [e] ∧ pred_edges σ B = Some [e].
Proof.
  intros Hr HP HB Hss Hsp. pose proof (reachable_store_ok σ Hr) as [Hp Ho].
  pose proof (reachable_lists_ok σ Hr) as Hl.
  rewrite getSingleSuccessor_eq in Hss.
  destruct (getSuccs σ P cfg) as [[|e [|e' ss]]| |] eqn:Hs; try done.
  destruct (Edges σ !! e) as [s|] eqn:He; [|done]. injection Hss as Hb.
  apply getSuccs_Ok_inv in Hs as (t & I & Hlast & HI & Hisa & Hss).
  destruct (proj1 (proj2 Ho) t I e HI) as (s' & He' & Hc);
    [rewrite <- Hss; apply list_elem_of_here|].
  assert (s' = s) as -> by congruence.
  destruct (proj2 (Hl p P HP) t (last_elem_of _ _ Hlast)) as (I' & HI' & Hpar).
  assert (I' = I) as -> by congruence.
  destruct (block_chain σ b B Hp HB) as (l & Hnd & Hch & Hall).
  pose proof (getSinglePredecessor_chain σ b B l cfg Ho Hch) as Hg.
  pose proof (Hall e s He Hb) as Hin.
  destruct l as [|x [|y l]]; [congruence| |congruence].
  apply list_elem_of_singleton in Hin as <-.
  destruct Hg as (s1 & t1 & I1 & p1 & He1 & Hc1 & HI1 & Hp1 & Hg).
  split; [congruence|]. exists e. split; [done|].
  by apply (pred_walk_chain_size _ _ _ _ _ Hnd Hch).
Qed.

Lemma single_successor_single_predecessor_witness :
  0 = 0 ∧ ∃ e, getSuccs sample_store sample_B0 Debug = Ok [e] ∧
               pred_edges sample_store sample_B1 = Some [e].
Proof.
  apply (single_successor_single_predecessor sample_store 0 sample_B0
           1 sample_B1 0 Debug).
  - apply sample_reachable.
  - vm_compute. reflexivity.
  - vm_compute. reflexivity.
  - vm_compute. reflexivity.
  - vm_compute. reflexivity.
Defined.
